(** * better-context: collection assembly and streaming answer aggregation

    A shallow embedding of the chunk aggregator of the chat server
    ([processStreamEvent]), of the browser client that replays its deltas
    ([sendMessage], [requestCancel]), of the collection key and collection
    loader of the btca server ([getCollectionKey], [Collections.load]), of the
    batch repository sync ([cloneOrUpdateAllReposLocally]) and of the JSONC
    comment stripper ([stripJsonc]), with the properties the specification
    states about them. *)

From Stdlib Require Import NArith ZArith Lia Ascii.
From stdpp Require Import gmap strings list sorting.

(** ** Strings *)

Lemma app_assoc_string (a b c : string) : (a +:+ b) +:+ c = a +:+ (b +:+ c).
Proof.
  induction a as [|x a IH]; [reflexivity|].
  change (String x ((a +:+ b) +:+ c) = String x (a +:+ (b +:+ c))).
  by rewrite IH.
Qed.

Lemma app_empty_r (a : string) : a +:+ "" = a.
Proof.
  induction a as [|x a IH]; [reflexivity|].
  change (String x (a +:+ "") = String x a). by rewrite IH.
Qed.

Lemma path_sep_inj (a b c : string) : a +:+ "/" +:+ b = a +:+ "/" +:+ c → b = c.
Proof. intros H. apply (inj (String.app a)) in H. by injection H. Qed.

Lemma app_nonempty_ne (a b : string) : b ≠ "" → a +:+ b ≠ a.
Proof.
  intros Hb H. rewrite <-(app_empty_r a) in H at 2.
  by apply (inj (String.app a)) in H.
Qed.

(** ** Effects

    The server code is written with the [effect] library.  An
    [Effect.Effect<A, E>] is modelled as a function that runs in a world [W]
    and either fails with an [E] or succeeds with an [A], leaving a new
    world. *)

Definition Effect (W E A : Type) : Type := W → (E + A) * W.

Definition succeed {W E A} (a : A) : Effect W E A := λ w, (inr a, w).
Definition fail {W E A} (e : E) : Effect W E A := λ w, (inl e, w).

(** [yield*] inside [Effect.gen]: the rest runs only after a success. *)
Definition flatMap {W E A B} (m : Effect W E A) (k : A → Effect W E B)
  : Effect W E B :=
  λ w, match m w with
       | (inl e, w') => (inl e, w')
       | (inr a, w') => k a w'
       end.

Definition mapError {W E E' A} (f : E → E') (m : Effect W E A) : Effect W E' A :=
  λ w, match m w with
       | (inl e, w') => (inl (f e), w')
       | (inr a, w') => (inr a, w')
       end.

Definition orElseSucceed {W E E' A} (a : A) (m : Effect W E A) : Effect W E' A :=
  λ w, match m w with
       | (inl _, w') => (inr a, w')
       | (inr x, w') => (inr x, w')
       end.

#[global] Instance Effect_bind {W E} : MBind (Effect W E) := λ A B k m, flatMap m k.
#[global] Instance Effect_ret {W E} : MRet (Effect W E) := λ A a, succeed a.

Ltac run_effect :=
  unfold mbind, Effect_bind, mret, Effect_ret, flatMap, mapError,
    orElseSucceed, succeed, fail in *.

(** ** Streaming answer aggregation

    [apps/chat-web/src/routes/api/sessions/[sessionId]/chat/+server.ts]
    holds the aggregator; the page component [+page.svelte] holds the
    consumer of its deltas. *)
Module Aggregator.

(** [ToolChunk.state] of [lib/types]: the three-state model. *)
Inductive ToolState := pending | running | completed.

(** [BtcaToolStateSchema.status]: the collaborator's vocabulary. *)
Inductive ToolStatus :=
| status_pending | status_running | status_completed | status_error.

(** [BtcaChunk = TextChunk | ReasoningChunk | ToolChunk | FileChunk]. *)
Inductive BtcaChunk :=
| TextChunk (id text : string)
| ReasoningChunk (id text : string)
| ToolChunk (id toolName : string) (state : ToolState)
| FileChunk (id filePath : string).

Inductive ChunkType := type_text | type_reasoning | type_tool | type_file.

(** [BtcaStreamEvent]: only the fields the aggregator reads are kept. *)
Inductive BtcaStreamEvent :=
| ev_meta
| ev_text_delta (delta : string)
| ev_reasoning_delta (delta : string)
| ev_tool_updated (callID tool : string) (status : ToolStatus)
| ev_done
| ev_error.

(** A chunk as a plain object: what [Partial<BtcaChunk>] admits on the
    server and what [JSON.parse] hands to the client.  A field that is absent
    from the object is [None]. *)
Record ChunkObj := {
  o_type : option ChunkType;
  o_id : option string;
  o_text : option string;
  o_toolName : option string;
  o_state : option ToolState;
  o_filePath : option string
}.

(** The object literals [{ text: existing.text }] and [{ state }]. *)
Definition patch_text (t : string) : ChunkObj :=
  {| o_type := None; o_id := None; o_text := Some t;
     o_toolName := None; o_state := None; o_filePath := None |}.

Definition patch_state (s : ToolState) : ChunkObj :=
  {| o_type := None; o_id := None; o_text := None;
     o_toolName := None; o_state := Some s; o_filePath := None |}.

(** [ChunkUpdate]: [{ type: 'add', chunk }] or [{ type: 'update', id, chunk }]. *)
Inductive ChunkUpdate :=
| add (chunk : BtcaChunk)
| update (id : string) (chunk : ChunkObj).

#[global] Instance ToolState_eq_dec : EqDecision ToolState.
Proof. solve_decision. Defined.
#[global] Instance ToolStatus_eq_dec : EqDecision ToolStatus.
Proof. solve_decision. Defined.
#[global] Instance ChunkType_eq_dec : EqDecision ChunkType.
Proof. solve_decision. Defined.
#[global] Instance BtcaChunk_eq_dec : EqDecision BtcaChunk.
Proof. solve_decision. Defined.
#[global] Instance ChunkObj_eq_dec : EqDecision ChunkObj.
Proof. solve_decision. Defined.
#[global] Instance ChunkUpdate_eq_dec : EqDecision ChunkUpdate.
Proof. solve_decision. Defined.

Definition chunk_id (c : BtcaChunk) : string :=
  match c with
  | TextChunk id _ | ReasoningChunk id _ | ToolChunk id _ _ | FileChunk id _ => id
  end.

Definition chunk_type (c : BtcaChunk) : ChunkType :=
  match c with
  | TextChunk _ _ => type_text
  | ReasoningChunk _ _ => type_reasoning
  | ToolChunk _ _ _ => type_tool
  | FileChunk _ _ => type_file
  end.

(** The two sentinel ids of [processStreamEvent]. *)
Definition textChunkId : string := "__text__".
Definition reasoningChunkId : string := "__reasoning__".

(** The aggregator's two mutable containers, [chunksById] (a [Map]) and
    [chunkOrder] (an array), threaded as one state. *)
Record AggState := {
  chunksById : gmap string BtcaChunk;
  chunkOrder : list string
}.

Definition initial : AggState := {| chunksById := ∅; chunkOrder := [] |}.

(** The conditional expression that maps [event.state.status]. *)
Definition map_status (s : ToolStatus) : ToolState :=
  match s with
  | status_pending => pending
  | status_running => running
  | _ => completed
  end.

(** [chunksById.set(id, chunk); chunkOrder.push(id)]. *)
Definition set_and_push (id : string) (c : BtcaChunk) (st : AggState) : AggState :=
  {| chunksById := <[id := c]> (chunksById st);
     chunkOrder := chunkOrder st ++ [id] |}.

(** In-place mutation of the chunk stored under [id] ([existing.text += ...],
    [existing.state = ...]): the map entry is replaced, the order is kept. *)
Definition mutate (id : string) (c : BtcaChunk) (st : AggState) : AggState :=
  {| chunksById := <[id := c]> (chunksById st);
     chunkOrder := chunkOrder st |}.

(** [processStreamEvent(event, chunksById, chunkOrder)]: the delta to forward
    ([None] for [null]) and the containers after the call.  The caller
    serialises the delta at once, so the [chunk] of an [add] is the value the
    chunk has at that moment. *)
Definition processStreamEvent (event : BtcaStreamEvent) (st : AggState)
  : option ChunkUpdate * AggState :=
  match event with
  | ev_text_delta delta =>
      match chunksById st !! textChunkId with
      | Some (TextChunk id text) =>
          let text' := text +:+ delta in
          (Some (update textChunkId (patch_text text')),
           mutate textChunkId (TextChunk id text') st)
      | _ =>
          let chunk := TextChunk textChunkId delta in
          (Some (add chunk), set_and_push textChunkId chunk st)
      end
  | ev_reasoning_delta delta =>
      match chunksById st !! reasoningChunkId with
      | Some (ReasoningChunk id text) =>
          let text' := text +:+ delta in
          (Some (update reasoningChunkId (patch_text text')),
           mutate reasoningChunkId (ReasoningChunk id text') st)
      | _ =>
          let chunk := ReasoningChunk reasoningChunkId delta in
          (Some (add chunk), set_and_push reasoningChunkId chunk st)
      end
  | ev_tool_updated callID tool status =>
      let state := map_status status in
      match chunksById st !! callID with
      | Some (ToolChunk id toolName _) =>
          (Some (update callID (patch_state state)),
           mutate callID (ToolChunk id toolName state) st)
      | _ =>
          let chunk := ToolChunk callID tool state in
          (Some (add chunk), set_and_push callID chunk st)
      end
  | _ => (None, st)
  end.

(** The read loop of the [POST] handler: every event goes through
    [processStreamEvent] and the non-null deltas are enqueued in order. *)
Fixpoint run (events : list BtcaStreamEvent) (st : AggState)
  : list ChunkUpdate * AggState :=
  match events with
  | [] => ([], st)
  | e :: rest =>
      let '(u, st1) := processStreamEvent e st in
      let '(us, st2) := run rest st1 in
      (match u with Some d => d :: us | None => us end, st2)
  end.

Definition deltas (events : list BtcaStreamEvent) : list ChunkUpdate :=
  (run events initial).1.

Definition final_state (events : list BtcaStreamEvent) : AggState :=
  (run events initial).2.

(** [chunkOrder.map((id) => chunksById.get(id)!)]: an id missing from the map
    would give [undefined], here [None]. *)
Definition chunk_list (st : AggState) : list (option BtcaChunk) :=
  (λ id, chunksById st !! id) <$> chunkOrder st.

(** [JSON.stringify] of a chunk followed by [JSON.parse] on the client. *)
Definition to_obj (c : BtcaChunk) : ChunkObj :=
  match c with
  | TextChunk id text =>
      {| o_type := Some type_text; o_id := Some id; o_text := Some text;
         o_toolName := None; o_state := None; o_filePath := None |}
  | ReasoningChunk id text =>
      {| o_type := Some type_reasoning; o_id := Some id; o_text := Some text;
         o_toolName := None; o_state := None; o_filePath := None |}
  | ToolChunk id toolName state =>
      {| o_type := Some type_tool; o_id := Some id; o_text := None;
         o_toolName := Some toolName; o_state := Some state; o_filePath := None |}
  | FileChunk id filePath =>
      {| o_type := Some type_file; o_id := Some id; o_text := None;
         o_toolName := None; o_state := None; o_filePath := Some filePath |}
  end.

(** Object spread [{ ...c, ...patch }]: a field of [patch] wins when present. *)
Definition spread (c patch : ChunkObj) : ChunkObj :=
  {| o_type := from_option Some (o_type c) (o_type patch);
     o_id := from_option Some (o_id c) (o_id patch);
     o_text := from_option Some (o_text c) (o_text patch);
     o_toolName := from_option Some (o_toolName c) (o_toolName patch);
     o_state := from_option Some (o_state c) (o_state patch);
     o_filePath := from_option Some (o_filePath c) (o_filePath patch) |}.

(** The client's handling of one delta in [sendMessage]:
    [currentChunks = [...currentChunks, event.chunk]] for an [add], and for an
    [update] a [map] that spreads the partial chunk into every chunk whose id
    is [event.id]. *)
Definition apply_delta (currentChunks : list ChunkObj) (d : ChunkUpdate)
  : list ChunkObj :=
  match d with
  | add chunk => currentChunks ++ [to_obj chunk]
  | update id patch =>
      (λ c, if decide (o_id c = Some id) then spread c patch else c)
        <$> currentChunks
  end.

Definition replay (ds : list ChunkUpdate) : list ChunkObj :=
  foldl apply_delta [] ds.

(** *** Facts about the aggregator *)

(** The texts carried by the updates that follow an accumulated text [acc]. *)
Fixpoint running_texts (acc : string) (ds : list string) : list string :=
  match ds with
  | [] => []
  | d :: rest => (acc +:+ d) :: running_texts (acc +:+ d) rest
  end.

Lemma foldl_app_concat (acc : string) (ds : list string) :
  foldl String.app acc ds = acc +:+ String.concat "" ds.
Proof.
  revert acc. induction ds as [|d ds IH]; intros acc; simpl.
  - by rewrite app_empty_r.
  - rewrite IH. destruct ds as [|d' ds].
    + by rewrite app_empty_r.
    + change ("" +:+ String.concat "" (d' :: ds)) with (String.concat "" (d' :: ds)).
      by rewrite app_assoc_string.
Qed.

(** Text deltas that arrive while the text chunk is live are all updates
    of that chunk. *)
Lemma run_text_live (ds : list string) (st : AggState) (id acc : string) :
  chunksById st !! textChunkId = Some (TextChunk id acc) →
  run (ev_text_delta <$> ds) st =
  ((λ t, update textChunkId (patch_text t)) <$> running_texts acc ds,
   {| chunksById := <[textChunkId := TextChunk id (foldl String.app acc ds)]> (chunksById st);
      chunkOrder := chunkOrder st |}).
Proof.
  revert st acc. induction ds as [|d ds IH]; intros [m o] acc Hm; simpl in *.
  - by rewrite insert_id.
  - rewrite Hm. unfold mutate; simpl.
    rewrite (IH _ (acc +:+ d)); simpl; [|by rewrite lookup_insert_eq].
    by rewrite insert_insert_eq.
Qed.

(** Tool events for a call id whose tool chunk is live are all updates of
    the status, and the tool name stays what it was. *)
Lemma run_tool_live (evs : list (string * ToolStatus)) (st : AggState)
    (callID id toolName : string) (s : ToolState) :
  chunksById st !! callID = Some (ToolChunk id toolName s) →
  run ((λ e, ev_tool_updated callID e.1 e.2) <$> evs) st =
  ((λ e, update callID (patch_state (map_status e.2))) <$> evs,
   {| chunksById :=
        <[callID := ToolChunk id toolName
                      (foldl (λ _ e, map_status e.2) s evs)]> (chunksById st);
      chunkOrder := chunkOrder st |}).
Proof.
  revert st s. induction evs as [|[t s'] evs IH]; intros [m o] s Hm; simpl in *.
  - by rewrite insert_id.
  - rewrite Hm. unfold mutate; simpl.
    rewrite (IH _ (map_status s')); simpl; [|by rewrite lookup_insert_eq].
    by rewrite insert_insert_eq.
Qed.

(** **** Replaying the deltas when no call id is a sentinel id *)

(** A tool event whose [callID] is one of the two sentinel ids. *)
Definition collides (e : BtcaStreamEvent) : Prop :=
  match e with
  | ev_tool_updated callID _ _ => callID = textChunkId ∨ callID = reasoningChunkId
  | _ => False
  end.

(** What kind of chunk may sit under which key. *)
Definition well_kinded (id : string) (c : BtcaChunk) : Prop :=
  chunk_id c = id ∧
  match c with
  | TextChunk _ _ => id = textChunkId
  | ReasoningChunk _ _ => id = reasoningChunkId
  | ToolChunk _ _ _ => id ≠ textChunkId ∧ id ≠ reasoningChunkId
  | FileChunk _ _ => False
  end.

(** The client's list [l] mirrors the aggregator's containers. *)
Record mirrors (st : AggState) (l : list ChunkObj) : Prop := {
  mirrors_nodup : NoDup (chunkOrder st);
  mirrors_kinds : ∀ id c, chunksById st !! id = Some c → well_kinded id c;
  mirrors_list :
    Forall2 (λ id o, ∃ c, chunksById st !! id = Some c ∧ o = to_obj c)
            (chunkOrder st) l
}.

Lemma mirrors_initial : mirrors initial [].
Proof. split; simpl; [constructor| |constructor]. intros id c. by rewrite lookup_empty. Qed.

Lemma mirrors_in_order st l id :
  mirrors st l → id ∈ chunkOrder st → is_Some (chunksById st !! id).
Proof.
  intros [_ _ H] Hin. induction H as [|id' o ids os (c & Hc & _) _ IH].
  - by apply elem_of_nil in Hin.
  - apply elem_of_cons in Hin as [->|Hin]; eauto.
Qed.

Lemma mirrors_push st l id c :
  mirrors st l → chunksById st !! id = None → well_kinded id c →
  mirrors (set_and_push id c st) (l ++ [to_obj c]).
Proof.
  intros Hm Hnone Hk.
  assert (id ∉ chunkOrder st) as Hfresh.
  { intros Hin. destruct (mirrors_in_order _ _ _ Hm Hin) as [? ?]. congruence. }
  destruct Hm as [Hnd Hkinds Hl]. split; simpl.
  - apply NoDup_app. split_and!; [done| |apply NoDup_singleton].
    intros x Hx ->%list_elem_of_singleton. done.
  - intros id' c'. rewrite lookup_insert. case_decide; [|by auto].
    intros [= <-]. by subst.
  - apply Forall2_app.
    + clear Hnd. induction Hl as [|id' o ids os (c' & Hc' & ->) _ IH]; [constructor|].
      apply not_elem_of_cons in Hfresh as [Hne Hfresh]. constructor; [|by apply IH].
      exists c'. by rewrite lookup_insert_ne.
    + repeat constructor. exists c. by rewrite lookup_insert_eq.
Qed.

Lemma mirrors_patch st l id c c' patch :
  mirrors st l → chunksById st !! id = Some c → well_kinded id c' →
  spread (to_obj c) patch = to_obj c' →
  mirrors (mutate id c' st)
          ((λ o, if decide (o_id o = Some id) then spread o patch else o) <$> l).
Proof.
  intros [Hnd Hkinds Hl] Hc Hk Hspread. split; simpl; [done| |].
  - intros id' c''. rewrite lookup_insert. case_decide; [|by auto].
    intros [= <-]. by subst.
  - apply Forall2_fmap_r. eapply Forall2_impl; [exact Hl|].
    intros id' o (c1 & Hc1 & ->). simpl.
    assert (o_id (to_obj c1) = Some id') as Hid.
    { destruct (Hkinds _ _ Hc1) as [<- _]. by destruct c1. }
    rewrite Hid. destruct (decide (id' = id)) as [->|Hne].
    + rewrite decide_True by done. assert (c1 = c) as -> by congruence.
      exists c'. by rewrite lookup_insert_eq.
    + rewrite decide_False by congruence.
      exists c1. by rewrite lookup_insert_ne.
Qed.

Ltac absurd_kind :=
  exfalso; unfold textChunkId, reasoningChunkId in *; simpl in *;
  intuition (discriminate || congruence).

Lemma mirrors_step st l e :
  mirrors st l → ¬ collides e →
  let '(u, st') := processStreamEvent e st in
  mirrors st' (from_option (apply_delta l) l u).
Proof.
  intros Hm Hnc. pose proof (mirrors_kinds _ _ Hm) as Hkinds.
  destruct e as [|delta|delta|callID tool status| |]; simpl; try done.
  - destruct (chunksById st !! textChunkId) as [c|] eqn:Hc.
    + destruct (Hkinds _ _ Hc) as [Hid Hk].
      destruct c; simpl in *; try absurd_kind.
      eapply mirrors_patch; eauto. by split.
    + apply mirrors_push; [done..|]. by split.
  - destruct (chunksById st !! reasoningChunkId) as [c|] eqn:Hc.
    + destruct (Hkinds _ _ Hc) as [Hid Hk].
      destruct c; simpl in *; try absurd_kind.
      eapply mirrors_patch; eauto. by split.
    + apply mirrors_push; [done..|]. by split.
  - simpl in Hnc. destruct (chunksById st !! callID) as [c|] eqn:Hc.
    + destruct (Hkinds _ _ Hc) as [Hid Hk].
      destruct c; simpl in *; try (exfalso; subst; tauto).
      eapply mirrors_patch; eauto. by split.
    + apply mirrors_push; [done..|]. split; [done|]. simpl. tauto.
Qed.

Lemma mirrors_run events st l :
  mirrors st l → Forall (λ e, ¬ collides e) events →
  mirrors (run events st).2 (foldl apply_delta l (run events st).1).
Proof.
  revert st l. induction events as [|e events IH]; intros st l Hm Hall; [done|].
  apply Forall_cons in Hall as [He Hall]. simpl.
  pose proof (mirrors_step _ _ e Hm He) as Hstep.
  destruct (processStreamEvent e st) as [u st1].
  specialize (IH st1 _ Hstep Hall).
  destruct (run events st1) as [us st2]. by destruct u.
Qed.

Lemma mirrors_chunk_list st l :
  mirrors st l → Some <$> l = (fmap to_obj) <$> chunk_list st.
Proof.
  intros [_ _ H]. unfold chunk_list. rewrite <-list_fmap_compose.
  induction H as [|id o ids os (c & Hc & ->) _ IH]; [done|].
  rewrite !fmap_cons, IH. simpl. by rewrite Hc.
Qed.

(** When no tool event reuses a sentinel id, the client that replays the
    deltas from the empty list ends with the aggregator's final chunk list,
    and that list has no repeated id. *)
Theorem replay_matches_aggregator (events : list BtcaStreamEvent) :
  Forall (λ e, ¬ collides e) events →
  Some <$> replay (deltas events) = (fmap to_obj) <$> chunk_list (final_state events)
  ∧ NoDup (chunkOrder (final_state events)).
Proof.
  intros Hall. pose proof (mirrors_run events initial [] mirrors_initial Hall) as Hm.
  split; [by apply mirrors_chunk_list|by destruct Hm].
Qed.

(** **** The claims about the aggregator *)

Lemma run_cons e es st :
  run (e :: es) st =
  let '(u, st1) := processStreamEvent e st in
  let '(us, st2) := run es st1 in
  (match u with Some d => d :: us | None => us end, st2).
Proof. reflexivity. Qed.

Lemma text_delta_fresh st delta :
  chunksById st !! textChunkId = None →
  processStreamEvent (ev_text_delta delta) st =
  (Some (add (TextChunk textChunkId delta)),
   set_and_push textChunkId (TextChunk textChunkId delta) st).
Proof. intros H. simpl. by rewrite H. Qed.

Lemma tool_updated_fresh st callID tool status :
  chunksById st !! callID = None →
  processStreamEvent (ev_tool_updated callID tool status) st =
  (Some (add (ToolChunk callID tool (map_status status))),
   set_and_push callID (ToolChunk callID tool (map_status status)) st).
Proof. intros H. simpl. by rewrite H. Qed.

(** C4.  A non-empty run of [text.delta] events fed to a fresh aggregator:
    the first event is forwarded as the [add] of a text chunk with the
    sentinel id and the first delta as its text, each later event as an
    [update] of that chunk carrying the text accumulated so far, and the
    final chunk list is the single text chunk whose text is the
    concatenation of all the deltas in arrival order. *)
Theorem text_deltas_one_chunk (d : string) (ds : list string) :
  deltas (ev_text_delta <$> d :: ds) =
    add (TextChunk textChunkId d)
      :: ((λ t, update textChunkId (patch_text t)) <$> running_texts d ds)
  ∧ chunk_list (final_state (ev_text_delta <$> d :: ds)) =
    [Some (TextChunk textChunkId (String.concat "" (d :: ds)))].
Proof.
  unfold deltas, final_state. rewrite fmap_cons, run_cons.
  rewrite text_delta_fresh by apply lookup_empty.
  rewrite (run_text_live ds _ textChunkId d) by apply lookup_insert_eq.
  split; [done|]. unfold chunk_list; simpl.
  rewrite lookup_insert_eq, foldl_app_concat. do 3 f_equal.
  destruct ds as [|d' ds]; [apply app_empty_r|done].
Qed.

(** C5.  A run of [tool.updated] events that share one call id, fed to an
    aggregator that holds no chunk for that id yet: the first is forwarded as
    the [add] of a tool chunk with that call id, the first event's tool name
    and the mapped status; each later one as an [update] whose partial chunk
    holds the mapped status and nothing else, so that the stored chunk keeps
    the first tool name whatever name the later events carry, and spreading
    the partial chunk into a chunk changes its state only; the mapping sends
    pending to pending, running to running and every other status, error
    included, to completed. *)
Theorem tool_updates_change_status_only
    (st : AggState) (callID tool : string) (status : ToolStatus)
    (evs : list (string * ToolStatus)) :
  chunksById st !! callID = None →
  run ((λ e, ev_tool_updated callID e.1 e.2) <$> (tool, status) :: evs) st =
    (add (ToolChunk callID tool (map_status status))
       :: ((λ e, update callID (patch_state (map_status e.2))) <$> evs),
     {| chunksById :=
          <[callID := ToolChunk callID tool
                        (map_status (default status (last (evs.*2))))]>
            (chunksById st);
        chunkOrder := chunkOrder st ++ [callID] |})
  ∧ (∀ (c : ChunkObj) (s : ToolState),
       spread c (patch_state s) =
       {| o_type := o_type c; o_id := o_id c; o_text := o_text c;
          o_toolName := o_toolName c; o_state := Some s;
          o_filePath := o_filePath c |})
  ∧ map_status status_pending = pending
  ∧ map_status status_running = running
  ∧ map_status status_completed = completed
  ∧ map_status status_error = completed.
Proof.
  intros Hfresh. rewrite fmap_cons, run_cons. cbn [fst snd].
  rewrite tool_updated_fresh by done.
  rewrite (run_tool_live evs _ callID callID tool (map_status status))
    by apply lookup_insert_eq.
  split_and!; try done.
  unfold set_and_push; simpl. rewrite insert_insert_eq. do 3 f_equal.
  clear. revert status. induction evs as [|[t s] evs IH]; intros status; [done|].
  cbn [foldl snd]. rewrite IH, fmap_cons. cbn [snd].
  destruct (evs.*2) as [|s' l]; [done|]. rewrite last_cons_cons.
  destruct (last (s' :: l)) eqn:E; [done|]. by apply last_None in E.
Qed.

Lemma tool_updates_change_status_only_witness :
  run [ev_tool_updated "call_1" "grep" status_pending;
       ev_tool_updated "call_1" "read" status_running;
       ev_tool_updated "call_1" "grep" status_error] initial =
  ([add (ToolChunk "call_1" "grep" pending);
    update "call_1" (patch_state running);
    update "call_1" (patch_state completed)],
   {| chunksById := <["call_1" := ToolChunk "call_1" "grep" completed]> ∅;
      chunkOrder := ["call_1"] |}).
Proof.
  apply (tool_updates_change_status_only initial "call_1" "grep" status_pending
           [("read", status_running); ("grep", status_error)]).
  reflexivity.
Defined.

(** C6 (evaluation at the failing input).  A text delta followed by a tool
    event whose call id is the text sentinel: the tool chunk replaces the text
    chunk under the sentinel key and the key is pushed a second time, so the
    final chunk list holds the same id twice and the chunk first created as a
    text chunk has become a tool chunk. *)
Theorem sentinel_collision_repeats_id :
  let before := [ev_text_delta "a"] in
  let events := before ++ [ev_tool_updated textChunkId "grep" status_pending] in
  chunk_list (final_state before) = [Some (TextChunk textChunkId "a")]
  ∧ chunkOrder (final_state events) = [textChunkId; textChunkId]
  ∧ chunk_list (final_state events) =
    [Some (ToolChunk textChunkId "grep" pending);
     Some (ToolChunk textChunkId "grep" pending)]
  ∧ ¬ NoDup (chunkOrder (final_state events))
  ∧ chunk_type <$> chunksById (final_state before) !! textChunkId = Some type_text
  ∧ chunk_type <$> chunksById (final_state events) !! textChunkId = Some type_tool.
Proof.
  cbv zeta. split_and!; try by vm_compute.
  intros H. apply NoDup_cons in H as [H _]. apply H. by vm_compute; left.
Qed.

(** C1 (evaluation at the failing input).  On the same two events the client
    that replays the deltas ends with a text chunk followed by a tool chunk,
    while the aggregator's own list is the tool chunk twice. *)
Theorem sentinel_collision_replay_differs :
  let events := [ev_text_delta "a"; ev_tool_updated textChunkId "grep" status_pending] in
  deltas events =
    [add (TextChunk textChunkId "a"); add (ToolChunk textChunkId "grep" pending)]
  ∧ replay (deltas events) =
    [to_obj (TextChunk textChunkId "a"); to_obj (ToolChunk textChunkId "grep" pending)]
  ∧ chunk_list (final_state events) =
    [Some (ToolChunk textChunkId "grep" pending);
     Some (ToolChunk textChunkId "grep" pending)]
  ∧ Some <$> replay (deltas events) ≠ (fmap to_obj) <$> chunk_list (final_state events).
Proof.
  cbv zeta. split_and!; try by vm_compute.
Qed.

End Aggregator.

(** ** Collection assembly

    [apps/server/src/collections/types.ts] ([getCollectionKey]),
    [apps/server/src/collections/service.ts] ([CollectionsLive]),
    [apps/server/src/resources/service.ts] ([ResourcesLive]) and the handler
    [questionHandler] of [apps/server/src/agent/index.ts]. *)
Module Collections.

(** *** The collection key *)

(** [[...resourceNames].sort().join("+")].  The default [sort] orders strings
    by their code units, here [String.le]; [join] is [String.concat]. *)
Definition getCollectionKey (resourceNames : list string) : string :=
  String.concat "+" (merge_sort String.le resourceNames).

(** [Array.from(new Set(resourceNames))]: a [Set] keeps the first occurrence
    of every element, in insertion order. *)
Fixpoint set_from (seen : gset string) (names : list string) : list string :=
  match names with
  | [] => []
  | n :: rest =>
      if decide (n ∈ seen) then set_from seen rest
      else n :: set_from ({[n]} ∪ seen) rest
  end.

Definition array_from_set (names : list string) : list string := set_from ∅ names.

(** *** The world the effects run in *)

Inductive Node := Dir | Link (target : string).

(** The operations that change the disk, as they are performed. *)
Inductive Op :=
| op_makeDirectory (path : string)
| op_clone (name : string)
| op_pull (name : string)
| op_remove (path : string)
| op_symlink (target path : string).

#[global] Instance Node_eq_dec : EqDecision Node.
Proof. solve_decision. Defined.
#[global] Instance Op_eq_dec : EqDecision Op.
Proof. solve_decision. Defined.

(** The file system is a flat map from paths to nodes (an entry stands for
    the whole subtree below it); [checkouts] is the set of resource names
    that have a checkout in the resources directory; [unreachable] is the set
    of resource names whose remote cannot be reached; [trace] records the
    operations performed so far, oldest first. *)
Record World := {
  entries : gmap string Node;
  checkouts : gset string;
  unreachable : gset string;
  trace : list Op
}.

Definition log (op : Op) (w : World) : World :=
  {| entries := entries w; checkouts := checkouts w;
     unreachable := unreachable w; trace := trace w ++ [op] |}.

Definition with_entries (m : gmap string Node) (w : World) : World :=
  {| entries := m; checkouts := checkouts w;
     unreachable := unreachable w; trace := trace w |}.

Definition with_checkouts (s : gset string) (w : World) : World :=
  {| entries := entries w; checkouts := s;
     unreachable := unreachable w; trace := trace w |}.

(** The effects of this module run in a [World]. *)
Abbreviation Eff := (Effect World).

(** [path.join(a, b)] for a directory and an entry name. *)
Definition path_join (a b : string) : string := a +:+ "/" +:+ b.

(** The four [FileSystem] calls [Collections.load] makes. *)
Definition fs_makeDirectory (path : string) : Eff string unit :=
  λ w, match entries w !! path with
       | Some (Link _) => (inl "EEXIST", w)
       | _ => (inr (), log (op_makeDirectory path)
                           (with_entries (<[path := Dir]> (entries w)) w))
       end.

Definition fs_exists (path : string) : Eff string bool :=
  λ w, (inr (bool_decide (is_Some (entries w !! path))), w).

Definition fs_remove (path : string) : Eff string unit :=
  λ w, (inr (), log (op_remove path) (with_entries (delete path (entries w)) w)).

Definition fs_symlink (target path : string) : Eff string unit :=
  λ w, match entries w !! path with
       | Some _ => (inl "EEXIST", w)
       | None => (inr (), log (op_symlink target path)
                              (with_entries (<[path := Link target]> (entries w)) w))
       end.

(** *** Resources *)

Inductive ResourceType := git | unsupported.

Record ResourceDefinition := {
  def_name : string;
  def_type : ResourceType;
  def_url : string;
  def_branch : string;
  def_searchPath : option string;
  def_specialNotes : option string
}.

Record ConfigService := {
  resourcesDirectory : string;
  collectionsDirectory : string;
  resources : list ResourceDefinition
}.

(** [stored.resources.find((r) => r.name === name)]. *)
Definition getResource (config : ConfigService) (name : string)
  : option ResourceDefinition :=
  List.find (λ r, bool_decide (def_name r = name)) (resources config).

Record BtcaGitResourceArgs := {
  arg_name : string;
  arg_url : string;
  arg_branch : string;
  arg_repoSubPath : string;
  arg_resourcesDirectoryPath : string;
  arg_specialAgentInstructions : string;
  arg_quiet : bool
}.

Record BtcaFsResource := {
  name : string;
  repoSubPath : string;
  specialAgentInstructions : string;
  getAbsoluteDirectoryPath : Eff string string
}.

Record ResourceError := { resource_message : string }.
Record CollectionError := {
  message : string;
  cause : option string
}.

#[global] Instance CollectionError_eq_dec : EqDecision CollectionError.
Proof. solve_decision. Defined.

Definition definitionToGitArgs (definition : ResourceDefinition)
    (resourcesDirectory : string) (quiet : bool) : BtcaGitResourceArgs :=
  {| arg_name := def_name definition;
     arg_url := def_url definition;
     arg_branch := def_branch definition;
     arg_repoSubPath := default "" (def_searchPath definition);
     arg_resourcesDirectoryPath := resourcesDirectory;
     arg_specialAgentInstructions := default "" (def_specialNotes definition);
     arg_quiet := quiet |}.

(** Modelled from the spec: [loadGitResource] of [resources/impls/git.ts],
    which is not among the sources.  It is the spec's [ResourceStore.ensure]:
    if no local checkout exists for the name it creates one by cloning, if
    one exists it refreshes it by pulling; a sync failure is a
    [ResourceError].  The resource it returns answers
    [getAbsoluteDirectoryPath] with the checkout's path. *)
Definition git_resource (args : BtcaGitResourceArgs) : BtcaFsResource :=
  {| name := arg_name args;
     repoSubPath := arg_repoSubPath args;
     specialAgentInstructions := arg_specialAgentInstructions args;
     getAbsoluteDirectoryPath :=
       succeed (path_join (arg_resourcesDirectoryPath args) (arg_name args)) |}.

Definition loadGitResource (args : BtcaGitResourceArgs)
  : Eff ResourceError BtcaFsResource :=
  λ w,
    if decide (arg_name args ∈ unreachable w) then
      (inl {| resource_message := "Failed to sync " +:+ arg_name args |}, w)
    else if decide (arg_name args ∈ checkouts w) then
      (inr (git_resource args), log (op_pull (arg_name args)) w)
    else
      (inr (git_resource args),
       log (op_clone (arg_name args))
           (with_checkouts ({[arg_name args]} ∪ checkouts w) w)).

Definition dquote : string := String (Ascii.ascii_of_nat 34) "".
Definition newline : string := String (Ascii.ascii_of_nat 10) "".

(** [Resources.load(name, options)] of [ResourcesLive]. *)
Definition Resources_load (config : ConfigService) (name : string) (quiet : bool)
  : Eff ResourceError BtcaFsResource :=
  match getResource config name with
  | None =>
      fail {| resource_message :=
                "Resource " +:+ dquote +:+ name +:+ dquote +:+ " not found in config" |}
  | Some definition =>
      match def_type definition with
      | git =>
          loadGitResource
            (definitionToGitArgs definition (resourcesDirectory config) quiet)
      | unsupported =>
          fail {| resource_message := "Unsupported resource type: unsupported" |}
      end
  end.

(** *** [Collections.load] *)

Record CollectionResult := {
  path : string;
  agentInstructions : string
}.

#[global] Instance CollectionResult_eq_dec : EqDecision CollectionResult.
Proof. solve_decision. Defined.

Section Load.

(** [a.localeCompare(b)] is the platform's collation, and
    [FS_RESOURCE_SYSTEM_NOTE] is a constant of [resources/types.ts], which is
    not among the sources: both are parameters. *)
Variable localeCompare : string → string → Z.
Variable FS_RESOURCE_SYSTEM_NOTE : string.

Definition locale_le (a b : string) : Prop := (localeCompare a b ≤ 0)%Z.

#[local] Instance locale_le_dec : RelDecision locale_le.
Proof. intros a b. unfold locale_le. apply _. Defined.

(** A string is truthy when it is not empty. *)
Definition truthy (s : string) : Prop := s ≠ "".

Definition createCollectionInstructionBlock (resource : BtcaFsResource) : string :=
  let lines :=
    filter truthy
      [ "## Resource: " +:+ name resource;
        FS_RESOURCE_SYSTEM_NOTE;
        "Path: ./" +:+ name resource;
        if decide (truthy (repoSubPath resource))
        then "Focus: ./" +:+ name resource +:+ "/" +:+ repoSubPath resource
        else "";
        if decide (truthy (specialAgentInstructions resource))
        then "Notes: " +:+ specialAgentInstructions resource
        else "" ] in
  String.concat newline lines.

Definition headerBlock : string :=
  String.concat newline
    [ "## Collection";
      "You are running inside the collection directory.";
      "Only use relative paths within '.' and never use '..' or absolute paths.";
      "Do not leave the collection directory." ].

Variable config : ConfigService.
Variable quiet : bool.

(** The first [for] loop: every name is loaded, in order, and the first
    failure ends the request. *)
Fixpoint load_resources (names : list string)
  : Eff CollectionError (list BtcaFsResource) :=
  match names with
  | [] => mret []
  | n :: rest =>
      resource ← mapError
        (λ c, {| message := "Failed to load resource " +:+ n;
                 cause := Some (resource_message c) |})
        (Resources_load config n quiet);
      loaded ← load_resources rest;
      mret (resource :: loaded)
  end.

(** The body of the second [for] loop. *)
Definition link_resource (collectionPath : string) (resource : BtcaFsResource)
  : Eff CollectionError unit :=
  resourcePath ← mapError
    (λ c, {| message := "Failed to get path for " +:+ name resource;
             cause := Some c |})
    (getAbsoluteDirectoryPath resource);
  let linkPath := path_join collectionPath (name resource) in
  linkExists ← orElseSucceed false (fs_exists linkPath);
  (if linkExists : bool then
     mapError
       (λ c, {| message := "Failed to remove existing entry for " +:+ name resource;
                cause := Some c |})
       (fs_remove linkPath)
   else mret ());;
  mapError
    (λ c, {| message := "Failed to create symlink for " +:+ name resource;
             cause := Some c |})
    (fs_symlink resourcePath linkPath).

Fixpoint link_resources (collectionPath : string) (loaded : list BtcaFsResource)
  : Eff CollectionError unit :=
  match loaded with
  | [] => mret ()
  | resource :: rest =>
      link_resource collectionPath resource;;
      link_resources collectionPath rest
  end.

(** The names [load] works on: de-duplicated, then sorted by collation. *)
Definition sorted_names (resourceNames : list string) : list string :=
  merge_sort locale_le (array_from_set resourceNames).

(** The key [load] names the collection directory with. *)
Definition load_key (resourceNames : list string) : string :=
  getCollectionKey (sorted_names resourceNames).

(** [Collections.load({ resourceNames, quiet })]. *)
Definition load (resourceNames : list string)
  : Eff CollectionError CollectionResult :=
  let uniqueNames := array_from_set resourceNames in
  if decide (length uniqueNames = 0) then
    fail {| message := "Cannot create collection with no resources";
            cause := None |}
  else
    let sortedNames := merge_sort locale_le uniqueNames in
    let key := getCollectionKey sortedNames in
    let collectionPath := path_join (collectionsDirectory config) key in
    mapError
      (λ c, {| message := "Failed to create collection directory";
               cause := Some c |})
      (fs_makeDirectory collectionPath);;
    loadedResources ← load_resources sortedNames;
    link_resources collectionPath loadedResources;;
    let instructionBlocks := createCollectionInstructionBlock <$> loadedResources in
    mret {| path := collectionPath;
            agentInstructions :=
              String.concat (newline +:+ newline) (headerBlock :: instructionBlocks) |}.

End Load.

(** The key [questionHandler] reports in its response:
    [getCollectionKey(resourceNames)] on the names as requested. *)
Definition reported_key (resourceNames : list string) : string :=
  getCollectionKey resourceNames.

(** The operations the spec counts as sync work: cloning, pulling, and
    re-linking (removing an entry, creating a symlink). *)
Definition is_sync (op : Op) : bool :=
  match op with
  | op_makeDirectory _ => false
  | _ => true
  end.

(** The operations an effect performed: what it appended to the trace. *)
Definition performed (before after : World) : list Op :=
  drop (length (trace before)) (trace after).

(** *** Facts about the key *)

Lemma elem_of_set_from (seen : gset string) (names : list string) (x : string) :
  x ∈ set_from seen names ↔ x ∈ names ∧ x ∉ seen.
Proof.
  revert seen. induction names as [|n names IH]; intros seen; simpl.
  - rewrite elem_of_nil. tauto.
  - case_decide as Hn.
    + rewrite IH, elem_of_cons. split; [tauto|]. intros [[->|?] ?]; tauto.
    + rewrite !elem_of_cons, IH, elem_of_union, elem_of_singleton. split.
      * intros [->|[? ?]]; tauto.
      * intros [[->|?] ?]; [tauto|]. destruct (decide (x = n)); tauto.
Qed.

Lemma NoDup_set_from (seen : gset string) (names : list string) :
  NoDup (set_from seen names).
Proof.
  revert seen. induction names as [|n names IH]; intros seen; simpl.
  - constructor.
  - case_decide; [apply IH|]. constructor; [|apply IH].
    rewrite elem_of_set_from, elem_of_union, elem_of_singleton. tauto.
Qed.

Lemma elem_of_array_from_set (names : list string) (x : string) :
  x ∈ array_from_set names ↔ x ∈ names.
Proof.
  unfold array_from_set. rewrite elem_of_set_from.
  pose proof (not_elem_of_empty (C:=gset string) x). tauto.
Qed.

Lemma array_from_set_nil (names : list string) :
  array_from_set names = [] ↔ names = [].
Proof.
  split; [|by intros ->]. destruct names as [|n names]; [done|].
  intros H. assert (n ∈ array_from_set (n :: names)) as Hin.
  { apply elem_of_array_from_set. by left. }
  rewrite H in Hin. by apply elem_of_nil in Hin.
Qed.

(** The key depends on the names only up to their order. *)
Lemma getCollectionKey_permutation (xs ys : list string) :
  xs ≡ₚ ys → getCollectionKey xs = getCollectionKey ys.
Proof.
  intros Hp. unfold getCollectionKey. f_equal.
  apply (Sorted_unique String.le); [apply Sorted_merge_sort, _..|].
  by rewrite !merge_sort_Permutation.
Qed.

(** The key [load] uses is the key of the de-duplicated names, whatever the
    collation does, and two requests with the same set of names get the same
    key. *)
Lemma load_key_dedup localeCompare (names : list string) :
  load_key localeCompare names = getCollectionKey (array_from_set names).
Proof.
  unfold load_key, sorted_names. apply getCollectionKey_permutation.
  apply merge_sort_Permutation.
Qed.

Lemma load_key_same_set localeCompare (xs ys : list string) :
  (∀ x, x ∈ xs ↔ x ∈ ys) → load_key localeCompare xs = load_key localeCompare ys.
Proof.
  intros Hset. rewrite !load_key_dedup. apply getCollectionKey_permutation.
  apply NoDup_Permutation; [apply NoDup_set_from..|].
  intros x. by rewrite !elem_of_array_from_set.
Qed.

(** C2 (evaluation at the failing input).  [getCollectionKey] sorts and
    joins but does not de-duplicate: a name requested twice appears twice in
    the key [questionHandler] reports, while [Collections.load], which
    de-duplicates first, names the directory with the key of the set. *)
Theorem duplicate_names_change_key :
  getCollectionKey ["svelte"; "svelte"] = "svelte+svelte"
  ∧ getCollectionKey ["svelte"] = "svelte"
  ∧ reported_key ["svelte"; "svelte"] ≠ reported_key ["svelte"]
  ∧ (∀ localeCompare,
       load_key localeCompare ["svelte"; "svelte"] = "svelte"
       ∧ load_key localeCompare ["svelte"] = "svelte").
Proof.
  split_and!; by vm_compute.
Qed.

(** C9.  When the requested names de-duplicate to nothing, which happens
    exactly when the list is empty, [Collections.load] fails with the
    [CollectionError] "Cannot create collection with no resources" and leaves
    the world as it was: no directory, no symlink, no sync operation. *)
Theorem empty_names_rejected localeCompare note config quiet
    (resourceNames : list string) (w : World) :
  array_from_set resourceNames = [] →
  resourceNames = []
  ∧ load localeCompare note config quiet resourceNames w =
    (inl {| message := "Cannot create collection with no resources";
            cause := None |}, w).
Proof.
  intros H. split; [by apply array_from_set_nil|].
  unfold load. by rewrite H.
Qed.

Lemma empty_names_rejected_witness :
  load (λ _ _, 0%Z) "" {| resourcesDirectory := "/r"; collectionsDirectory := "/c";
                          resources := [] |} false []
       {| entries := ∅; checkouts := ∅; unreachable := ∅; trace := [] |} =
  (inl {| message := "Cannot create collection with no resources"; cause := None |},
   {| entries := ∅; checkouts := ∅; unreachable := ∅; trace := [] |}).
Proof.
  apply (empty_names_rejected (λ _ _, 0%Z) "" _ false []). reflexivity.
Defined.

(** *** Loading the same collection again *)

(** The world [w] after some more operations have been recorded. *)
Definition extend (ops : list Op) (w : World) : World :=
  {| entries := entries w; checkouts := checkouts w;
     unreachable := unreachable w; trace := trace w ++ ops |}.

Lemma extend_extend ops1 ops2 w : extend ops2 (extend ops1 w) = extend (ops1 ++ ops2) w.
Proof. unfold extend; simpl. by rewrite app_assoc. Qed.

Lemma performed_extend ops w : performed w (extend ops w) = ops.
Proof. unfold performed, extend; simpl. by rewrite drop_app_length. Qed.

Section Reload.

Variable localeCompare : string → string → Z.
Variable FS_RESOURCE_SYSTEM_NOTE : string.
Variable config : ConfigService.
Variable quiet : bool.

Definition checkout_path (n : string) : string :=
  path_join (resourcesDirectory config) n.

(** The resource [Resources.load] answers with for a name, when it answers. *)
Definition resource_of (n : string) : option BtcaFsResource :=
  match getResource config n with
  | Some definition =>
      match def_type definition with
      | git => Some (git_resource
                       (definitionToGitArgs definition (resourcesDirectory config) quiet))
      | unsupported => None
      end
  | None => None
  end.

Lemma getResource_name n d : getResource config n = Some d → def_name d = n.
Proof.
  unfold getResource. intros H. apply find_some in H as [_ H].
  by apply bool_decide_eq_true in H.
Qed.

Lemma resource_of_fields n r :
  resource_of n = Some r →
  name r = n ∧ getAbsoluteDirectoryPath r = succeed (checkout_path n).
Proof.
  unfold resource_of. destruct (getResource config n) as [d|] eqn:Hd; [|done].
  apply getResource_name in Hd. destruct (def_type d); [|done].
  intros [= <-]. simpl. by rewrite Hd.
Qed.

Lemma Resources_load_inr n w r w' :
  Resources_load config n quiet w = (inr r, w') →
  resource_of n = Some r ∧ (n ∉ unreachable w)
  ∧ entries w' = entries w ∧ unreachable w' = unreachable w
  ∧ n ∈ checkouts w' ∧ (∀ x, x ∈ checkouts w → x ∈ checkouts w').
Proof.
  unfold Resources_load, resource_of.
  destruct (getResource config n) as [d|] eqn:Hd; [|done].
  apply getResource_name in Hd. destruct (def_type d); [|done].
  unfold loadGitResource; simpl. rewrite Hd.
  destruct (decide (n ∈ unreachable w)); [done|].
  destruct (decide (n ∈ checkouts w)); intros [= <- <-]; simpl;
    split_and!; try done.
  - apply elem_of_union_l. by apply elem_of_singleton.
  - intros x Hx. by apply elem_of_union_r.
Qed.

Lemma Resources_load_again n w r :
  resource_of n = Some r → n ∉ unreachable w → n ∈ checkouts w →
  Resources_load config n quiet w = (inr r, extend [op_pull n] w).
Proof.
  unfold Resources_load, resource_of.
  destruct (getResource config n) as [d|] eqn:Hd; [|done].
  apply getResource_name in Hd. destruct (def_type d); [|done].
  intros [= <-] Hu Hc. unfold loadGitResource; simpl. rewrite Hd.
  by rewrite decide_False, decide_True.
Qed.

Lemma load_resources_inr names w rs w' :
  load_resources config quiet names w = (inr rs, w') →
  Forall2 (λ n r, resource_of n = Some r) names rs
  ∧ (∀ n, n ∈ names → (n ∉ unreachable w) ∧ n ∈ checkouts w')
  ∧ entries w' = entries w ∧ unreachable w' = unreachable w
  ∧ (∀ x, x ∈ checkouts w → x ∈ checkouts w').
Proof.
  revert w rs w'. induction names as [|n names IH]; intros w rs w'; simpl.
  - run_effect. intros [= <- <-]. split_and!; try done.
    intros n Hn. by apply elem_of_nil in Hn.
  - run_effect.
    destruct (Resources_load config n quiet w) as [[e|r] w1] eqn:Hr; [done|].
    apply Resources_load_inr in Hr as (Hof & Hu & He & Hun & Hc & Hmono).
    destruct (load_resources config quiet names w1) as [[e|rs'] w2] eqn:Hrs; [done|].
    apply IH in Hrs as (Hall & Hnames & He' & Hun' & Hmono').
    intros [= <- <-]. split_and!.
    + by constructor.
    + intros x [->|Hx]%elem_of_cons; [by auto|].
      destruct (Hnames _ Hx) as [? ?]. split; [congruence|done].
    + congruence.
    + congruence.
    + auto.
Qed.

Lemma load_resources_again names w rs :
  Forall2 (λ n r, resource_of n = Some r) names rs →
  (∀ n, n ∈ names → (n ∉ unreachable w) ∧ n ∈ checkouts w) →
  load_resources config quiet names w = (inr rs, extend (op_pull <$> names) w).
Proof.
  intros Hall. revert w. induction Hall as [|n r names rs Hr _ IH]; intros w Hin; simpl.
  - run_effect. unfold extend. rewrite app_nil_r. by destruct w.
  - destruct (Hin n) as [Hu Hc]; [by left|]. run_effect.
    rewrite (Resources_load_again n w r) by done.
    rewrite IH, extend_extend; [done|].
    intros x Hx. apply Hin. by right.
Qed.

(** One pass of the linking loop over a resource [Resources.load] returned. *)
Lemma link_resource_run collectionPath n r w :
  resource_of n = Some r →
  link_resource collectionPath r w =
  (inr (),
   extend (match entries w !! path_join collectionPath n with
           | Some _ => [op_remove (path_join collectionPath n)]
           | None => []
           end ++ [op_symlink (checkout_path n) (path_join collectionPath n)])
     (with_entries
        (<[path_join collectionPath n := Link (checkout_path n)]> (entries w)) w)).
Proof.
  intros [Hname Hpath]%resource_of_fields. unfold link_resource.
  rewrite Hname, Hpath. run_effect. unfold fs_exists, fs_remove, fs_symlink.
  destruct (entries w !! path_join collectionPath n) as [x|] eqn:Hx; simpl.
  - rewrite lookup_delete_eq. unfold log, with_entries, extend; simpl.
    by rewrite insert_delete_eq, <-app_assoc.
  - by rewrite Hx.
Qed.

(** The file-system entries after the linking loop has run over [names]. *)
Definition relinked (collectionPath : string) (m : gmap string Node)
    (names : list string) : gmap string Node :=
  foldl (λ m n, <[path_join collectionPath n := Link (checkout_path n)]> m) m names.

(** The operations of the linking loop over members that are linked. *)
Definition relink_ops (collectionPath : string) (names : list string) : list Op :=
  n ← names;
  [op_remove (path_join collectionPath n);
   op_symlink (checkout_path n) (path_join collectionPath n)].

Lemma lookup_relinked collectionPath names m n :
  n ∈ names ∨ m !! path_join collectionPath n = Some (Link (checkout_path n)) →
  relinked collectionPath m names !! path_join collectionPath n =
  Some (Link (checkout_path n)).
Proof.
  unfold relinked. revert m. induction names as [|a names IH]; intros m H; simpl.
  - destruct H as [H|H]; [by apply elem_of_nil in H|done].
  - apply IH. rewrite elem_of_cons in H.
    destruct (decide (a = n)) as [->|Hne].
    + right. apply lookup_insert_eq.
    + destruct H as [[?|?]|?]; [congruence|by left|right].
      rewrite lookup_insert_ne; [done|]. intros Heq. by apply path_sep_inj in Heq.
Qed.

Lemma lookup_relinked_other collectionPath names m p :
  (∀ n, p ≠ path_join collectionPath n) →
  relinked collectionPath m names !! p = m !! p.
Proof.
  intros Hp. unfold relinked. revert m.
  induction names as [|a names IH]; intros m; simpl; [done|].
  rewrite IH, lookup_insert_ne; [done|]. intros Heq. by apply (Hp a).
Qed.

Lemma link_resources_first collectionPath names rs w :
  Forall2 (λ n r, resource_of n = Some r) names rs →
  ∃ ops, link_resources collectionPath rs w =
         (inr (), extend ops (with_entries (relinked collectionPath (entries w) names) w)).
Proof.
  intros Hall. revert w. induction Hall as [|n r names rs Hr _ IH]; intros w; simpl.
  - exists []. run_effect. unfold extend, with_entries; simpl.
    rewrite app_nil_r. by destruct w.
  - run_effect. rewrite (link_resource_run collectionPath n r w Hr).
    match goal with
    | |- context [link_resources _ _ (extend ?o ?v)] =>
        destruct (IH (extend o v)) as [ops' Hops]; exists (o ++ ops')
    end.
    rewrite Hops. f_equal. unfold extend, with_entries; simpl; by rewrite ?app_assoc.
Qed.

Lemma link_resources_again collectionPath names rs w :
  Forall2 (λ n r, resource_of n = Some r) names rs →
  (∀ n, n ∈ names →
        entries w !! path_join collectionPath n = Some (Link (checkout_path n))) →
  link_resources collectionPath rs w =
  (inr (), extend (relink_ops collectionPath names) w).
Proof.
  intros Hall. revert w. induction Hall as [|n r names rs Hr _ IH]; intros w Hin; simpl.
  - run_effect. unfold extend. simpl. rewrite app_nil_r. by destruct w.
  - run_effect. rewrite (link_resource_run collectionPath n r w Hr).
    assert (entries w !! path_join collectionPath n = Some (Link (checkout_path n)))
      as Hn by (apply Hin; by left).
    rewrite Hn, insert_id by done.
    replace (with_entries (entries w) w) with w by by destruct w.
    rewrite IH, extend_extend; [done|].
    intros x Hx. simpl. apply Hin. by right.
Qed.

(** A second [load] of the same names, in the world the first one left:
    what it returns and what it does. *)
Lemma load_again resourceNames w r1 w1 :
  load localeCompare FS_RESOURCE_SYSTEM_NOTE config quiet resourceNames w = (inr r1, w1) →
  load localeCompare FS_RESOURCE_SYSTEM_NOTE config quiet resourceNames w1 =
  (inr r1,
   extend (op_makeDirectory (path r1)
             :: (op_pull <$> sorted_names localeCompare resourceNames)
             ++ relink_ops (path r1) (sorted_names localeCompare resourceNames)) w1).
Proof.
  unfold load, sorted_names.
  set (names := merge_sort (locale_le localeCompare) (array_from_set resourceNames)).
  set (cp := path_join (collectionsDirectory config) (getCollectionKey names)).
  case_decide as Hlen; [done|]. run_effect. intros H.
  unfold fs_makeDirectory in H at 1.
  assert (∀ n, cp ≠ path_join cp n) as Hcp.
  { intros n Heq. symmetry in Heq. by apply app_nonempty_ne in Heq. }
  set (wa := log (op_makeDirectory cp) (with_entries (<[cp:=Dir]> (entries w)) w)) in H.
  assert (match load_resources config quiet names wa with
          | (inl e, w') =>
              (inl e, w') : (CollectionError + CollectionResult) * World
          | (inr a, w') =>
              let (s0, w'0) := link_resources cp a w' in
              match s0 with
              | inl e => (inl e, w'0)
              | inr _ =>
                  (inr {| path := cp;
                          agentInstructions :=
                            String.concat (newline +:+ newline)
                              (headerBlock
                               :: (createCollectionInstructionBlock
                                     FS_RESOURCE_SYSTEM_NOTE <$> a)) |}, w'0)
              end
          end = (inr r1, w1)) as H'.
  { destruct (entries w !! cp) as [[|t]|]; by simpl in H. }
  clear H. destruct (load_resources config quiet names wa) as [[e|rs] wb] eqn:Hload; [done|].
  apply load_resources_inr in Hload as (Hall & Hnames & He & Hun & Hmono).
  destruct (link_resources_first cp names rs wb Hall) as [ops Hlink].
  rewrite Hlink in H'. injection H' as <- <-. simpl.
  set (w1 := extend ops (with_entries (relinked cp (entries wb) names) wb)).
  assert (entries w1 !! cp = Some Dir) as Hdir.
  { simpl. rewrite lookup_relinked_other, He by done. apply lookup_insert_eq. }
  unfold fs_makeDirectory. rewrite Hdir, insert_id by done.
  replace (log (op_makeDirectory cp) (with_entries (entries w1) w1))
    with (extend [op_makeDirectory cp] w1) by by destruct w1.
  rewrite (load_resources_again names _ rs Hall).
  2:{ intros n Hn. destruct (Hnames n Hn) as [Hu Hc]. simpl.
      split; [by rewrite Hun|done]. }
  rewrite (link_resources_again cp names rs _ Hall).
  2:{ intros n Hn. simpl. apply lookup_relinked. by left. }
  by rewrite !extend_extend.
Qed.

End Reload.

(** A configuration and a world to evaluate [load] in: one git resource,
    nothing on disk yet, collation by code units. *)
Definition example_localeCompare (a b : string) : Z :=
  match String.compare a b with Lt => (-1)%Z | Eq => 0%Z | Gt => 1%Z end.

Definition example_config : ConfigService :=
  {| resourcesDirectory := "/data/resources";
     collectionsDirectory := "/data/collections";
     resources :=
       [ {| def_name := "svelte"; def_type := git;
            def_url := "https://github.com/sveltejs/svelte.dev";
            def_branch := "main"; def_searchPath := Some "apps/svelte.dev";
            def_specialNotes := None |} ] |}.

Definition example_world : World :=
  {| entries := ∅; checkouts := ∅; unreachable := ∅; trace := [] |}.

Definition example_load : Eff CollectionError CollectionResult :=
  load example_localeCompare "note" example_config false ["svelte"].

(** C3 (counterexample).  Loading the collection of the one resource
    [svelte] twice in a row: both calls succeed with the same result, and the
    second one pulls the resource again, removes the member's symlink and
    creates it again.  Its sync operations are not zero. *)
Lemma second_load_syncs_again :
  let first := example_load example_world in
  let second := example_load first.2 in
  first.1 = second.1
  ∧ filter (λ op, is_sync op = true) (performed first.2 second.2) =
    [ op_pull "svelte";
      op_remove "/data/collections/svelte/svelte";
      op_symlink "/data/resources/svelte" "/data/collections/svelte/svelte" ]
  ∧ ¬ (filter (λ op, is_sync op = true) (performed first.2 second.2) = []).
Proof. cbv zeta. split_and!; by vm_compute. Qed.

(** C3 (amended).  When [Collections.load] has succeeded for a list of
    names, loading the same list again in the world it left succeeds with the
    same path and instructions and leaves the file system and the set of
    checkouts as they were; but it is not free: it performs
    [makeDirectory] on the collection path again, loads every member again
    (a pull of its checkout), and for every member removes the existing
    symlink and creates it anew. *)
Theorem second_load_same_result_full_resync
    localeCompare note config quiet (resourceNames : list string)
    (w w1 : World) (r1 : CollectionResult) :
  load localeCompare note config quiet resourceNames w = (inr r1, w1) →
  ∃ w2,
    load localeCompare note config quiet resourceNames w1 = (inr r1, w2)
    ∧ entries w2 = entries w1
    ∧ checkouts w2 = checkouts w1
    ∧ performed w1 w2 =
      op_makeDirectory (path r1)
        :: (op_pull <$> sorted_names localeCompare resourceNames)
        ++ relink_ops config (path r1) (sorted_names localeCompare resourceNames).
Proof.
  intros H. eexists. split; [exact (load_again _ _ _ _ _ _ _ _ H)|].
  by rewrite performed_extend.
Qed.

Lemma second_load_same_result_full_resync_witness :
  ∃ w2,
    example_load (example_load example_world).2 =
      (inr {| path := "/data/collections/svelte";
              agentInstructions :=
                String.concat (newline +:+ newline)
                  [ headerBlock;
                    String.concat newline
                      [ "## Resource: svelte"; "note"; "Path: ./svelte";
                        "Focus: ./svelte/apps/svelte.dev" ] ] |}, w2)
    ∧ entries w2 = entries (example_load example_world).2
    ∧ checkouts w2 = checkouts (example_load example_world).2
    ∧ performed (example_load example_world).2 w2 =
      op_makeDirectory "/data/collections/svelte"
        :: (op_pull <$> sorted_names example_localeCompare ["svelte"])
        ++ relink_ops example_config "/data/collections/svelte"
             (sorted_names example_localeCompare ["svelte"]).
Proof.
  apply (second_load_same_result_full_resync
           example_localeCompare "note" example_config false ["svelte"]
           example_world).
  vm_compute. reflexivity.
Defined.

End Collections.

(** ** Batch repository sync

    [cloneOrUpdate] and [cloneOrUpdateAllReposLocally] of the context
    service ([src/services/context.ts]); its earlier version
    [cloneOrUpdateReposLocally] inlines the same body.

    The batch is [Effect.all(operations, { concurrency: "unbounded" })]:
    every operation runs in a fiber of its own, and every operation awaits a
    [git] process it has spawned.  Which fiber runs next and when a process
    exits is not decided by the code, so the batch is run along a schedule,
    and the theorems hold for every schedule. *)
Module Sync.

Record Repo := {
  name : string;
  url : string;
  branch : option string
}.

Record ContextError := {
  message : string;
  cause : option Z
}.

#[global] Instance ContextError_eq_dec : EqDecision ContextError.
Proof. solve_decision. Defined.

(** The command line of a [git] process. *)
Inductive Op :=
| op_clone (repoDir url branch : string)
| op_pull (repoDir branch : string).

#[global] Instance Op_eq_dec : EqDecision Op.
Proof. solve_decision. Defined.

(** [directories] is the set of directories on disk; [processes] lists the
    [git] processes spawned so far, oldest first, each with its exit code
    once it has exited.  A process is known by its position in the list. *)
Record World := {
  directories : gset string;
  processes : list (Op * option Z)
}.

(** The exit codes are the environment's: [git pid op] is the code with
    which process [pid], spawned with the command line [op], exits. *)
Definition Git : Type := nat → Op → Z.

Definition path_join (a b : string) : string := a +:+ "/" +:+ b.

(** A fiber of the batch: not started yet, suspended at
    [await proc.exited], or finished with the result of its operation. *)
Inductive Fiber :=
| forked (repo : Repo)
| awaiting (op : Op) (pid : nat)
| finished (result : ContextError + unit).

(** [Bun.spawn([...])]. *)
Definition spawn (op : Op) (w : World) : nat * World :=
  (length (processes w),
   {| directories := directories w; processes := processes w ++ [(op, None)] |}).

(** [cloneRepo] up to [await proc.exited]:
    [git clone --branch branch url repoDir] is spawned. *)
Definition cloneRepo (repoDir url branch : string) (w : World) : Fiber * World :=
  let '(pid, w') := spawn (op_clone repoDir url branch) w in
  (awaiting (op_clone repoDir url branch) pid, w').

(** [pullRepo] up to [await proc.exited]: [git pull origin branch] is
    spawned in [repoDir]. *)
Definition pullRepo (repoDir branch : string) (w : World) : Fiber * World :=
  let '(pid, w') := spawn (op_pull repoDir branch) w in
  (awaiting (op_pull repoDir branch) pid, w').

Definition failure (op : Op) : string :=
  match op with
  | op_clone _ _ _ => "Failed to clone repo"
  | op_pull _ _ => "Failed to pull repo"
  end.

(** [cloneRepo] and [pullRepo] after [await proc.exited]: a non-zero exit
    code is thrown and caught as a [ContextError]. *)
Definition settle (op : Op) (exitCode : Z) : ContextError + unit :=
  if decide (exitCode ≠ 0%Z) then
    inl {| message := failure op; cause := Some exitCode |}
  else inr ().

(** [directoryExists]: [fs.existsSync(dir) && fs.statSync(dir).isDirectory()]. *)
Definition directoryExists (dir : string) (w : World) : bool :=
  bool_decide (dir ∈ directories w).


(** [cloneOrUpdate({ repo, reposDirectory })] up to its [await];
    [Effect.log] leaves the world alone. *)
Definition cloneOrUpdate (repo : Repo) (reposDirectory : string) (w : World)
  : Fiber * World :=
  let repoDir := path_join reposDirectory (name repo) in
  let branch := default "main" (branch repo) in
  if directoryExists repoDir w then pullRepo repoDir branch w
  else cloneRepo repoDir (url repo) branch w.

(** A process exits, with the code the environment gives it.  A clone that
    exits with 0 has made its directory; the code never kills a process, so
    a process exits whatever has become of the fiber that spawned it. *)
Definition process_exits (git : Git) (pid : nat) (w : World) : World :=
  match processes w !! pid with
  | Some (op, None) =>
      let exitCode := git pid op in
      {| directories :=
           match op with
           | op_clone repoDir _ _ =>
               if decide (exitCode = 0%Z) then {[repoDir]} ∪ directories w
               else directories w
           | op_pull _ _ => directories w
           end;
         processes := <[pid := (op, Some exitCode)]> (processes w) |}
  | _ => w
  end.

(** *** [Effect.all] with unbounded concurrency *)

(** The fibers of the batch and what [Effect.all] has resolved to, if it
    has. *)
Record Batch := {
  fibers : list Fiber;
  result : option (ContextError + list unit)
}.

(** The array of results, once every fiber has succeeded. *)
Definition all_done (fs : list Fiber) : option (list unit) :=
  mapM (λ f, match f with finished (inr u) => Some u | _ => None end) fs.

(** [Effect.all(operations, ...)] forks one fiber per operation. *)
Definition fork (repos : list Repo) : Batch :=
  {| fibers := forked <$> repos; result := inr <$> all_done (forked <$> repos) |}.

(** Fiber [i] runs until it suspends or finishes.  In the default mode of
    [Effect.all] the first failure is the result of the batch and the other
    fibers are interrupted: no fiber runs once the batch has a result. *)
Definition resume (reposDirectory : string) (i : nat) (b : Batch) (w : World)
  : Batch * World :=
  match result b with
  | Some _ => (b, w)
  | None =>
      match fibers b !! i with
      | Some (forked repo) =>
          let '(f, w') := cloneOrUpdate repo reposDirectory w in
          ({| fibers := <[i := f]> (fibers b); result := None |}, w')
      | Some (awaiting op pid) =>
          match processes w !! pid with
          | Some (_, Some exitCode) =>
              let r := settle op exitCode in
              let fs := <[i := finished r]> (fibers b) in
              ({| fibers := fs;
                  result := match r with
                            | inl e => Some (inl e)
                            | inr _ => inr <$> all_done fs
                            end |}, w)
          | _ => (b, w)
          end
      | _ => (b, w)
      end
  end.

(** What happens next: a fiber runs, or a process exits. *)
Inductive Action :=
| act_resume (i : nat)
| act_exit (pid : nat).

Definition step (git : Git) (reposDirectory : string) (s : Batch * World)
    (a : Action) : Batch * World :=
  match a with
  | act_resume i => resume reposDirectory i s.1 s.2
  | act_exit pid => (s.1, process_exits git pid s.2)
  end.

(** [cloneOrUpdateAllReposLocally()], for the repositories
    [config.getAllRepos()] answers with, run along [schedule]. *)
Definition cloneOrUpdateAllReposLocally (git : Git) (repos : list Repo)
    (reposDirectory : string) (schedule : list Action) (w : World)
  : Batch * World :=
  foldl (step git reposDirectory) (fork repos, w) schedule.


(** The schedule in which every fiber starts, in the order of the array,
    before any process exits, and then the processes exit, each followed by
    its fiber; [pid] is the number of the first process the batch spawns. *)
Definition eager_schedule (pid n : nat) : list Action :=
  (act_resume <$> seq 0 n)
  ++ flat_map (λ i, [act_exit (pid + i); act_resume i]) (seq 0 n).

(** The two commands [cloneOrUpdate] has for a repository. *)
Definition pull_of (reposDirectory : string) (repo : Repo) : Op :=
  op_pull (path_join reposDirectory (name repo)) (default "main" (branch repo)).

Definition clone_of (reposDirectory : string) (repo : Repo) : Op :=
  op_clone (path_join reposDirectory (name repo)) (url repo)
    (default "main" (branch repo)).

Definition command (reposDirectory : string) (repo : Repo) (w : World) : Op :=
  if directoryExists (path_join reposDirectory (name repo)) w
  then pull_of reposDirectory repo else clone_of reposDirectory repo.

(** *** What every schedule keeps *)

(** [op] is what [cloneOrUpdate] runs for [repo]: a clone, or a pull in a
    directory that exists. *)
Definition runs (reposDirectory : string) (repo : Repo) (op : Op) (w : World) : Prop :=
  op = clone_of reposDirectory repo
  ∨ (op = pull_of reposDirectory repo
     ∧ path_join reposDirectory (name repo) ∈ directories w).

(** The state of the fiber of [repo], for a batch whose first process is
    number [p0]. *)
Definition fiber_ok (reposDirectory : string) (p0 : nat) (w : World)
    (repo : Repo) (f : Fiber) : Prop :=
  match f with
  | forked repo' => repo' = repo
  | awaiting op pid =>
      runs reposDirectory repo op w ∧ p0 ≤ pid
      ∧ ∃ c, processes w !! pid = Some (op, c)
  | finished r =>
      ∃ op pid exitCode,
        runs reposDirectory repo op w ∧ p0 ≤ pid
        ∧ processes w !! pid = Some (op, Some exitCode)
        ∧ r = settle op exitCode
  end.

Record inv (git : Git) (repos : list Repo) (reposDirectory : string) (p0 : nat)
    (b : Batch) (w : World) : Prop := {
  inv_fibers : Forall2 (fiber_ok reposDirectory p0 w) repos (fibers b);
  inv_spawned : p0 ≤ length (processes w);
  inv_codes : ∀ pid op exitCode,
    p0 ≤ pid → processes w !! pid = Some (op, Some exitCode) →
    exitCode = git pid op
    ∧ ∀ repoDir u br, op = op_clone repoDir u br → exitCode = 0%Z →
                      repoDir ∈ directories w;
  inv_result :
    match result b with
    | Some (inl e) => ∃ i, fibers b !! i = Some (finished (inl e))
    | Some (inr results) => all_done (fibers b) = Some results
    | None => True
    end
}.

(** The world only grows: directories stay, and a process keeps its
    command line and, once it has exited, its exit code. *)
Definition extends (w w' : World) : Prop :=
  directories w ⊆ directories w'
  ∧ length (processes w) ≤ length (processes w')
  ∧ ∀ pid op c, processes w !! pid = Some (op, c) →
      ∃ c', processes w' !! pid = Some (op, c') ∧ (is_Some c → c' = c).

Lemma extends_refl w : extends w w.
Proof. split_and!; [done..|]. intros pid op c H. by exists c. Qed.

Lemma spawn_extends op w : extends w (spawn op w).2.
Proof.
  unfold spawn, extends; simpl. split_and!; [done|rewrite length_app; lia|].
  intros pid op' c H. exists c. split; [|done].
  by apply lookup_app_l_Some.
Qed.

Lemma process_exits_extends git pid w : extends w (process_exits git pid w).
Proof.
  unfold process_exits.
  destruct (processes w !! pid) as [[op [c|]]|] eqn:Hpid; try apply extends_refl.
  split_and!; simpl.
  - destruct op; [case_decide|]; set_solver.
  - by rewrite length_insert.
  - intros pid' op' c' H. destruct (decide (pid' = pid)) as [->|Hne].
    + rewrite Hpid in H. injection H as <- <-.
      eexists. split; [|by intros [? [=]]].
      apply list_lookup_insert_eq. by eapply lookup_lt_Some.
    + exists c'. by rewrite list_lookup_insert_ne.
Qed.

Lemma runs_extends reposDirectory repo op w w' :
  extends w w' → runs reposDirectory repo op w → runs reposDirectory repo op w'.
Proof.
  intros (Hdirs & _ & _) [->|[-> Hin]]; [by left|]. right. split; [done|].
  by apply Hdirs.
Qed.

Lemma fiber_ok_extends reposDirectory p0 w w' repo f :
  extends w w' → fiber_ok reposDirectory p0 w repo f →
  fiber_ok reposDirectory p0 w' repo f.
Proof.
  intros Hext. pose proof Hext as (_ & _ & Hprocs). destruct f as [repo'|op pid|r]; simpl.
  - done.
  - intros (Hruns & Hpid & c & Hc). split_and!; [by eapply runs_extends|done|].
    destruct (Hprocs _ _ _ Hc) as (c' & Hc' & _). by exists c'.
  - intros (op & pid & exitCode & Hruns & Hpid & Hc & ->).
    exists op, pid, exitCode. split_and!; [by eapply runs_extends|done| |done].
    destruct (Hprocs _ _ _ Hc) as (c' & Hc' & Heq). by rewrite Hc', Heq.
Qed.

Lemma fibers_insert (P : Repo → Fiber → Prop) repos fs i repo f :
  Forall2 P repos fs → repos !! i = Some repo → P repo f →
  Forall2 P repos (<[i := f]> fs).
Proof.
  intros Hall Hi Hf. rewrite <-(list_insert_id repos i repo) by done.
  by apply Forall2_insert.
Qed.

Lemma cloneOrUpdate_run repo reposDirectory w :
  cloneOrUpdate repo reposDirectory w =
  (awaiting (command reposDirectory repo w) (length (processes w)),
   {| directories := directories w;
      processes := processes w ++ [(command reposDirectory repo w, None)] |}).
Proof.
  unfold cloneOrUpdate, command, pullRepo, cloneRepo, spawn. cbv zeta.
  by destruct (directoryExists _ w).
Qed.

Lemma command_runs reposDirectory repo w w' :
  directories w ⊆ directories w' →
  runs reposDirectory repo (command reposDirectory repo w) w'.
Proof.
  intros Hdirs. unfold command, directoryExists. case_bool_decide; [|by left].
  right. split; [done|]. by apply Hdirs.
Qed.

Lemma inv_fork git repos reposDirectory w :
  inv git repos reposDirectory (length (processes w)) (fork repos) w.
Proof.
  split; simpl.
  - apply Forall2_fmap_r, Forall_Forall2_diag, Forall_forall. by intros repo _.
  - done.
  - intros pid op exitCode Hpid Hsome. apply lookup_lt_Some in Hsome. lia.
  - by destruct (all_done (forked <$> repos)).
Qed.

Lemma inv_step git repos reposDirectory p0 b w a :
  inv git repos reposDirectory p0 b w →
  inv git repos reposDirectory p0
    (step git reposDirectory (b, w) a).1 (step git reposDirectory (b, w) a).2.
Proof.
  intros Hinv. pose proof Hinv as [Hfibers Hspawned Hcodes Hresult].
  destruct a as [i|pid]; simpl.
  - unfold resume. destruct (result b) as [res|] eqn:Hres; [done|].
    destruct (fibers b !! i) as [[repo'|op pid|r]|] eqn:Hi; [| |done..].
    + destruct (Forall2_lookup_r _ _ _ _ _ Hfibers Hi) as (repo & Hrepo & Hok).
      simpl in Hok. subst repo'. rewrite cloneOrUpdate_run. simpl.
      set (w' := {| directories := directories w;
                    processes := processes w ++ [(command reposDirectory repo w, None)] |}).
      assert (extends w w') as Hext
        by apply (spawn_extends (command reposDirectory repo w) w).
      split; simpl.
      * apply (fibers_insert _ _ _ _ repo); [|done|].
        -- eapply Forall2_impl; [exact Hfibers|].
           intros ? ?. by apply fiber_ok_extends.
        -- split_and!; [by apply command_runs|done|].
           exists None. unfold w'; simpl. by rewrite lookup_app_r, Nat.sub_diag.
      * unfold w'; simpl. rewrite length_app. lia.
      * unfold w'; simpl. intros pid op exitCode Hpid Hsome.
        apply lookup_app_Some in Hsome as [Hsome|[_ Hsome]]; [by eapply Hcodes|].
        apply list_lookup_singleton_Some in Hsome as [_ [=]].
      * done.
    + destruct (Forall2_lookup_r _ _ _ _ _ Hfibers Hi) as (repo & Hrepo & Hok).
      simpl in Hok. destruct Hok as (Hruns & Hpid & c & Hc).
      rewrite Hc. destruct c as [exitCode|]; [|done].
      split; simpl.
      * apply (fibers_insert _ _ _ _ repo); [done..|].
        by exists op, pid, exitCode.
      * done.
      * done.
      * destruct (settle op exitCode) as [e|u] eqn:Hsettle.
        -- exists i. apply list_lookup_insert_eq. by eapply lookup_lt_Some.
        -- by destruct (all_done _).
  - pose proof (process_exits_extends git pid w) as Hext.
    split; simpl.
    + eapply Forall2_impl; [exact Hfibers|]. intros ? ?. by apply fiber_ok_extends.
    + destruct Hext as (_ & Hlen & _). lia.
    + intros pid' op exitCode Hpid' Hsome. unfold process_exits in *.
      destruct (processes w !! pid) as [[op0 [c|]]|] eqn:Hpid;
        [by eapply Hcodes| |by eapply Hcodes].
      simpl in *. destruct (decide (pid' = pid)) as [->|Hne].
      * rewrite list_lookup_insert_eq in Hsome by (by eapply lookup_lt_Some).
        injection Hsome as <- <-. split; [done|].
        intros repoDir u br -> Hzero. rewrite decide_True by done.
        by apply elem_of_union_l, elem_of_singleton.
      * rewrite list_lookup_insert_ne in Hsome by done.
        destruct (Hcodes _ _ _ Hpid' Hsome) as [Hcode Hdir]. split; [done|].
        intros repoDir u br Hop Hzero. specialize (Hdir _ _ _ Hop Hzero).
        destruct op0; [case_decide|]; [by apply elem_of_union_r|done..].
    + done.
Qed.

Lemma inv_run git repos reposDirectory p0 schedule b w :
  inv git repos reposDirectory p0 b w →
  inv git repos reposDirectory p0
    (foldl (step git reposDirectory) (b, w) schedule).1
    (foldl (step git reposDirectory) (b, w) schedule).2.
Proof.
  revert b w. induction schedule as [|a schedule IH]; intros b w Hinv; [done|].
  simpl. destruct (step git reposDirectory (b, w) a) as [b1 w1] eqn:Hstep.
  apply IH. pose proof (inv_step _ _ _ _ _ _ a Hinv) as H. by rewrite Hstep in H.
Qed.

(** *** The result of the batch *)

Lemma settle_inr op exitCode u : settle op exitCode = inr u → exitCode = 0%Z.
Proof.
  unfold settle. case_decide as H; [done|]. intros _.
  destruct (decide (exitCode = 0%Z)); [done|by destruct H].
Qed.

Lemma settle_inl op exitCode e :
  settle op exitCode = inl e →
  exitCode ≠ 0%Z ∧ e = {| message := failure op; cause := Some exitCode |}.
Proof. unfold settle. case_decide; [|done]. by intros [= <-]. Qed.

Lemma all_done_Some fs results :
  all_done fs = Some results →
  Forall2 (λ f u, f = finished (inr u)) fs results.
Proof.
  unfold all_done. rewrite mapM_Some. intros H. eapply Forall2_impl; [exact H|].
  intros [repo|op pid|[e|u]] u'; simpl; try done. by intros [= ->].
Qed.

Lemma all_done_unfinished fs i f :
  fs !! i = Some f → (∀ u, f ≠ finished (inr u)) → all_done fs = None.
Proof.
  intros Hi Hf. destruct (all_done fs) as [results|] eqn:Hdone; [|done].
  apply all_done_Some in Hdone.
  destruct (Forall2_lookup_l _ _ _ _ _ Hdone Hi) as (u & _ & ->). by destruct (Hf u).
Qed.

Lemma units (results : list unit) : results = replicate (length results) ().
Proof. induction results as [|[] results IH]; [done|]. simpl. by rewrite <-IH. Qed.

(** A batch that has succeeded: every repository has a git process of the
    batch that exited with 0. *)
Lemma batch_success git repos reposDirectory schedule w results :
  let final := cloneOrUpdateAllReposLocally git repos reposDirectory schedule w in
  result final.1 = Some (inr results) →
  results = replicate (length repos) ()
  ∧ ∀ repo, repo ∈ repos →
      path_join reposDirectory (name repo) ∈ directories final.2
      ∧ ∃ pid op, runs reposDirectory repo op final.2
                  ∧ length (processes w) ≤ pid
                  ∧ processes final.2 !! pid = Some (op, Some 0%Z)
                  ∧ git pid op = 0%Z.
Proof.
  cbv zeta. unfold cloneOrUpdateAllReposLocally.
  pose proof (inv_run git repos reposDirectory _ schedule _ _
                (inv_fork git repos reposDirectory w)) as [Hfibers _ Hcodes Hresult].
  destruct (foldl _ _ schedule) as [b w']. simpl in *.
  intros Hres. rewrite Hres in Hresult. apply all_done_Some in Hresult. split.
  - rewrite (units results). f_equal.
    apply Forall2_length in Hfibers, Hresult. congruence.
  - intros repo [i Hi]%list_elem_of_lookup_1.
    destruct (Forall2_lookup_l _ _ _ _ _ Hfibers Hi) as (f & Hf & Hok).
    destruct (Forall2_lookup_l _ _ _ _ _ Hresult Hf) as (u & _ & ->).
    destruct Hok as (op & pid & exitCode & Hruns & Hpid & Hproc & Hsettle).
    symmetry in Hsettle. apply settle_inr in Hsettle as ->.
    destruct (Hcodes _ _ _ Hpid Hproc) as [Hcode Hdir]. split; [|by exists pid, op].
    destruct Hruns as [->|[_ Hin]]; [|done]. by eapply Hdir.
Qed.

(** A batch that has failed: its error is that of a repository of the
    batch whose git process exited with another code than 0. *)
Lemma batch_failure git repos reposDirectory schedule w e :
  let final := cloneOrUpdateAllReposLocally git repos reposDirectory schedule w in
  result final.1 = Some (inl e) →
  ∃ repo pid op,
    repo ∈ repos ∧ runs reposDirectory repo op final.2
    ∧ length (processes w) ≤ pid
    ∧ processes final.2 !! pid = Some (op, Some (git pid op))
    ∧ git pid op ≠ 0%Z
    ∧ e = {| message := failure op; cause := Some (git pid op) |}.
Proof.
  cbv zeta. unfold cloneOrUpdateAllReposLocally.
  pose proof (inv_run git repos reposDirectory _ schedule _ _
                (inv_fork git repos reposDirectory w)) as [Hfibers _ Hcodes Hresult].
  destruct (foldl _ _ schedule) as [b w']. simpl in *.
  intros Hres. rewrite Hres in Hresult. destruct Hresult as [i Hf].
  destruct (Forall2_lookup_r _ _ _ _ _ Hfibers Hf) as (repo & Hi & Hok).
  destruct Hok as (op & pid & exitCode & Hruns & Hpid & Hproc & Hsettle).
  symmetry in Hsettle. apply settle_inl in Hsettle as [Hne ->].
  destruct (Hcodes _ _ _ Hpid Hproc) as [-> _].
  exists repo, pid, op. split_and!; try done. by eapply list_elem_of_lookup_2.
Qed.

(** *** The eager schedule ends the batch *)

Lemma ended_stays git reposDirectory schedule b w r :
  result b = Some r →
  result (foldl (step git reposDirectory) (b, w) schedule).1 = Some r.
Proof.
  revert w. induction schedule as [|a schedule IH]; intros w Hr; [done|].
  simpl. destruct a as [i|pid]; simpl.
  - unfold resume. rewrite Hr. by apply IH.
  - by apply IH.
Qed.

Lemma start_all git reposDirectory pre todo w :
  foldl (step git reposDirectory)
    ({| fibers := pre ++ (forked <$> todo); result := None |}, w)
    (act_resume <$> seq (length pre) (length todo)) =
  ({| fibers := pre ++ imap (λ j repo, awaiting (command reposDirectory repo w)
                                         (length (processes w) + j)) todo;
      result := None |},
   {| directories := directories w;
      processes := processes w
                   ++ ((λ repo, (command reposDirectory repo w, None)) <$> todo) |}).
Proof.
  revert pre w. induction todo as [|repo todo IH]; intros pre w.
  - simpl. rewrite !app_nil_r. by destruct w.
  - cbn [length seq fmap list_fmap foldl step fst snd]. unfold resume.
    cbn [result fibers]. rewrite list_lookup_middle by done.
    rewrite cloneOrUpdate_run.
    set (f := awaiting (command reposDirectory repo w) (length (processes w))).
    set (w1 := {| directories := directories w;
                  processes := processes w ++ [(command reposDirectory repo w, None)] |}).
    assert (<[length pre := f]> (pre ++ forked repo :: (forked <$> todo)) =
            (pre ++ [f]) ++ (forked <$> todo)) as ->.
    { rewrite insert_app_r_alt, Nat.sub_diag by done. simpl. by rewrite <-app_assoc. }
    assert (S (length pre) = length (pre ++ [f])) as ->
      by (rewrite length_app; simpl; lia).
    rewrite (IH (pre ++ [f]) w1).
    assert (∀ r, command reposDirectory r w1 = command reposDirectory r w) as Hcmd
      by done.
    f_equal; [f_equal|f_equal].
    + rewrite <-app_assoc. f_equal. rewrite imap_cons. cbn [app]. f_equal.
      * unfold f. by rewrite Nat.add_0_r.
      * apply imap_ext. intros j r _. simpl. rewrite Hcmd. f_equal.
        rewrite length_app. simpl. lia.
    + unfold w1. cbn [processes]. by rewrite <-app_assoc.
Qed.

Lemma finish_all git reposDirectory p rest :
  ∀ pre w b,
  fibers b = pre ++ rest →
  result b = inr <$> all_done (fibers b) →
  Forall (λ f, ∃ u, f = finished (inr u)) pre →
  (∀ j f, rest !! j = Some f →
     ∃ op c, f = awaiting op (p + length pre + j)
             ∧ processes w !! (p + length pre + j) = Some (op, c)) →
  is_Some (result
    (foldl (step git reposDirectory) (b, w)
       (flat_map (λ i, [act_exit (p + i); act_resume i])
          (seq (length pre) (length rest)))).1).
Proof.
  induction rest as [|f rest IH]; intros pre w b Hfibers Hresult Hpre Hrest.
  - simpl. rewrite Hresult, Hfibers, app_nil_r.
    assert (is_Some (all_done pre)) as [results ->]; [|by eexists].
    unfold all_done. apply mapM_is_Some. eapply Forall_impl; [exact Hpre|].
    intros ? [u ->]. by eexists.
  - destruct (Hrest 0 f eq_refl) as (op & c & Hf & Hproc).
    rewrite Nat.add_0_r in Hproc, Hf. subst f.
    cbn [length seq flat_map app foldl step fst snd].
    set (pid := p + length pre) in *.
    set (w1 := process_exits git pid w).
    assert (∃ exitCode, processes w1 !! pid = Some (op, Some exitCode)) as [exitCode Hexit].
    { unfold w1, process_exits. rewrite Hproc. destruct c as [exitCode|].
      - exists exitCode. by rewrite Hproc.
      - eexists. simpl. apply list_lookup_insert_eq. by eapply lookup_lt_Some. }
    assert (result b = None) as Hnone.
    { rewrite Hresult, (all_done_unfinished _ (length pre) (awaiting op pid));
        [done| |done].
      rewrite Hfibers. by apply list_lookup_middle. }
    unfold resume at 1. rewrite Hnone, Hfibers.
    rewrite list_lookup_middle by done. rewrite Hexit.
    set (fs := <[length pre := finished (settle op exitCode)]>
                 (pre ++ awaiting op pid :: rest)).
    assert (fs = (pre ++ [finished (settle op exitCode)]) ++ rest) as Hfs.
    { unfold fs. rewrite insert_app_r_alt, Nat.sub_diag by done. simpl.
      by rewrite <-app_assoc. }
    destruct (settle op exitCode) as [e|[]] eqn:Hsettle.
    + rewrite (ended_stays _ _ _ _ _ (inl e)); [by eexists|done].
    + assert (S (length pre) = length (pre ++ [finished (inr ())])) as ->
        by (rewrite length_app; simpl; lia).
      apply IH.
      * done.
      * done.
      * apply Forall_app. split; [done|]. apply Forall_singleton. by exists ().
      * intros j f' Hj. destruct (Hrest (S j) f' Hj) as (op' & c' & -> & Hproc').
        rewrite length_app. simpl.
        replace (p + (length pre + 1) + j) with (p + length pre + S j) by lia.
        destruct (process_exits_extends git pid w) as (_ & _ & Hkeep).
        destruct (Hkeep _ _ _ Hproc') as (c'' & Hc'' & _).
        exists op', c''. done.
Qed.

(** With the eager schedule the batch ends, whatever the exit codes. *)
Lemma eager_schedule_ends git repos reposDirectory w :
  is_Some (result
    (cloneOrUpdateAllReposLocally git repos reposDirectory
       (eager_schedule (length (processes w)) (length repos)) w).1).
Proof.
  unfold cloneOrUpdateAllReposLocally, eager_schedule. rewrite foldl_app.
  destruct repos as [|repo repos]; [by eexists|].
  assert (fork (repo :: repos) =
          {| fibers := forked <$> repo :: repos; result := None |}) as ->.
  { unfold fork. by rewrite (all_done_unfinished _ 0 (forked repo)). }
  pose proof (start_all git reposDirectory [] (repo :: repos) w) as Hstart.
  change (length (@nil Fiber)) with 0 in Hstart. rewrite app_nil_l in Hstart.
  rewrite Hstart. clear Hstart. rewrite app_nil_l.
  rewrite <-(length_imap (λ j r, awaiting (command reposDirectory r w)
                                    (length (processes w) + j)) (repo :: repos)).
  apply (finish_all git reposDirectory (length (processes w)) _ []).
  - done.
  - by rewrite (all_done_unfinished _ 0
                  (awaiting (command reposDirectory repo w) (length (processes w) + 0))).
  - constructor.
  - intros j f Hj. rewrite list_lookup_imap in Hj.
    destruct ((repo :: repos) !! j) as [r|] eqn:Hr; [|done].
    injection Hj as <-. exists (command reposDirectory r w), None.
    cbn [length processes]. rewrite Nat.add_0_r. split; [done|].
    rewrite lookup_app_r by lia.
    replace (length (processes w) + j - length (processes w)) with j by lia.
    by rewrite list_lookup_fmap, Hr.
Qed.

(** *** The claim about the batch *)

Definition example_good : Repo :=
  {| name := "effect"; url := "https://github.com/Effect-TS/effect";
     branch := Some "main" |}.

Definition example_bad : Repo :=
  {| name := "opencode"; url := "https://github.com/sst/opencode";
     branch := Some "production" |}.

(** Nothing is cloned yet and no process has been spawned. *)
Definition example_world : World :=
  {| directories := {["/repos"]}; processes := [] |}.



(** When two repositories fail, the error of the batch is that of the
    process that exits first: the same batch in the same world fails with
    the one error or the other, depending on the schedule. *)
Lemma first_failure_depends_on_the_schedule :
  let git : Git :=
    λ _ op, match op with
            | op_clone repoDir _ _ | op_pull repoDir _ =>
                if decide (repoDir = "/repos/opencode") then 128%Z else 1%Z
            end in
  result (cloneOrUpdateAllReposLocally git [example_bad; example_good] "/repos"
            [act_resume 0; act_resume 1; act_exit 0; act_resume 0]
            example_world).1 =
    Some (inl {| message := "Failed to clone repo"; cause := Some 128%Z |})
  ∧ result (cloneOrUpdateAllReposLocally git [example_bad; example_good] "/repos"
              [act_resume 0; act_resume 1; act_exit 1; act_resume 1]
              example_world).1 =
    Some (inl {| message := "Failed to clone repo"; cause := Some 1%Z |}).
Proof. by vm_compute. Qed.



End Sync.

(** ** Cancellation

    [requestCancel] and the read loop of [sendMessage] in the chat page
    ([apps/chat-web/src/routes/+page.svelte]), and [requestCancel],
    [confirmCancel] and [handleChunkUpdate] of the terminal client
    ([apps/cli/src/tui/context/messages-context.tsx]). *)
Module Cancel.

Import Aggregator.

(** [CancelState = 'none' | 'pending']. *)
Inductive CancelState := none | pending.

#[global] Instance CancelState_eq_dec : EqDecision CancelState.
Proof. solve_decision. Defined.

(** *** The chat page *)
Module Page.

(** A message of the session as the page shows it (the [nanoid] ids are left
    out). *)
Inductive Message :=
| user_message (content : string) (resources : list string)
| assistant_message (chunks : list ChunkObj)
| system_message (content : string).



(** The page's streaming state.  [abortController] is [None] for [null] and
    otherwise holds the [aborted] flag of the controller's signal. *)
Record PageState := {
  isStreaming : bool;
  cancelState : CancelState;
  currentChunks : list ChunkObj;
  abortController : option bool;
  messages : list Message
}.

(** [requestCancel()]. *)
Definition requestCancel (s : PageState) : PageState :=
  if decide (cancelState s = none) then
    {| isStreaming := isStreaming s; cancelState := pending;
       currentChunks := currentChunks s; abortController := abortController s;
       messages := messages s |}
  else
    {| isStreaming := isStreaming s; cancelState := cancelState s;
       currentChunks := currentChunks s;
       abortController := (λ _, true) <$> abortController s;
       messages := messages s |}.











End Page.

(** *** The terminal client *)
Module Tui.

(** [AssistantContent] and [Message] of [tui/types.ts]; a user message's
    [InputState] is kept as its text. *)
Inductive AssistantContent :=
| content_text (content : string)
| content_chunks (chunks : list BtcaChunk).

Inductive Message :=
| user_message (content : string)
| assistant_message (content : AssistantContent) (canceled : bool)
| system_message (content : string).

(** The signals of [MessagesProvider], and [requestAborted]: whether the
    request [services.askQuestion] is running has been cancelled. *)
Record TuiState := {
  messages : list Message;
  isStreaming : bool;
  cancelState : CancelState;
  requestAborted : bool
}.

Definition set_messages (f : list Message → list Message) (s : TuiState) : TuiState :=
  {| messages := f (messages s); isStreaming := isStreaming s;
     cancelState := cancelState s; requestAborted := requestAborted s |}.


(** The loops [for (let i = newHistory.length - 1; i >= 0; i--)] change the
    last message that passes a test and stop: [update_last test f] goes
    through the reversed history. *)
Fixpoint update_first (test : Message → bool) (f : Message → Message)
    (reversed : list Message) : list Message :=
  match reversed with
  | [] => []
  | m :: rest => if test m then f m :: rest else m :: update_first test f rest
  end.

Definition update_last (test : Message → bool) (f : Message → Message)
    (history : list Message) : list Message :=
  reverse (update_first test f (reverse history)).

Definition has_chunks (m : Message) : bool :=
  match m with
  | assistant_message (content_chunks _) _ => true
  | _ => false
  end.


(** The new message is built as [{ role, content }]: a [canceled] flag it
    had is not copied. *)
Definition addChunkToLastAssistant (chunk : BtcaChunk) : TuiState → TuiState :=
  set_messages (update_last has_chunks (λ m,
    match m with
    | assistant_message (content_chunks chunks) _ =>
        assistant_message (content_chunks (chunks ++ [chunk])) false
    | _ => m
    end)).

(** The typed merge of [updateChunkInLastAssistant]. *)
Definition merge_update (id : string) (updates : ChunkObj) (c : BtcaChunk) : BtcaChunk :=
  if decide (chunk_id c ≠ id) then c
  else match c with
       | TextChunk cid _ =>
           match o_text updates with Some t => TextChunk cid t | None => c end
       | ReasoningChunk cid _ =>
           match o_text updates with Some t => ReasoningChunk cid t | None => c end
       | ToolChunk cid toolName _ =>
           match o_state updates with Some st => ToolChunk cid toolName st | None => c end
       | FileChunk _ _ => c
       end.

Definition updateChunkInLastAssistant (id : string) (updates : ChunkObj)
  : TuiState → TuiState :=
  set_messages (update_last has_chunks (λ m,
    match m with
    | assistant_message (content_chunks chunks) _ =>
        assistant_message (content_chunks (merge_update id updates <$> chunks)) false
    | _ => m
    end)).


(** [handleChunkUpdate(update)]. *)
Definition handleChunkUpdate (u : ChunkUpdate) : TuiState → TuiState :=
  match u with
  | add chunk => addChunkToLastAssistant chunk
  | update id chunk => updateChunkInLastAssistant id chunk
  end.

(** [requestCancel()]. *)
Definition requestCancel (s : TuiState) : TuiState :=
  if decide (cancelState s = none) then
    {| messages := messages s; isStreaming := isStreaming s;
       cancelState := pending; requestAborted := requestAborted s |}
  else s.




(** In the terminal client a repeated request only keeps the cancellation
    armed; the second stage is [confirmCancel]. *)
Lemma requestCancel_twice (s : TuiState) :
  requestCancel (requestCancel s) = requestCancel s.
Proof.
  unfold requestCancel. destruct (decide (cancelState s = none)) as [H|H]; simpl.
  - done.
  - by rewrite decide_False.
Qed.

End Tui.



End Cancel.

(** ** JSONC

    [stripJsonc] and [parseJsonc] of the server configuration
    ([apps/server/src/config/index.ts]).  A JavaScript string is a sequence
    of 16-bit code units: a character is its code unit, a string the list of
    them. *)
Module Jsonc.

Definition code (a : ascii) : N := Ascii.N_of_ascii a.
Arguments code a%_char.

Fixpoint codes (s : string) : list N :=
  match s with
  | EmptyString => []
  | String a rest => code a :: codes rest
  end.

Definition slash : N := code "/".
Definition star : N := code "*".
Definition backslash : N := code "\".
Definition double_quote : N := 34.
Definition single_quote : N := code "'".
Definition comma : N := code ",".
Definition close_bracket : N := code "]".
Definition close_brace : N := code "}".
Definition line_feed : N := 10.

(** [/\s/] and the characters [trim] removes: ECMAScript's WhiteSpace and
    LineTerminator. *)
Definition is_whitespace (c : N) : bool :=
  ((9 <=? c) && (c <=? 13) || (c =? 32) || (c =? 160) || (c =? 5760)
   || (8192 <=? c) && (c <=? 8202) || (c =? 8232) || (c =? 8233)
   || (c =? 8239) || (c =? 8287) || (c =? 12288) || (c =? 65279))%N.

(** The three variables the two loops share. *)
Record ScanState := {
  inString : bool;
  stringQuote : option N;
  escaped : bool
}.

Definition initial : ScanState :=
  {| inString := false; stringQuote := None; escaped := false |}.

(** The [if (inString)] branch, after the character has been copied. *)
Definition in_string_step (st : ScanState) (ch : N) : ScanState :=
  if escaped st then
    {| inString := inString st; stringQuote := stringQuote st; escaped := false |}
  else if (ch =? backslash)%N then
    {| inString := inString st; stringQuote := stringQuote st; escaped := true |}
  else if bool_decide (stringQuote st = Some ch) then
    {| inString := false; stringQuote := None; escaped := escaped st |}
  else st.

(** The test for an opening quote, double or single, and the state after
    such a character. *)
Definition is_quote (ch : N) : bool :=
  ((ch =? double_quote) || (ch =? single_quote))%N.

Definition open_string (st : ScanState) (ch : N) : ScanState :=
  {| inString := true; stringQuote := Some ch; escaped := escaped st |}.

(** [while (i < content.length && content[i] !== "\n") i += 1]: what is left
    to scan. *)
Fixpoint skip_line_comment (content : list N) : list N :=
  match content with
  | [] => []
  | ch :: rest => if (ch =? line_feed)%N then content else skip_line_comment rest
  end.

(** The inner loop of the block comment: what is left after the first
    [*/], nothing when there is none. *)
Fixpoint skip_block_comment (content : list N) : list N :=
  match content with
  | [] => []
  | ch :: rest =>
      match rest with
      | next :: rest' =>
          if ((ch =? star) && (next =? slash))%N then rest'
          else skip_block_comment rest
      | [] => []
      end
  end.

(** [content[i + 1] ?? ""] compared with a character. *)
Definition next_is (rest : list N) (c : N) : bool :=
  match rest with
  | next :: _ => (next =? c)%N
  | [] => false
  end.

(** The first loop.  [content] is what is left from index [i] on; the
    characters appended to [out] are returned in order.  Every turn consumes
    a character, so [fuel] turns are enough when [fuel] is the length. *)
Fixpoint strip_comments_loop (fuel : nat) (st : ScanState) (content : list N)
  : list N :=
  match fuel, content with
  | O, _ | _, [] => []
  | S fuel, ch :: rest =>
      if inString st then
        ch :: strip_comments_loop fuel (in_string_step st ch) rest
      else if ((ch =? slash)%N && next_is rest slash) then
        strip_comments_loop fuel st (skip_line_comment (tail rest))
      else if ((ch =? slash)%N && next_is rest star) then
        strip_comments_loop fuel st (skip_block_comment (tail rest))
      else if is_quote ch then
        ch :: strip_comments_loop fuel (open_string st ch) rest
      else
        ch :: strip_comments_loop fuel st rest
  end.

Definition strip_comments_from (st : ScanState) (content : list N) : list N :=
  strip_comments_loop (length content) st content.

Definition strip_comments : list N → list N := strip_comments_from initial.

Fixpoint skip_whitespace (s : list N) : list N :=
  match s with
  | [] => []
  | c :: rest => if is_whitespace c then skip_whitespace rest else s
  end.

(** [out[j]] for the first [j >= i + 1] that is not whitespace. *)
Definition next_non_whitespace (rest : list N) : option N :=
  head (skip_whitespace rest).

Definition closes (c : option N) : bool :=
  match c with
  | Some c => ((c =? close_bracket) || (c =? close_brace))%N
  | None => false
  end.

(** The second loop, over [out]. *)
Fixpoint strip_trailing_commas (st : ScanState) (out : list N) : list N :=
  match out with
  | [] => []
  | ch :: rest =>
      if inString st then
        ch :: strip_trailing_commas (in_string_step st ch) rest
      else if is_quote ch then
        ch :: strip_trailing_commas (open_string st ch) rest
      else if ((ch =? comma)%N && closes (next_non_whitespace rest)) then
        strip_trailing_commas st rest
      else
        ch :: strip_trailing_commas st rest
  end.

(** [String.prototype.trim]. *)
Definition trim_start (s : list N) : list N := skip_whitespace s.
Definition trim_end (s : list N) : list N := reverse (trim_start (reverse s)).
Definition trim (s : list N) : list N := trim_end (trim_start s).

(** The text before [trim()]: both loops, the second one started afresh. *)
Definition normalize (content : list N) : list N :=
  strip_trailing_commas initial (strip_comments content).

Definition stripJsonc (content : list N) : list N := trim (normalize content).

(** [parseJsonc]; [JSON.parse] is the platform's. *)
Definition parseJsonc {V : Type} (JSON_parse : list N → V) (content : list N) : V :=
  JSON_parse (stripJsonc content).

(** *** The first loop, unfolded *)

Lemma skip_line_comment_length content :
  length (skip_line_comment content) ≤ length content.
Proof.
  induction content as [|ch rest IH]; simpl; [done|].
  destruct (ch =? line_feed)%N; simpl; lia.
Qed.

Lemma skip_block_comment_length content :
  length (skip_block_comment content) ≤ length content.
Proof.
  induction content as [|ch rest IH]; [done|].
  cbn [skip_block_comment]. destruct rest as [|next rest']; [simpl; lia|].
  destruct ((ch =? star) && (next =? slash))%N; simpl in *; lia.
Qed.

Lemma length_tail_le {A} (l : list A) : length (tail l) ≤ length l.
Proof. destruct l; simpl; lia. Qed.

(** The loop does not depend on the fuel once there is enough of it. *)
Lemma strip_comments_loop_fuel fuel fuel' st content :
  length content ≤ fuel → length content ≤ fuel' →
  strip_comments_loop fuel st content = strip_comments_loop fuel' st content.
Proof.
  revert fuel' st content.
  induction fuel as [|fuel IH]; intros fuel' st content Hf Hf'.
  - destruct content; [|simpl in Hf; lia]. by destruct fuel'.
  - destruct content as [|ch rest]; [by destruct fuel'|].
    destruct fuel' as [|fuel']; [simpl in Hf'; lia|].
    simpl in Hf, Hf'. cbn [strip_comments_loop].
    pose proof (length_tail_le rest).
    pose proof (skip_line_comment_length (tail rest)).
    pose proof (skip_block_comment_length (tail rest)).
    repeat case_match; first [apply IH; lia | f_equal; apply IH; lia].
Qed.

(** One turn of the first loop. *)
Lemma strip_comments_from_cons st ch rest :
  strip_comments_from st (ch :: rest) =
  if inString st then
    ch :: strip_comments_from (in_string_step st ch) rest
  else if ((ch =? slash)%N && next_is rest slash) then
    strip_comments_from st (skip_line_comment (tail rest))
  else if ((ch =? slash)%N && next_is rest star) then
    strip_comments_from st (skip_block_comment (tail rest))
  else if is_quote ch then
    ch :: strip_comments_from (open_string st ch) rest
  else
    ch :: strip_comments_from st rest.
Proof.
  unfold strip_comments_from. cbn [length strip_comments_loop].
  pose proof (length_tail_le rest).
  pose proof (skip_line_comment_length (tail rest)).
  pose proof (skip_block_comment_length (tail rest)).
  repeat case_match; try done; apply strip_comments_loop_fuel; simpl; lia.
Qed.

(** *** Inputs without comments and trailing commas *)

(** Whether a comment opener, [//] or [/*], occurs outside a string literal,
    strings being delimited as the loops delimit them. *)
Fixpoint has_comment_opener (st : ScanState) (content : list N) : bool :=
  match content with
  | [] => false
  | ch :: rest =>
      if inString st then has_comment_opener (in_string_step st ch) rest
      else if ((ch =? slash)%N && (next_is rest slash || next_is rest star)) then true
      else if is_quote ch then has_comment_opener (open_string st ch) rest
      else has_comment_opener st rest
  end.

(** Whether a trailing comma, one whose next character that is not
    whitespace is a closing bracket or brace, occurs outside a string
    literal. *)
Fixpoint has_trailing_comma (st : ScanState) (content : list N) : bool :=
  match content with
  | [] => false
  | ch :: rest =>
      if inString st then has_trailing_comma (in_string_step st ch) rest
      else if is_quote ch then has_trailing_comma (open_string st ch) rest
      else if ((ch =? comma)%N && closes (next_non_whitespace rest)) then true
      else has_trailing_comma st rest
  end.

Lemma strip_comments_no_opener st content :
  has_comment_opener st content = false →
  strip_comments_from st content = content.
Proof.
  revert st. induction content as [|ch rest IH]; intros st H; [done|].
  rewrite strip_comments_from_cons. cbn [has_comment_opener] in H.
  destruct (inString st); [by rewrite IH|].
  destruct (ch =? slash)%N; simpl in *.
  - destruct (next_is rest slash); [done|]. destruct (next_is rest star); [done|].
    simpl in *. destruct (is_quote ch); by rewrite IH.
  - destruct (is_quote ch); by rewrite IH.
Qed.

Lemma strip_trailing_commas_none st out :
  has_trailing_comma st out = false →
  strip_trailing_commas st out = out.
Proof.
  revert st. induction out as [|ch rest IH]; intros st H; [done|].
  cbn [strip_trailing_commas has_trailing_comma] in *.
  destruct (inString st); [by rewrite IH|].
  destruct (is_quote ch); [by rewrite IH|].
  destruct ((ch =? comma)%N && closes (next_non_whitespace rest)); [done|].
  by rewrite IH.
Qed.

(** Without comment openers and trailing commas outside strings, only
    [trim()] changes the text. *)
Lemma stripJsonc_plain content :
  has_comment_opener initial content = false →
  has_trailing_comma initial content = false →
  stripJsonc content = trim content.
Proof.
  intros Ho Hc. unfold stripJsonc, normalize, strip_comments.
  by rewrite strip_comments_no_opener, strip_trailing_commas_none.
Qed.

(** *** String literals *)

(** The inside of a string literal opened by [quote]: no unescaped [quote]
    in it, and no escape left open at its end. *)
Fixpoint string_body (quote : N) (esc : bool) (body : list N) : bool :=
  match body with
  | [] => negb esc
  | ch :: rest =>
      if esc then string_body quote false rest
      else if (ch =? backslash)%N then string_body quote true rest
      else if (ch =? quote)%N then false
      else string_body quote false rest
  end.

(** A complete string literal: an opening quote, a body, the same quote. *)
Definition string_literal (lit : list N) : Prop :=
  ∃ quote body,
    lit = quote :: body ++ [quote]
    ∧ is_quote quote = true
    ∧ string_body quote false body = true.

Definition inside (quote : N) (esc : bool) : ScanState :=
  {| inString := true; stringQuote := Some quote; escaped := esc |}.

Lemma is_quote_not_backslash quote :
  is_quote quote = true → (quote =? backslash)%N = false.
Proof.
  unfold is_quote. intros [->%N.eqb_eq| ->%N.eqb_eq]%orb_true_iff; reflexivity.
Qed.

Lemma is_quote_not_slash quote : is_quote quote = true → (quote =? slash)%N = false.
Proof.
  unfold is_quote. intros [->%N.eqb_eq| ->%N.eqb_eq]%orb_true_iff; reflexivity.
Qed.

Lemma is_quote_not_whitespace quote :
  is_quote quote = true → is_whitespace quote = false.
Proof.
  unfold is_quote. intros [->%N.eqb_eq| ->%N.eqb_eq]%orb_true_iff; reflexivity.
Qed.

Lemma is_quote_not_closing quote :
  is_quote quote = true → closes (Some quote) = false.
Proof.
  unfold is_quote. intros [->%N.eqb_eq| ->%N.eqb_eq]%orb_true_iff; reflexivity.
Qed.

(** How a step inside a string treats a character of the body, and the
    closing quote. *)
Lemma in_string_step_body quote esc ch :
  in_string_step (inside quote esc) ch =
  if esc then inside quote false
  else if (ch =? backslash)%N then inside quote true
  else if (ch =? quote)%N then initial
  else inside quote false.
Proof.
  unfold in_string_step, inside; simpl. destruct esc; [done|].
  destruct (ch =? backslash)%N; [done|].
  destruct (N.eqb_spec ch quote) as [->|Hne].
  - by rewrite bool_decide_true.
  - rewrite bool_decide_false; [done|]. congruence.
Qed.

(** Inside a string every loop copies the body and the closing
    quote and is then back where it started. *)
Lemma strip_comments_in_string quote esc body rest :
  is_quote quote = true → string_body quote esc body = true →
  strip_comments_from (inside quote esc) (body ++ quote :: rest) =
  body ++ quote :: strip_comments_from initial rest.
Proof.
  intros Hq. revert esc. induction body as [|ch body IH]; intros esc Hb; simpl in *.
  - destruct esc; [done|]. rewrite strip_comments_from_cons. simpl.
    rewrite in_string_step_body, (is_quote_not_backslash _ Hq), N.eqb_refl. done.
  - rewrite strip_comments_from_cons. simpl. rewrite in_string_step_body. f_equal.
    destruct esc; [by apply IH|].
    destruct (ch =? backslash)%N; [by apply IH|].
    destruct (ch =? quote)%N; [done|by apply IH].
Qed.

Lemma strip_trailing_commas_in_string quote esc body rest :
  is_quote quote = true → string_body quote esc body = true →
  strip_trailing_commas (inside quote esc) (body ++ quote :: rest) =
  body ++ quote :: strip_trailing_commas initial rest.
Proof.
  intros Hq. revert esc. induction body as [|ch body IH]; intros esc Hb; simpl in *.
  - destruct esc; [done|].
    rewrite in_string_step_body, (is_quote_not_backslash _ Hq), N.eqb_refl. done.
  - rewrite in_string_step_body. f_equal.
    destruct esc; [by apply IH|].
    destruct (ch =? backslash)%N; [by apply IH|].
    destruct (ch =? quote)%N; [done|by apply IH].
Qed.

Lemma strip_comments_literal lit rest :
  string_literal lit →
  strip_comments (lit ++ rest) = lit ++ strip_comments rest.
Proof.
  intros (quote & body & -> & Hq & Hb). unfold strip_comments.
  simpl. rewrite strip_comments_from_cons. simpl.
  rewrite (is_quote_not_slash _ Hq), Hq. simpl. f_equal.
  rewrite <-!app_assoc. simpl.
  by apply (strip_comments_in_string quote false body rest).
Qed.

Lemma strip_trailing_commas_literal lit rest :
  string_literal lit →
  strip_trailing_commas initial (lit ++ rest) =
  lit ++ strip_trailing_commas initial rest.
Proof.
  intros (quote & body & -> & Hq & Hb). simpl. rewrite Hq. f_equal.
  rewrite <-!app_assoc. simpl.
  by apply (strip_trailing_commas_in_string quote false body rest).
Qed.

(** *** The text before a string literal *)

(** A slash that opens a comment with the character after it. *)
Definition opens_comment (ch : N) (rest : list N) : bool :=
  (ch =? slash)%N && (next_is rest slash || next_is rest star).

(** The inside of a closed block comment holds no [*/]. *)
Fixpoint no_close (body : list N) : bool :=
  match body with
  | [] => true
  | ch :: rest =>
      if ((ch =? star)%N && next_is rest slash) then false else no_close rest
  end.

(** [lexes pre]: the text [pre] is a sequence of complete lexical items,
    that is, characters outside strings and comments, string literals, line
    comments with the line feed that ends them, and closed block comments.
    What follows such a text is read outside any string or comment. *)
Inductive lexes : list N → Prop :=
| lexes_nil : lexes []
| lexes_char ch rest :
    is_quote ch = false → opens_comment ch rest = false →
    lexes rest → lexes (ch :: rest)
| lexes_string lit rest :
    string_literal lit → lexes rest → lexes (lit ++ rest)
| lexes_line_comment body rest :
    Forall (λ ch, (ch =? line_feed)%N = false) body →
    lexes (line_feed :: rest) →
    lexes (slash :: slash :: body ++ line_feed :: rest)
| lexes_block_comment body rest :
    no_close body = true → lexes rest →
    lexes (slash :: star :: body ++ star :: slash :: rest).

Lemma skip_line_comment_body body rest :
  Forall (λ ch, (ch =? line_feed)%N = false) body →
  skip_line_comment (body ++ line_feed :: rest) = line_feed :: rest.
Proof.
  induction 1 as [|ch body Hch _ IH]; simpl; [done|]. by rewrite Hch.
Qed.

Lemma skip_block_comment_body body rest :
  no_close body = true →
  skip_block_comment (body ++ star :: slash :: rest) = rest.
Proof.
  induction body as [|ch body IH]; intros Hb; [done|].
  cbn [no_close] in Hb. change ((ch :: body) ++ ?x) with (ch :: (body ++ x)).
  cbn [skip_block_comment].
  destruct body as [|next body'].
  - rewrite app_nil_l. change (star =? slash)%N with false.
    rewrite andb_false_r. by apply IH.
  - change ((next :: body') ++ ?x) with (next :: (body' ++ x)) in *.
    cbn [next_is] in Hb. cbv iota beta.
    destruct ((ch =? star)%N && (next =? slash)%N); [done|]. by apply IH.
Qed.

(** What the first loop does with each kind of item, whatever follows
    it, as long as a final slash is not turned into a comment opener. *)
Lemma strip_comments_lexes pre rest :
  lexes pre → next_is rest slash = false → next_is rest star = false →
  strip_comments (pre ++ rest) = strip_comments pre ++ strip_comments rest.
Proof.
  intros Hpre Hs Ht.
  induction Hpre as [|ch pre Hq Ho _ IH|lit pre Hlit _ IH
                    |body pre Hbody _ IH|body pre Hbody _ IH].
  - done.
  - unfold strip_comments in *. simpl.
    rewrite !strip_comments_from_cons. simpl. rewrite Hq.
    unfold opens_comment in Ho.
    assert ((ch =? slash)%N && next_is (pre ++ rest) slash = false
            ∧ (ch =? slash)%N && next_is (pre ++ rest) star = false
            ∧ (ch =? slash)%N && next_is pre slash = false
            ∧ (ch =? slash)%N && next_is pre star = false) as (-> & -> & -> & ->).
    { destruct (ch =? slash)%N; [|done]. simpl in *.
      apply orb_false_iff in Ho as [Ho1 Ho2].
      destruct pre; simpl in *; by rewrite ?Hs, ?Ht, ?Ho1, ?Ho2. }
    by rewrite IH.
  - rewrite <-app_assoc, (strip_comments_literal lit (pre ++ rest)), IH by done.
    by rewrite (strip_comments_literal lit pre), app_assoc.
  - unfold strip_comments in *. simpl.
    rewrite !strip_comments_from_cons. simpl.
    rewrite <-app_assoc. simpl.
    rewrite !skip_line_comment_body by done. exact IH.
  - unfold strip_comments in *. simpl.
    rewrite !strip_comments_from_cons. simpl.
    rewrite <-app_assoc. simpl.
    rewrite !skip_block_comment_body by done. exact IH.
Qed.

(** The state the loops are in after a text, none of it in a comment. *)
Fixpoint state_after (st : ScanState) (out : list N) : ScanState :=
  match out with
  | [] => st
  | ch :: rest =>
      if inString st then state_after (in_string_step st ch) rest
      else if is_quote ch then state_after (open_string st ch) rest
      else state_after st rest
  end.

Lemma state_after_app st out1 out2 :
  state_after st (out1 ++ out2) = state_after (state_after st out1) out2.
Proof.
  revert st. induction out1 as [|ch out1 IH]; intros st; simpl; [done|].
  repeat case_match; apply IH.
Qed.

Lemma state_after_in_string quote esc body :
  is_quote quote = true → string_body quote esc body = true →
  state_after (inside quote esc) (body ++ [quote]) = initial.
Proof.
  intros Hq. revert esc. induction body as [|ch body IH]; intros esc Hb; simpl in *.
  - destruct esc; [done|].
    by rewrite in_string_step_body, (is_quote_not_backslash _ Hq), N.eqb_refl.
  - rewrite in_string_step_body.
    destruct esc; [by apply IH|].
    destruct (ch =? backslash)%N; [by apply IH|].
    destruct (ch =? quote)%N; [done|by apply IH].
Qed.

Lemma state_after_literal lit : string_literal lit → state_after initial lit = initial.
Proof.
  intros (quote & body & -> & Hq & Hb). simpl. rewrite Hq.
  by apply state_after_in_string.
Qed.

(** After the comments of a lexed text are gone, the second loop ends
    outside any string. *)
Lemma state_after_lexes pre :
  lexes pre → state_after initial (strip_comments pre) = initial.
Proof.
  induction 1 as [|ch pre Hq Ho _ IH|lit pre Hlit _ IH
                 |body pre Hbody _ IH|body pre Hbody _ IH].
  - done.
  - unfold strip_comments in *. rewrite strip_comments_from_cons. simpl.
    unfold opens_comment in Ho. rewrite Hq.
    assert ((ch =? slash)%N && next_is pre slash = false
            ∧ (ch =? slash)%N && next_is pre star = false) as (-> & ->).
    { destruct (ch =? slash)%N; [|done]. by apply orb_false_iff in Ho. }
    simpl. by rewrite Hq.
  - rewrite strip_comments_literal, state_after_app, state_after_literal by done.
    exact IH.
  - unfold strip_comments in *. rewrite strip_comments_from_cons. simpl.
    by rewrite skip_line_comment_body.
  - unfold strip_comments in *. rewrite strip_comments_from_cons. simpl.
    by rewrite skip_block_comment_body.
Qed.

Lemma next_non_whitespace_app out tail :
  closes (next_non_whitespace tail) = false →
  closes (next_non_whitespace (out ++ tail)) = closes (next_non_whitespace out).
Proof.
  intros Ht. unfold next_non_whitespace in *.
  induction out as [|ch out IH]; simpl; [by rewrite Ht|].
  by destruct (is_whitespace ch).
Qed.

(** The second loop reads a text that ends outside strings, and then
    what follows, independently, unless what follows could close a comma of
    the text. *)
Lemma strip_trailing_commas_app st out tail :
  state_after st out = initial → closes (next_non_whitespace tail) = false →
  strip_trailing_commas st (out ++ tail) =
  strip_trailing_commas st out ++ strip_trailing_commas initial tail.
Proof.
  intros Hst Ht. revert st Hst.
  induction out as [|ch out IH]; intros st Hst; simpl in *; [by subst|].
  destruct (inString st); [by rewrite IH|].
  destruct (is_quote ch); [by rewrite IH|].
  rewrite next_non_whitespace_app by done.
  destruct ((ch =? comma)%N && closes (next_non_whitespace out)); by rewrite IH.
Qed.

(** *** Every input is lexed items and at most one unfinished item *)

(** The body of the string opened by [quote] and what follows its closing
    quote, when it is closed. *)
Fixpoint close_string (quote : N) (esc : bool) (s : list N)
  : option (list N * list N) :=
  match s with
  | [] => None
  | ch :: rest =>
      if esc then prod_map (cons ch) id <$> close_string quote false rest
      else if (ch =? backslash)%N then
        prod_map (cons ch) id <$> close_string quote true rest
      else if (ch =? quote)%N then Some ([], rest)
      else prod_map (cons ch) id <$> close_string quote false rest
  end.

(** The body of a block comment and what follows its [*/], when it is
    closed. *)
Fixpoint find_close (s : list N) : option (list N * list N) :=
  match s with
  | [] => None
  | ch :: rest =>
      match rest with
      | next :: rest' =>
          if ((ch =? star) && (next =? slash))%N then Some ([], rest')
          else prod_map (cons ch) id <$> find_close rest
      | [] => None
      end
  end.

(** The unfinished item an input can end with: nothing, a string that is
    never closed, a line comment that runs to the end, a block comment that
    is never closed. *)
Inductive dangling : list N → Prop :=
| dangling_nothing : dangling []
| dangling_string quote s :
    is_quote quote = true → close_string quote false s = None →
    dangling (quote :: s)
| dangling_line_comment body :
    Forall (λ ch, (ch =? line_feed)%N = false) body →
    dangling (slash :: slash :: body)
| dangling_block_comment s :
    find_close s = None → dangling (slash :: star :: s).

Lemma close_string_Some quote esc s body rest :
  close_string quote esc s = Some (body, rest) →
  s = body ++ quote :: rest ∧ string_body quote esc body = true
  ∧ length rest < length s.
Proof.
  revert esc body. induction s as [|ch s IH]; intros esc body H; [done|].
  cbn [close_string] in H.
  assert (∀ esc', prod_map (cons ch) id <$> close_string quote esc' s = Some (body, rest) →
                  ∃ body', body = ch :: body'
                           ∧ close_string quote esc' s = Some (body', rest)) as Hmap.
  { intros esc' Hm. destruct (close_string quote esc' s) as [[b r]|]; [|done].
    injection Hm as <- <-. by exists b. }
  destruct esc.
  - apply Hmap in H as (body' & -> & H). apply IH in H as (-> & Hb & Hl).
    split_and!; [done|done|simpl; lia].
  - destruct (ch =? backslash)%N eqn:Hbs.
    + apply Hmap in H as (body' & -> & H). apply IH in H as (-> & Hb & Hl).
      split_and!; [done| |simpl; lia]. simpl. by rewrite Hbs.
    + destruct (N.eqb_spec ch quote) as [->|Hne].
      * injection H as <- <-. split_and!; [done|done|simpl; lia].
      * apply Hmap in H as (body' & -> & H). apply IH in H as (-> & Hb & Hl).
        split_and!; [done| |simpl; lia]. simpl. rewrite Hbs.
        by destruct (N.eqb_spec ch quote).
Qed.

Lemma find_close_Some s body rest :
  find_close s = Some (body, rest) →
  s = body ++ star :: slash :: rest ∧ no_close body = true
  ∧ length rest < length s.
Proof.
  revert body. induction s as [|ch s IH]; intros body H; [done|].
  cbn [find_close] in H. destruct s as [|next s']; [done|].
  destruct ((ch =? star) && (next =? slash))%N eqn:Hclose.
  - injection H as <- <-.
    apply andb_true_iff in Hclose as [->%N.eqb_eq ->%N.eqb_eq].
    split_and!; [done|done|simpl; lia].
  - destruct (find_close (next :: s')) as [[b r]|] eqn:Hrec; [|done].
    injection H as <- <-. destruct (IH b eq_refl) as (Heq & Hb & Hl).
    split_and!; [simpl; by f_equal| |simpl in *; lia].
    cbn [no_close]. destruct b as [|n b'].
    + simpl. by rewrite andb_false_r.
    + simpl in Heq. injection Heq as -> _. simpl. by rewrite Hclose.
Qed.

Lemma skip_line_comment_split s :
  ∃ body, s = body ++ skip_line_comment s
          ∧ Forall (λ ch, (ch =? line_feed)%N = false) body
          ∧ (skip_line_comment s = [] ∨ ∃ rest, skip_line_comment s = line_feed :: rest).
Proof.
  induction s as [|ch s (body & Heq & Hbody & Hrest)]; simpl.
  - exists []. by split_and!; [| |left].
  - destruct (N.eqb_spec ch line_feed) as [->|Hne].
    + exists []. split_and!; [done|done|]. right. by eexists.
    + exists (ch :: body). split_and!; [by rewrite Heq at 1| |done].
      constructor; [|done]. by destruct (N.eqb_spec ch line_feed).
Qed.

Lemma dangling_not_line_feed rest : ¬ dangling (line_feed :: rest).
Proof. inversion 1 as [|quote s Hq| |]. by vm_compute in Hq. Qed.

(** Any input is a lexed text followed by at most one unfinished item, so
    every string that is closed is a literal that follows a lexed text. *)
Lemma lexes_covers content :
  ∃ pre rest, content = pre ++ rest ∧ lexes pre ∧ dangling rest.
Proof.
  remember (length content) as n eqn:Hn. revert content Hn.
  induction n as [n IH] using lt_wf_ind. intros content ->.
  destruct content as [|ch tl].
  { exists [], []. split_and!; [done|constructor|constructor]. }
  destruct (is_quote ch) eqn:Hq.
  - destruct (close_string ch false tl) as [[body rest0]|] eqn:Hclose.
    + apply close_string_Some in Hclose as (-> & Hbody & Hlen).
      destruct (IH (length rest0)) with (content := rest0)
        as (pre & rest & -> & Hpre & Hrest); [simpl; lia|done|].
      exists ((ch :: body ++ [ch]) ++ pre), rest. split_and!; [|by constructor; [exists ch, body|]|done].
      simpl. by rewrite <-!app_assoc.
    + exists [], (ch :: tl). split_and!; [done|constructor|by constructor].
  - destruct (opens_comment ch tl) eqn:Hopen.
    + unfold opens_comment in Hopen.
      apply andb_true_iff in Hopen as [->%N.eqb_eq Hnext].
      destruct tl as [|next tl2]; [done|]. simpl in Hnext.
      destruct (N.eqb_spec next slash) as [->|Hns].
      * destruct (skip_line_comment_split tl2) as (body & Heq & Hbody & Hrest).
        destruct Hrest as [Hnil|[r Hr]].
        { rewrite Hnil, app_nil_r in Heq. subst tl2.
          exists [], (slash :: slash :: body).
          split_and!; [done|constructor|by constructor]. }
        pose proof (skip_line_comment_length tl2) as Hlen.
        destruct (IH (length (skip_line_comment tl2))) with
          (content := skip_line_comment tl2) as (pre & rest & Hsplit & Hpre & Hrest);
          [simpl; lia|done|].
        rewrite Hr in Hsplit. destruct pre as [|c pre'].
        { simpl in Hsplit. subst rest. by apply dangling_not_line_feed in Hrest. }
        simpl in Hsplit. injection Hsplit as <- Hr'.
        exists (slash :: slash :: body ++ line_feed :: pre'), rest.
        split_and!; [|by constructor|done].
        rewrite Heq at 1. rewrite Hr, Hr'. simpl. by rewrite <-app_assoc.
      * simpl in Hnext. destruct (N.eqb_spec next star) as [->|]; [|done].
        destruct (find_close tl2) as [[body rest0]|] eqn:Hclose.
        -- apply find_close_Some in Hclose as (-> & Hbody & Hlen).
           destruct (IH (length rest0)) with (content := rest0)
             as (pre & rest & -> & Hpre & Hrest); [simpl; lia|done|].
           exists (slash :: star :: body ++ star :: slash :: pre), rest.
           split_and!; [|by constructor|done]. simpl. by rewrite <-app_assoc.
        -- exists [], (slash :: star :: tl2).
           split_and!; [done|constructor|by constructor].
    + destruct (IH (length tl)) with (content := tl)
        as (pre & rest & -> & Hpre & Hrest); [simpl; lia|done|].
      exists (ch :: pre), rest. split_and!; [done| |done].
      constructor; [done| |done]. unfold opens_comment in *.
      destruct (ch =? slash)%N; [|done]. simpl in *.
      destruct pre; [done|]. exact Hopen.
Qed.

(** *** [trim] around a string literal *)

Lemma skip_whitespace_app_keep s ch rest :
  is_whitespace ch = false →
  skip_whitespace (s ++ ch :: rest) = skip_whitespace s ++ ch :: rest.
Proof.
  intros Hch. induction s as [|c s IH]; simpl; [by rewrite Hch|].
  by destruct (is_whitespace c).
Qed.

Lemma trim_end_app_keep s ch rest :
  is_whitespace ch = false →
  trim_end (s ++ ch :: rest) = s ++ ch :: trim_end rest.
Proof.
  intros Hch. unfold trim_end, trim_start.
  rewrite reverse_app, reverse_cons, <-app_assoc. simpl.
  rewrite skip_whitespace_app_keep by done.
  rewrite reverse_app, reverse_cons, reverse_involutive, <-app_assoc. done.
Qed.

Lemma trim_around_literal before lit after :
  string_literal lit →
  trim (before ++ lit ++ after) = trim_start before ++ lit ++ trim_end after.
Proof.
  intros (quote & body & -> & Hq & _).
  pose proof (is_quote_not_whitespace _ Hq) as Hws.
  unfold trim, trim_start. simpl.
  rewrite skip_whitespace_app_keep by done.
  rewrite <-!app_assoc. simpl.
  replace (skip_whitespace before ++ quote :: body ++ quote :: after)
    with ((skip_whitespace before ++ quote :: body) ++ quote :: after)
    by (by rewrite <-app_assoc).
  rewrite trim_end_app_keep by done. by rewrite <-app_assoc.
Qed.

(** A string literal that follows a lexed text comes out of [stripJsonc]
    as it went in, between what the loops make of the text before it and of
    the text after it. *)
Lemma stripJsonc_keeps_literal pre lit post :
  lexes pre → string_literal lit →
  stripJsonc (pre ++ lit ++ post) =
  trim_start (normalize pre) ++ lit ++ trim_end (normalize post).
Proof.
  intros Hpre Hlit. unfold stripJsonc.
  assert (normalize (pre ++ lit ++ post) = normalize pre ++ lit ++ normalize post)
    as ->; [|by apply trim_around_literal].
  destruct Hlit as (quote & body & Hl & Hq & Hb).
  assert (string_literal lit) as Hlit by (by exists quote, body).
  unfold normalize.
  rewrite strip_comments_lexes, strip_comments_literal; try done.
  - rewrite strip_trailing_commas_app.
    + by rewrite strip_trailing_commas_literal.
    + by apply state_after_lexes.
    + subst lit. unfold next_non_whitespace. simpl.
      rewrite (is_quote_not_whitespace _ Hq). simpl.
      by apply (is_quote_not_closing quote).
  - subst lit. simpl. by apply is_quote_not_slash.
  - subst lit. simpl. unfold is_quote in Hq.
    by apply orb_true_iff in Hq as [->%N.eqb_eq| ->%N.eqb_eq].
Qed.

(** *** Plain JSON

    The grammar of JSON texts (ECMA-404, RFC 8259), which [JSON.parse]
    accepts and [JSON.stringify] produces, over code units. *)

Definition is_json_whitespace (c : N) : bool :=
  ((c =? 32) || (c =? 9) || (c =? 10) || (c =? 13))%N.

Definition json_ws (s : list N) : Prop :=
  Forall (λ c, is_json_whitespace c = true) s.

Definition is_digit (c : N) : bool := ((48 <=? c) && (c <=? 57))%N.

Definition is_hex_digit (c : N) : bool :=
  (is_digit c || (97 <=? c) && (c <=? 102) || (65 <=? c) && (c <=? 70))%N.

(** The character after a backslash in the two-character escapes: a double
    quote, a backslash, a slash, or one of [b f n r t]. *)
Definition is_simple_escape (c : N) : bool :=
  ((c =? 34) || (c =? 92) || (c =? 47) || (c =? 98) || (c =? 102)
   || (c =? 110) || (c =? 114) || (c =? 116))%N.

(** The characters between the quotes of a JSON string. *)
Inductive json_chars : list N → Prop :=
| json_chars_nil : json_chars []
| json_chars_plain c rest :
    (32 <=? c)%N = true → (c =? double_quote)%N = false →
    (c =? backslash)%N = false →
    json_chars rest → json_chars (c :: rest)
| json_chars_escape c rest :
    is_simple_escape c = true →
    json_chars rest → json_chars (backslash :: c :: rest)
| json_chars_unicode h1 h2 h3 h4 rest :
    is_hex_digit h1 = true → is_hex_digit h2 = true →
    is_hex_digit h3 = true → is_hex_digit h4 = true →
    json_chars rest → json_chars (backslash :: code "u" :: h1 :: h2 :: h3 :: h4 :: rest).

Definition json_string (s : list N) : Prop :=
  ∃ body, s = double_quote :: body ++ [double_quote] ∧ json_chars body.

Definition json_digits (s : list N) : Prop :=
  s ≠ [] ∧ Forall (λ c, is_digit c = true) s.

Inductive json_int : list N → Prop :=
| json_int_zero : json_int [code "0"]
| json_int_digits d ds :
    is_digit d = true → (d =? code "0")%N = false →
    Forall (λ c, is_digit c = true) ds → json_int (d :: ds).

Definition json_frac (s : list N) : Prop :=
  s = [] ∨ ∃ ds, json_digits ds ∧ s = code "." :: ds.

Definition json_exp (s : list N) : Prop :=
  s = [] ∨ ∃ e sign ds,
    (e = code "e" ∨ e = code "E")
    ∧ (sign = [] ∨ sign = [code "+"] ∨ sign = [code "-"])
    ∧ json_digits ds ∧ s = e :: sign ++ ds.

Definition json_number (s : list N) : Prop :=
  ∃ sign int frac exp,
    (sign = [] ∨ sign = [code "-"])
    ∧ json_int int ∧ json_frac frac ∧ json_exp exp
    ∧ s = sign ++ int ++ frac ++ exp.

Inductive json_value : list N → Prop :=
| json_null : json_value (codes "null")
| json_true : json_value (codes "true")
| json_false : json_value (codes "false")
| json_value_number s : json_number s → json_value s
| json_value_string s : json_string s → json_value s
| json_empty_array ws :
    json_ws ws → json_value (code "[" :: ws ++ [code "]"])
| json_array elements :
    json_elements elements → json_value (code "[" :: elements ++ [code "]"])
| json_empty_object ws :
    json_ws ws → json_value (code "{" :: ws ++ [code "}"])
| json_object members :
    json_members members → json_value (code "{" :: members ++ [code "}"])
with json_elements : list N → Prop :=
| json_elements_last ws1 v ws2 :
    json_ws ws1 → json_value v → json_ws ws2 →
    json_elements (ws1 ++ v ++ ws2)
| json_elements_more ws1 v ws2 elements :
    json_ws ws1 → json_value v → json_ws ws2 → json_elements elements →
    json_elements (ws1 ++ v ++ ws2 ++ comma :: elements)
with json_members : list N → Prop :=
| json_members_last ws1 key ws2 ws3 v ws4 :
    json_ws ws1 → json_string key → json_ws ws2 →
    json_ws ws3 → json_value v → json_ws ws4 →
    json_members (ws1 ++ key ++ ws2 ++ code ":" :: ws3 ++ v ++ ws4)
| json_members_more ws1 key ws2 ws3 v ws4 members :
    json_ws ws1 → json_string key → json_ws ws2 →
    json_ws ws3 → json_value v → json_ws ws4 → json_members members →
    json_members (ws1 ++ key ++ ws2 ++ code ":" :: ws3 ++ v ++ ws4 ++ comma :: members).

Scheme json_value_mut := Minimality for json_value Sort Prop
  with json_elements_mut := Minimality for json_elements Sort Prop
  with json_members_mut := Minimality for json_members Sort Prop.

Combined Scheme json_mutual_ind
  from json_value_mut, json_elements_mut, json_members_mut.

(** A JSON text: a value with whitespace around it. *)
Definition json_text (s : list N) : Prop :=
  ∃ ws1 v ws2, json_ws ws1 ∧ json_value v ∧ json_ws ws2 ∧ s = ws1 ++ v ++ ws2.

(** **** JSON strings are string literals of the loops *)

Lemma is_hex_digit_plain h :
  is_hex_digit h = true →
  (h =? backslash)%N = false ∧ (h =? double_quote)%N = false.
Proof.
  intros H. split.
  - destruct (N.eqb_spec h backslash) as [->|?]; [by vm_compute in H|done].
  - destruct (N.eqb_spec h double_quote) as [->|?]; [by vm_compute in H|done].
Qed.

Lemma json_chars_string_body body :
  json_chars body → string_body double_quote false body = true.
Proof.
  induction 1 as [|c rest Hc Hq Hb _ IH|c rest Hc _ IH
                 |h1 h2 h3 h4 rest H1 H2 H3 H4 _ IH]; simpl.
  - done.
  - by rewrite Hb, Hq.
  - done.
  - destruct (is_hex_digit_plain _ H1) as [-> ->].
    destruct (is_hex_digit_plain _ H2) as [-> ->].
    destruct (is_hex_digit_plain _ H3) as [-> ->].
    destruct (is_hex_digit_plain _ H4) as [-> ->]. done.
Qed.

Lemma json_string_literal s : json_string s → string_literal s.
Proof.
  intros (body & -> & Hbody). exists double_quote, body.
  split_and!; [done..|]. by apply json_chars_string_body.
Qed.

(** **** Texts the loops leave alone, whatever follows them *)

(** A text that can stand before any other: it holds no comment opener and
    no trailing comma outside strings, alone and with what follows, and it
    ends outside any string. *)
Definition safe (s : list N) : Prop :=
  ∀ tail,
    has_comment_opener initial (s ++ tail) = has_comment_opener initial tail
    ∧ has_trailing_comma initial (s ++ tail) = has_trailing_comma initial tail.

(** What follows starts, after whitespace, with a character that closes
    nothing. *)
Definition opens_value (s : list N) : Prop :=
  ∀ tail, closes (next_non_whitespace (s ++ tail)) = false.

(** A character that is neither a quote, nor a slash, nor a comma. *)
Definition is_plain (c : N) : bool :=
  negb (is_quote c) && negb (c =? slash)%N && negb (c =? comma)%N.

Lemma safe_nil : safe [].
Proof. by intros tail. Qed.

Lemma safe_app s1 s2 : safe s1 → safe s2 → safe (s1 ++ s2).
Proof.
  intros H1 H2 tail. rewrite <-app_assoc.
  destruct (H1 (s2 ++ tail)) as [-> ->]. apply H2.
Qed.

Lemma safe_plain c s : is_plain c = true → safe s → safe (c :: s).
Proof.
  unfold is_plain. intros [[Hq Hs]%andb_true_iff Hc]%andb_true_iff Hsafe tail.
  apply negb_true_iff in Hq, Hs, Hc. simpl. rewrite Hq, Hs, Hc. simpl.
  apply Hsafe.
Qed.

Lemma safe_all_plain s : Forall (λ c, is_plain c = true) s → safe s.
Proof.
  induction 1 as [|c s Hc _ IH]; [apply safe_nil|]. by apply safe_plain.
Qed.

Lemma has_comment_opener_in_string quote esc body rest :
  is_quote quote = true → string_body quote esc body = true →
  has_comment_opener (inside quote esc) (body ++ quote :: rest) =
  has_comment_opener initial rest.
Proof.
  intros Hq. revert esc. induction body as [|ch body IH]; intros esc Hb; simpl in *.
  - destruct esc; [done|].
    by rewrite in_string_step_body, (is_quote_not_backslash _ Hq), N.eqb_refl.
  - rewrite in_string_step_body.
    destruct esc; [by apply IH|].
    destruct (ch =? backslash)%N; [by apply IH|].
    destruct (ch =? quote)%N; [done|by apply IH].
Qed.

Lemma has_trailing_comma_in_string quote esc body rest :
  is_quote quote = true → string_body quote esc body = true →
  has_trailing_comma (inside quote esc) (body ++ quote :: rest) =
  has_trailing_comma initial rest.
Proof.
  intros Hq. revert esc. induction body as [|ch body IH]; intros esc Hb; simpl in *.
  - destruct esc; [done|].
    by rewrite in_string_step_body, (is_quote_not_backslash _ Hq), N.eqb_refl.
  - rewrite in_string_step_body.
    destruct esc; [by apply IH|].
    destruct (ch =? backslash)%N; [by apply IH|].
    destruct (ch =? quote)%N; [done|by apply IH].
Qed.

Lemma safe_literal lit : string_literal lit → safe lit.
Proof.
  intros (quote & body & -> & Hq & Hb) tail. simpl.
  rewrite (is_quote_not_slash _ Hq), Hq. simpl.
  rewrite <-app_assoc. simpl. split.
  - by apply (has_comment_opener_in_string quote false body tail).
  - by apply (has_trailing_comma_in_string quote false body tail).
Qed.

(** A comma is safe before a text that opens a value. *)
Lemma safe_comma s : opens_value s → safe s → safe (comma :: s).
Proof.
  intros Ho Hs tail. simpl. rewrite (Ho tail). simpl. apply Hs.
Qed.

Lemma json_whitespace_is_whitespace c :
  is_json_whitespace c = true → is_whitespace c = true ∧ is_plain c = true.
Proof.
  unfold is_json_whitespace.
  intros [[[->%N.eqb_eq| ->%N.eqb_eq]%orb_true_iff
          | ->%N.eqb_eq]%orb_true_iff| ->%N.eqb_eq]%orb_true_iff; by split.
Qed.

Lemma safe_ws ws : json_ws ws → safe ws.
Proof.
  intros H. apply safe_all_plain. eapply Forall_impl; [exact H|].
  intros c Hc. by apply json_whitespace_is_whitespace.
Qed.

Lemma skip_whitespace_ws ws s : json_ws ws → skip_whitespace (ws ++ s) = skip_whitespace s.
Proof.
  induction 1 as [|c ws Hc _ IH]; simpl; [done|].
  by destruct (json_whitespace_is_whitespace _ Hc) as [-> _].
Qed.

Lemma opens_value_ws ws s : json_ws ws → opens_value s → opens_value (ws ++ s).
Proof.
  intros Hws Hs tail. unfold next_non_whitespace.
  rewrite <-app_assoc, skip_whitespace_ws by done. apply Hs.
Qed.

Lemma opens_value_cons c s :
  is_whitespace c = false → closes (Some c) = false → opens_value (c :: s).
Proof. intros Hw Hc tail. unfold next_non_whitespace. simpl. by rewrite Hw. Qed.

(** **** The characters of JSON values *)

Definition is_number_char (c : N) : bool :=
  (is_digit c || (c =? code "+") || (c =? code "-") || (c =? code ".")
   || (c =? code "e") || (c =? code "E"))%N.

(** A character a value can start with: not whitespace, and nothing a
    comma could be trailing before. *)
Definition is_solid (c : N) : bool :=
  negb (is_whitespace c) && negb (closes (Some c)).

Lemma is_digit_cases c :
  is_digit c = true →
  (c = 48 ∨ c = 49 ∨ c = 50 ∨ c = 51 ∨ c = 52 ∨ c = 53 ∨ c = 54 ∨ c = 55
   ∨ c = 56 ∨ c = 57)%N.
Proof.
  unfold is_digit. intros [H1%N.leb_le H2%N.leb_le]%andb_true_iff. lia.
Qed.

Lemma is_digit_number_char c : is_digit c = true → is_number_char c = true.
Proof. unfold is_number_char. by intros ->. Qed.

Lemma is_number_char_solid c :
  is_number_char c = true → is_solid c = true ∧ is_plain c = true.
Proof.
  unfold is_number_char. rewrite !orb_true_iff, !N.eqb_eq.
  intros [[[[[Hd| ->]| ->]| ->]| ->]| ->]; try (by split).
  apply is_digit_cases in Hd. repeat destruct Hd as [->|Hd]; try (by split).
  by subst.
Qed.

Lemma is_solid_opens c s : is_solid c = true → opens_value (c :: s).
Proof.
  unfold is_solid. intros [Hw%negb_true_iff Hc%negb_true_iff]%andb_true_iff.
  by apply opens_value_cons.
Qed.

Lemma is_solid_not_whitespace c : is_solid c = true → is_whitespace c = false.
Proof. unfold is_solid. by intros [Hw%negb_true_iff _]%andb_true_iff. Qed.

Lemma json_digits_chars ds :
  json_digits ds → ds ≠ [] ∧ Forall (λ c, is_number_char c = true) ds.
Proof.
  intros [Hne H]. split; [done|]. eapply Forall_impl; [exact H|].
  apply is_digit_number_char.
Qed.

Lemma json_number_chars s :
  json_number s → s ≠ [] ∧ Forall (λ c, is_number_char c = true) s.
Proof.
  intros (sign & int & frac & exp & Hsign & Hint & Hfrac & Hexp & ->).
  assert (Forall (λ c, is_number_char c = true) sign) as Fsign.
  { destruct Hsign as [->| ->]; by repeat constructor. }
  assert (int ≠ [] ∧ Forall (λ c, is_number_char c = true) int) as [Nint Fint].
  { destruct Hint as [|d ds Hd _ Hds]; [by repeat constructor|].
    split; [done|]. constructor; [by apply is_digit_number_char|].
    eapply Forall_impl; [exact Hds|]. apply is_digit_number_char. }
  assert (Forall (λ c, is_number_char c = true) frac) as Ffrac.
  { destruct Hfrac as [->|(ds & [_ Hds]%json_digits_chars & ->)]; [constructor|].
    by constructor. }
  assert (Forall (λ c, is_number_char c = true) exp) as Fexp.
  { destruct Hexp as [->|(e & esign & ds & He & Hes & [_ Hds]%json_digits_chars & ->)];
      [constructor|].
    constructor; [by destruct He as [->| ->]|]. apply Forall_app. split; [|done].
    destruct Hes as [->|[->| ->]]; by repeat constructor. }
  split.
  - destruct sign; [|done]. destruct int; done.
  - by rewrite !Forall_app.
Qed.

(** A value starts and ends with a solid character. *)
Lemma json_value_first v :
  json_value v → ∃ c rest, v = c :: rest ∧ is_solid c = true.
Proof.
  destruct 1 as [| | |s Hs|s (body & -> & _)|ws _|es _|ws _|ms _];
    try (by eexists _, _).
  destruct (json_number_chars _ Hs) as [Hne Hall].
  destruct s as [|c rest]; [done|]. exists c, rest. split; [done|].
  apply Forall_cons in Hall as [Hc _]. by apply is_number_char_solid.
Qed.

Lemma json_value_last v :
  json_value v → ∃ front c, v = front ++ [c] ∧ is_whitespace c = false.
Proof.
  destruct 1 as [| | |s Hs|s (body & -> & _)|ws _|es _|ws _|ms _].
  - by exists (codes "nul"), (code "l").
  - by exists (codes "tru"), (code "e").
  - by exists (codes "fals"), (code "e").
  - destruct (json_number_chars _ Hs) as [Hne Hall].
    destruct (exists_last Hne) as (front & c & ->). exists front, c.
    split; [done|]. apply Forall_app in Hall as [_ Hc].
    apply Forall_cons in Hc as [Hc _].
    by apply is_solid_not_whitespace, is_number_char_solid.
  - by exists (double_quote :: body), double_quote.
  - by exists (code "[" :: ws), (code "]").
  - by exists (code "[" :: es), (code "]").
  - by exists (code "{" :: ws), (code "}").
  - by exists (code "{" :: ms), (code "}").
Qed.

Lemma opens_value_value v s : json_value v → opens_value (v ++ s).
Proof.
  intros (c & rest & -> & Hc)%json_value_first. by apply is_solid_opens.
Qed.

Lemma opens_value_string key s : json_string key → opens_value (key ++ s).
Proof. intros (body & -> & _). by apply opens_value_cons. Qed.

(** Every JSON value is safe; lists of elements and of members are safe
    and open a value. *)
Lemma json_safe :
  (∀ v, json_value v → safe v)
  ∧ (∀ es, json_elements es → safe es ∧ opens_value es)
  ∧ (∀ ms, json_members ms → safe ms ∧ opens_value ms).
Proof.
  apply json_mutual_ind.
  - apply safe_all_plain. by repeat constructor.
  - apply safe_all_plain. by repeat constructor.
  - apply safe_all_plain. by repeat constructor.
  - intros s [_ Hs]%json_number_chars. apply safe_all_plain.
    eapply Forall_impl; [exact Hs|].
    intros c Hc. by apply is_number_char_solid.
  - intros s Hs. by apply safe_literal, json_string_literal.
  - intros ws Hws. apply safe_plain; [done|].
    apply safe_app; [by apply safe_ws|]. by apply safe_plain, safe_nil.
  - intros es _ [Hes _]. apply safe_plain; [done|].
    apply safe_app; [done|]. by apply safe_plain, safe_nil.
  - intros ws Hws. apply safe_plain; [done|].
    apply safe_app; [by apply safe_ws|]. by apply safe_plain, safe_nil.
  - intros ms _ [Hms _]. apply safe_plain; [done|].
    apply safe_app; [done|]. by apply safe_plain, safe_nil.
  - intros ws1 v ws2 H1 Hv Sv H2. split.
    + repeat apply safe_app; auto using safe_ws.
    + apply opens_value_ws; [done|]. by apply opens_value_value.
  - intros ws1 v ws2 es H1 Hv Sv H2 _ [Ses Oes]. split.
    + repeat apply safe_app; auto using safe_ws, safe_comma.
    + apply opens_value_ws; [done|]. by apply opens_value_value.
  - intros ws1 key ws2 ws3 v ws4 H1 Hk H2 H3 Hv Sv H4. split.
    + apply safe_app; [by apply safe_ws|].
      apply safe_app; [by apply safe_literal, json_string_literal|].
      apply safe_app; [by apply safe_ws|]. apply safe_plain; [done|].
      repeat apply safe_app; auto using safe_ws.
    + apply opens_value_ws; [done|]. by apply opens_value_string.
  - intros ws1 key ws2 ws3 v ws4 ms H1 Hk H2 H3 Hv Sv H4 _ [Sms Oms]. split.
    + apply safe_app; [by apply safe_ws|].
      apply safe_app; [by apply safe_literal, json_string_literal|].
      apply safe_app; [by apply safe_ws|]. apply safe_plain; [done|].
      repeat apply safe_app; auto using safe_ws, safe_comma.
    + apply opens_value_ws; [done|]. by apply opens_value_string.
Qed.

Lemma json_text_clean doc :
  json_text doc →
  has_comment_opener initial doc = false ∧ has_trailing_comma initial doc = false.
Proof.
  intros (ws1 & v & ws2 & H1 & Hv & H2 & ->).
  assert (safe (ws1 ++ v ++ ws2)) as Hsafe.
  { destruct json_safe as (Hval & _ & _).
    apply safe_app; [by apply safe_ws|]. apply safe_app; [by apply Hval|].
    by apply safe_ws. }
  destruct (Hsafe []) as [Ho Hc]. by rewrite app_nil_r in Ho, Hc.
Qed.

Lemma skip_whitespace_all ws : json_ws ws → skip_whitespace ws = [].
Proof.
  intros H. rewrite <-(app_nil_r ws). by rewrite skip_whitespace_ws.
Qed.

(** [trim] takes the whitespace around the value of a JSON text. *)
Lemma trim_json_text ws1 v ws2 :
  json_ws ws1 → json_value v → json_ws ws2 → trim (ws1 ++ v ++ ws2) = v.
Proof.
  intros H1 Hv H2. unfold trim, trim_start. rewrite skip_whitespace_ws by done.
  destruct (json_value_first _ Hv) as (c & rest & -> & Hc).
  simpl. rewrite (is_solid_not_whitespace _ Hc).
  destruct (json_value_last _ Hv) as (front & d & Hfd & Hd).
  change (c :: rest ++ ws2) with ((c :: rest) ++ ws2). rewrite Hfd.
  rewrite <-app_assoc. simpl.
  rewrite trim_end_app_keep by done.
  unfold trim_end, trim_start. rewrite skip_whitespace_all; [done|].
  unfold json_ws. by apply Forall_reverse.
Qed.

(** An opening quote that is never closed does not make a string literal:
    the whitespace that ends such an input is taken by [trim]. *)
Lemma unterminated_string_is_trimmed :
  stripJsonc (single_quote :: codes "abc  ") = single_quote :: codes "abc".
Proof. reflexivity. Qed.

(** A stand-in for a parser that ignores the whitespace around a JSON
    text: the text without its JSON whitespace. *)
Definition squeeze (s : list N) : list N :=
  filter (λ c, is_json_whitespace c = false) s.

Lemma squeeze_ws ws1 s ws2 :
  json_ws ws1 → json_ws ws2 → squeeze (ws1 ++ s ++ ws2) = squeeze s.
Proof.
  assert (∀ ws, json_ws ws → squeeze ws = []) as Hnil.
  { induction 1 as [|c ws Hc _ IH]; [done|]. unfold squeeze in *.
    rewrite filter_cons_False; [done|]. by rewrite Hc. }
  intros H1 H2. unfold squeeze in *. rewrite !filter_app.
  by rewrite (Hnil _ H1), (Hnil _ H2), app_nil_r.
Defined.

(** The text [ ["a//b,]", 1]] followed by a line feed. *)
Definition example_doc : list N :=
  [code " "; code "["; double_quote] ++ codes "a//b,]"
    ++ [double_quote; comma; code " "; code "1"; code "]"; line_feed].

Lemma example_doc_json : json_text example_doc.
Proof.
  exists [code " "],
    (code "[" :: (double_quote :: codes "a//b,]" ++ [double_quote])
       ++ comma :: [code " "; code "1"] ++ [code "]"]),
    [line_feed].
  split_and!; [by repeat constructor| |by repeat constructor|reflexivity].
  apply (json_array
           ((double_quote :: codes "a//b,]" ++ [double_quote])
              ++ comma :: [code " "; code "1"])).
  apply (json_elements_more [] (double_quote :: codes "a//b,]" ++ [double_quote])
           [] [code " "; code "1"]); [constructor| |constructor|].
  - apply json_value_string. exists (codes "a//b,]").
    split; [reflexivity|]. by repeat constructor.
  - apply (json_elements_last [code " "] [code "1"] []);
      [by repeat constructor| |constructor].
    apply json_value_number. exists [], [code "1"], [], [].
    split_and!; [by left| |by left|by left|reflexivity].
    by apply json_int_digits.
Defined.

(** C10.  When no comment opener and no trailing comma occurs outside a
    string literal, [stripJsonc] returns its input trimmed and otherwise
    unchanged.  Any input is a sequence of complete lexical items followed by
    at most one unfinished item, and a string literal that follows complete
    items comes out character for character, comment openers and commas in
    it included, between what [stripJsonc] makes of the text before it and
    of the text after it.  A JSON text has no comment opener and no trailing
    comma outside its strings, so [stripJsonc] only trims it, and
    [parseJsonc] gives what [JSON.parse] gives, [JSON.parse] ignoring the
    whitespace around a JSON text. *)
Theorem stripJsonc_leaves_json_alone :
  (∀ content,
     has_comment_opener initial content = false →
     has_trailing_comma initial content = false →
     stripJsonc content = trim content)
  ∧ (∀ content, ∃ pre rest, content = pre ++ rest ∧ lexes pre ∧ dangling rest)
  ∧ (∀ pre lit post,
       lexes pre → string_literal lit →
       stripJsonc (pre ++ lit ++ post) =
       trim_start (normalize pre) ++ lit ++ trim_end (normalize post))
  ∧ (∀ doc,
       json_text doc →
       has_comment_opener initial doc = false
       ∧ has_trailing_comma initial doc = false
       ∧ stripJsonc doc = trim doc)
  ∧ (∀ (V : Type) (JSON_parse : list N → V) doc,
       (∀ ws1 s ws2, json_ws ws1 → json_ws ws2 →
                     JSON_parse (ws1 ++ s ++ ws2) = JSON_parse s) →
       json_text doc →
       parseJsonc JSON_parse doc = JSON_parse doc).
Proof.
  split_and!.
  - apply stripJsonc_plain.
  - apply lexes_covers.
  - apply stripJsonc_keeps_literal.
  - intros doc Hdoc. destruct (json_text_clean _ Hdoc) as [Ho Hc].
    split_and!; [done..|]. by apply stripJsonc_plain.
  - intros V JSON_parse doc Hparse Hdoc. unfold parseJsonc.
    destruct (json_text_clean _ Hdoc) as [Ho Hc].
    rewrite stripJsonc_plain by done.
    destruct Hdoc as (ws1 & v & ws2 & H1 & Hv & H2 & ->).
    by rewrite trim_json_text, Hparse.
Qed.

(** The text [[/**/] and the single-quoted literal ['a,]//']. *)
Definition example_prefix : list N := codes "[/**/".

Definition example_literal : list N :=
  single_quote :: codes "a,]//" ++ [single_quote].

Lemma example_prefix_lexes : lexes example_prefix.
Proof.
  apply lexes_char; [reflexivity..|].
  apply (lexes_block_comment [] []); [reflexivity|constructor].
Defined.

Lemma example_literal_literal : string_literal example_literal.
Proof. exists single_quote, (codes "a,]//"). by split_and!. Defined.

Lemma stripJsonc_leaves_json_alone_witness :
  stripJsonc example_doc = trim example_doc
  ∧ stripJsonc (example_prefix ++ example_literal ++ codes ",]") =
    trim_start (normalize example_prefix) ++ example_literal
      ++ trim_end (normalize (codes ",]"))
  ∧ parseJsonc squeeze example_doc = squeeze example_doc.
Proof.
  destruct stripJsonc_leaves_json_alone as (Hplain & _ & Hlit & Hjson & Hparse).
  split_and!.
  - apply (Hplain example_doc); reflexivity.
  - apply (Hlit _ _ _ example_prefix_lexes example_literal_literal).
  - apply (Hparse _ squeeze example_doc squeeze_ws example_doc_json).
Defined.

End Jsonc.

(** ** Lists *)

Lemma omap_cons_match {A B} (f : A → option B) (x : A) (l : list A) :
  omap f (x :: l) = match f x with Some y => y :: omap f l | None => omap f l end.
Proof. reflexivity. Qed.

Lemma omap_snoc {A B} (f : A → option B) (l : list A) (x : A) :
  omap f (l ++ [x]) = omap f l ++ match f x with Some y => [y] | None => [] end.
Proof. rewrite omap_app, omap_cons_match. by destruct (f x). Qed.

Lemma omap_compose {A B C} (f : A → option B) (g : B → option C) (l : list A) :
  omap g (omap f l) = omap (λ x, f x ≫= g) l.
Proof.
  induction l as [|x l IH]; [done|].
  rewrite (omap_cons_match (λ x, f x ≫= g)), (omap_cons_match f).
  destruct (f x) as [y|]; cbn [mbind option_bind]; [|done].
  rewrite omap_cons_match. by destruct (g y); rewrite IH.
Qed.

Lemma omap_nowhere {A B} (g : A → option B) (l : list A) :
  (∀ x, g x = None) → omap g l = [].
Proof.
  intros Hg. induction l as [|x l IH]; [done|]. by rewrite omap_cons_match, Hg.
Qed.

(** A partial function defined at one point only picks at most one element
    of a list without repetition. *)
Lemma omap_single {A B} `{EqDecision A} (g : A → option B) (l : list A) (a : A) (v : B) :
  NoDup l → g a = Some v → (∀ x, x ≠ a → g x = None) →
  omap g l = if decide (a ∈ l) then [v] else [].
Proof.
  intros Hnd Ha Hother. induction Hnd as [|x l Hx Hnd IH]; [done|].
  rewrite omap_cons_match, IH.
  destruct (decide (x = a)) as [->|Hne].
  - rewrite Ha, decide_False by done. rewrite decide_True; [done|by left].
  - rewrite (Hother x Hne). apply decide_ext. rewrite elem_of_cons.
    split; [tauto|]. intros [?|?]; [congruence|done].
Qed.

Lemma removelast_snoc {A} (l : list A) (x : A) : removelast (l ++ [x]) = l.
Proof. by rewrite removelast_app, app_nil_r. Qed.

Lemma last_snoc_list {A} (l : list A) (x d : A) : List.last (l ++ [x]) d = x.
Proof. by rewrite last_last. Qed.

Module AggregatorFacts.

Import Aggregator.

(** The key of [chunksById] an event addresses; [None] for the events
    [processStreamEvent] ignores. *)
Definition event_id (e : BtcaStreamEvent) : option string :=
  match e with
  | ev_text_delta _ => Some textChunkId
  | ev_reasoning_delta _ => Some reasoningChunkId
  | ev_tool_updated callID _ _ => Some callID
  | _ => None
  end.

Definition text_delta_of (e : BtcaStreamEvent) : option string :=
  match e with ev_text_delta delta => Some delta | _ => None end.

Definition reasoning_delta_of (e : BtcaStreamEvent) : option string :=
  match e with ev_reasoning_delta delta => Some delta | _ => None end.

Definition tool_update_of (callID : string) (e : BtcaStreamEvent)
  : option (string * ToolStatus) :=
  match e with
  | ev_tool_updated c tool status =>
      if decide (c = callID) then Some (tool, status) else None
  | _ => None
  end.

(** The chunk a run of same-kind events leaves under its key. *)
Definition text_entry (ds : list string) : option BtcaChunk :=
  match ds with
  | [] => None
  | d :: rest => Some (TextChunk textChunkId (foldl String.app d rest))
  end.

Definition reasoning_entry (ds : list string) : option BtcaChunk :=
  match ds with
  | [] => None
  | d :: rest => Some (ReasoningChunk reasoningChunkId (foldl String.app d rest))
  end.

Definition tool_entry (callID : string) (us : list (string * ToolStatus))
  : option BtcaChunk :=
  match us with
  | [] => None
  | (tool, status) :: rest =>
      Some (ToolChunk callID tool (map_status (default status (last (rest.*2)))))
  end.

Lemma run_snoc events e st :
  run (events ++ [e]) st =
  let '(us, st1) := run events st in
  let '(u, st2) := processStreamEvent e st1 in
  (us ++ match u with Some d => [d] | None => [] end, st2).
Proof.
  revert st. induction events as [|e' events IH]; intros st.
  - rewrite app_nil_l, run_cons. cbn [run].
    destruct (processStreamEvent e st) as [[d|] st2]; reflexivity.
  - rewrite <-app_comm_cons, !run_cons.
    destruct (processStreamEvent e' st) as [u' st1]. rewrite IH.
    destruct (run events st1) as [us st2].
    destruct (processStreamEvent e st2) as [u st3]. by destruct u'.
Qed.

Lemma final_state_snoc events e :
  final_state (events ++ [e]) = (processStreamEvent e (final_state events)).2.
Proof.
  unfold final_state. rewrite run_snoc.
  destruct (run events initial) as [us st1]. cbn [fst snd].
  by destruct (processStreamEvent e st1).
Qed.

Lemma deltas_snoc events e :
  deltas (events ++ [e]) =
  deltas events ++ match (processStreamEvent e (final_state events)).1 with
                   | Some d => [d] | None => []
                   end.
Proof.
  unfold deltas, final_state. rewrite run_snoc.
  destruct (run events initial) as [us st1]. cbn [fst snd].
  by destruct (processStreamEvent e st1).
Qed.

Lemma set_from_snoc (seen : gset string) (l : list string) (x : string) :
  Collections.set_from seen (l ++ [x]) =
  Collections.set_from seen l ++ (if decide (x ∈ seen ∨ x ∈ l) then [] else [x]).
Proof.
  revert seen. induction l as [|a l IH]; intros seen; simpl.
  - destruct (decide (x ∈ seen)) as [Hx|Hx].
    + rewrite decide_True; [done|by left].
    + rewrite decide_False; [done|]. intros [?|H]; [done|by apply elem_of_nil in H].
  - destruct (decide (a ∈ seen)) as [Ha|Ha].
    + rewrite IH. f_equal. apply decide_ext. rewrite elem_of_cons.
      split; [tauto|]. intros [?|[->|?]]; tauto.
    + rewrite IH. simpl. f_equal. f_equal. apply decide_ext.
      rewrite elem_of_union, elem_of_singleton, elem_of_cons. tauto.
Qed.

Lemma array_from_set_snoc (l : list string) (x : string) :
  Collections.array_from_set (l ++ [x]) =
  Collections.array_from_set l ++ (if decide (x ∈ l) then [] else [x]).
Proof.
  unfold Collections.array_from_set. rewrite set_from_snoc. f_equal.
  apply decide_ext. pose proof (not_elem_of_empty (C:=gset string) x). tauto.
Qed.

Lemma last_snoc_default {A} (l : list A) (x d : A) : default d (last (l ++ [x])) = x.
Proof. by rewrite last_snoc. Qed.

(** What the aggregator holds after a run of events none of which reuses a
    sentinel id. *)
Record summarises (events : list BtcaStreamEvent) (st : AggState) : Prop := {
  sum_text : chunksById st !! textChunkId = text_entry (omap text_delta_of events);
  sum_reasoning :
    chunksById st !! reasoningChunkId = reasoning_entry (omap reasoning_delta_of events);
  sum_tool : ∀ callID, callID ≠ textChunkId → callID ≠ reasoningChunkId →
    chunksById st !! callID = tool_entry callID (omap (tool_update_of callID) events);
  sum_order : chunkOrder st = Collections.array_from_set (omap event_id events);
  sum_dom : ∀ id, is_Some (chunksById st !! id) ↔ id ∈ omap event_id events
}.

Lemma summarises_initial : summarises [] initial.
Proof.
  split; simpl; try done.
  intros id. rewrite lookup_empty, elem_of_nil. split; [by intros [? ?]|done].
Qed.

Lemma text_entry_snoc ds d :
  text_entry (ds ++ [d]) =
  Some (TextChunk textChunkId
          match text_entry ds with
          | Some (TextChunk _ text) => text +:+ d
          | _ => d
          end).
Proof.
  destruct ds as [|d0 ds]; [done|]. simpl. by rewrite foldl_snoc.
Qed.

Lemma reasoning_entry_snoc ds d :
  reasoning_entry (ds ++ [d]) =
  Some (ReasoningChunk reasoningChunkId
          match reasoning_entry ds with
          | Some (ReasoningChunk _ text) => text +:+ d
          | _ => d
          end).
Proof.
  destruct ds as [|d0 ds]; [done|]. simpl. by rewrite foldl_snoc.
Qed.

Lemma tool_entry_snoc callID us tool status :
  tool_entry callID (us ++ [(tool, status)]) =
  Some match tool_entry callID us with
       | Some (ToolChunk id toolName _) => ToolChunk id toolName (map_status status)
       | _ => ToolChunk callID tool (map_status status)
       end.
Proof.
  destruct us as [|[t0 s0] us]; [done|]. simpl.
  by rewrite fmap_app, list_fmap_singleton, last_snoc.
Qed.

Lemma summarises_step events st e :
  summarises events st → ¬ collides e →
  summarises (events ++ [e]) (processStreamEvent e st).2.
Proof.
  intros [Ht Hr Htool Ho Hd] Hnc.
  assert (textChunkId ≠ reasoningChunkId) as Htr by done.
  destruct e as [|delta|delta|callID tool status| |]; simpl.
  1,5,6: split; intros; rewrite ?omap_snoc; simpl; rewrite ?app_nil_r;
    solve [auto | apply Hd].
  - (* text.delta *)
    assert (∀ c, chunksById st !! textChunkId = Some c →
                 ∃ text, c = TextChunk textChunkId text) as Hkind.
    { intros c Hc. rewrite Ht in Hc.
      destruct (omap text_delta_of events); [done|]. injection Hc as <-. eauto. }
    destruct (chunksById st !! textChunkId) as [c|] eqn:Hc.
    + destruct (Hkind c eq_refl) as [text ->].
      split; simpl; intros; rewrite ?omap_snoc; simpl; rewrite ?app_nil_r.
      * rewrite lookup_insert_eq, text_entry_snoc, <-Ht. done.
      * by rewrite lookup_insert_ne.
      * rewrite lookup_insert_ne by done. auto.
      * rewrite array_from_set_snoc, decide_True, app_nil_r; [done|].
        apply Hd. by rewrite Hc.
      * rewrite lookup_insert, elem_of_app, list_elem_of_singleton.
        case_decide as Hid.
        -- subst. split; [by right|by eauto].
        -- rewrite Hd. split; [by left|]. intros [?|?]; [done|]. by subst.
    + split; simpl; intros; rewrite ?omap_snoc; simpl; rewrite ?app_nil_r.
      * rewrite lookup_insert_eq, text_entry_snoc, <-Ht. done.
      * by rewrite lookup_insert_ne.
      * rewrite lookup_insert_ne by done. auto.
      * rewrite array_from_set_snoc, decide_False, Ho; [done|].
        intros Hin. apply Hd in Hin as [? ?]. congruence.
      * rewrite lookup_insert, elem_of_app, list_elem_of_singleton.
        case_decide as Hid.
        -- subst. split; [by right|by eauto].
        -- rewrite Hd. split; [by left|]. intros [?|?]; [done|]. by subst.
  - (* reasoning.delta *)
    assert (∀ c, chunksById st !! reasoningChunkId = Some c →
                 ∃ text, c = ReasoningChunk reasoningChunkId text) as Hkind.
    { intros c Hc. rewrite Hr in Hc.
      destruct (omap reasoning_delta_of events); [done|]. injection Hc as <-. eauto. }
    destruct (chunksById st !! reasoningChunkId) as [c|] eqn:Hc.
    + destruct (Hkind c eq_refl) as [text ->].
      split; simpl; intros; rewrite ?omap_snoc; simpl; rewrite ?app_nil_r.
      * by rewrite lookup_insert_ne.
      * rewrite lookup_insert_eq, reasoning_entry_snoc, <-Hr. done.
      * rewrite lookup_insert_ne by done. auto.
      * rewrite array_from_set_snoc, decide_True, app_nil_r; [done|].
        apply Hd. by rewrite Hc.
      * rewrite lookup_insert, elem_of_app, list_elem_of_singleton.
        case_decide as Hid.
        -- subst. split; [by right|by eauto].
        -- rewrite Hd. split; [by left|]. intros [?|?]; [done|]. by subst.
    + split; simpl; intros; rewrite ?omap_snoc; simpl; rewrite ?app_nil_r.
      * by rewrite lookup_insert_ne.
      * rewrite lookup_insert_eq, reasoning_entry_snoc, <-Hr. done.
      * rewrite lookup_insert_ne by done. auto.
      * rewrite array_from_set_snoc, decide_False, Ho; [done|].
        intros Hin. apply Hd in Hin as [? ?]. congruence.
      * rewrite lookup_insert, elem_of_app, list_elem_of_singleton.
        case_decide as Hid.
        -- subst. split; [by right|by eauto].
        -- rewrite Hd. split; [by left|]. intros [?|?]; [done|]. by subst.
  - (* tool.updated *)
    simpl in Hnc.
    assert (callID ≠ textChunkId ∧ callID ≠ reasoningChunkId) as [Hn1 Hn2] by tauto.
    assert (∀ c, chunksById st !! callID = Some c →
                 ∃ toolName s, c = ToolChunk callID toolName s) as Hkind.
    { intros c Hc. rewrite Htool in Hc by done.
      destruct (omap (tool_update_of callID) events) as [|[t0 s0] us]; [done|].
      injection Hc as <-. eauto. }
    assert (∀ st',
      chunksById st' = <[callID :=
        match chunksById st !! callID with
        | Some (ToolChunk id toolName _) => ToolChunk id toolName (map_status status)
        | _ => ToolChunk callID tool (map_status status)
        end]> (chunksById st) →
      chunkOrder st' = chunkOrder st ++
        (if decide (callID ∈ omap event_id events) then [] else [callID]) →
      summarises (events ++ [ev_tool_updated callID tool status]) st') as Hgoal.
    { intros st' Hmap Hord. split; rewrite ?Hmap, ?Hord.
      * rewrite omap_snoc; simpl. rewrite app_nil_r. by rewrite lookup_insert_ne.
      * rewrite omap_snoc; simpl. rewrite app_nil_r. by rewrite lookup_insert_ne.
      * intros id H1 H2. rewrite omap_snoc; simpl. rewrite lookup_insert.
        destruct (decide (callID = id)) as [->|Hid].
        -- rewrite tool_entry_snoc, <-Htool by done. done.
        -- rewrite app_nil_r. auto.
      * rewrite omap_snoc; simpl. by rewrite array_from_set_snoc, Ho.
      * intros id. rewrite omap_snoc; simpl.
        rewrite lookup_insert, elem_of_app, list_elem_of_singleton.
        destruct (decide (callID = id)) as [->|Hid].
        -- split; [by right|by eauto].
        -- rewrite Hd. split; [by left|]. intros [?|?]; [done|]. by subst. }
    destruct (chunksById st !! callID) as [c|] eqn:Hc.
    + destruct (Hkind c eq_refl) as (toolName & s & ->). apply Hgoal; simpl.
      * done.
      * rewrite decide_True, app_nil_r; [done|]. apply Hd. by rewrite Hc.
    + apply Hgoal; simpl.
      * done.
      * rewrite decide_False; [done|]. intros Hin. apply Hd in Hin as [? ?]. congruence.
Qed.

Lemma summarises_run events :
  Forall (λ e, ¬ collides e) events → summarises events (final_state events).
Proof.
  induction events as [|e events IH] using rev_ind; intros Hall.
  - apply summarises_initial.
  - apply Forall_app in Hall as [Hall He]. apply Forall_cons in He as [He _].
    rewrite final_state_snoc. by apply summarises_step; [apply IH|].
Qed.


(** The invariant every run keeps, collisions or not. *)
Record resolves (st : AggState) (l : list ChunkObj) : Prop := {
  res_order : ∀ id, id ∈ chunkOrder st ↔ is_Some (chunksById st !! id);
  res_ids : ∀ id c, chunksById st !! id = Some c → chunk_id c = id;
  res_client : o_id <$> l = Some <$> chunkOrder st
}.

Lemma resolves_push st l id c :
  resolves st l → chunk_id c = id →
  resolves (set_and_push id c st) (l ++ [to_obj c]).
Proof.
  intros [Ho Hi Hc] Hid. split; simpl.
  - intros id'. rewrite elem_of_app, list_elem_of_singleton, lookup_insert, Ho.
    destruct (decide (id = id')) as [->|Hne]; [split; eauto|].
    split; [by intros [?|?]|by left].
  - intros id' c'. rewrite lookup_insert. case_decide; [|by auto].
    intros [= <-]. by subst.
  - rewrite !fmap_app, Hc. simpl. do 2 f_equal. rewrite <-Hid. by destruct c.
Qed.

Lemma resolves_mutate st l id c patch :
  resolves st l → is_Some (chunksById st !! id) → chunk_id c = id → o_id patch = None →
  resolves (mutate id c st)
           ((λ o, if decide (o_id o = Some id) then spread o patch else o) <$> l).
Proof.
  intros [Ho Hi Hc] Hsome Hid Hpatch. split; simpl.
  - intros id'. rewrite lookup_insert, Ho.
    destruct (decide (id = id')) as [->|Hne]; [split; eauto|done].
  - intros id' c'. rewrite lookup_insert. case_decide; [|by auto].
    intros [= <-]. by subst.
  - rewrite <-Hc, <-list_fmap_compose. apply list_fmap_ext. intros i o _. simpl.
    case_decide; [|done]. simpl. by rewrite Hpatch.
Qed.

Lemma resolves_step st l e :
  resolves st l →
  resolves (processStreamEvent e st).2
           (from_option (apply_delta l) l (processStreamEvent e st).1).
Proof.
  intros Hres. destruct e as [|delta|delta|callID tool status| |]; simpl; try done.
  - destruct (chunksById st !! textChunkId) as [c|] eqn:Hc;
      [destruct c|]; simpl; try (by apply resolves_push).
    apply resolves_mutate; [done|by rewrite Hc| |done].
    by apply (res_ids _ _ Hres) in Hc.
  - destruct (chunksById st !! reasoningChunkId) as [c|] eqn:Hc;
      [destruct c|]; simpl; try (by apply resolves_push).
    apply resolves_mutate; [done|by rewrite Hc| |done].
    by apply (res_ids _ _ Hres) in Hc.
  - destruct (chunksById st !! callID) as [c|] eqn:Hc;
      [destruct c|]; simpl; try (by apply resolves_push).
    apply resolves_mutate; [done|by rewrite Hc| |done].
    by apply (res_ids _ _ Hres) in Hc.
Qed.

Lemma resolves_run events : resolves (final_state events) (replay (deltas events)).
Proof.
  induction events as [|e events IH] using rev_ind.
  - split; simpl; [|done..]. intros id. rewrite elem_of_nil, lookup_empty.
    split; [done|by intros [? ?]].
  - rewrite final_state_snoc, deltas_snoc. unfold replay in *. rewrite foldl_app.
    pose proof (resolves_step _ _ e IH) as H.
    by destruct (processStreamEvent e (final_state events)).1.
Qed.

(** A run with every kind of event in it, interleaved. *)
Definition example_events : list BtcaStreamEvent :=
  [ ev_meta; ev_text_delta "Hel"; ev_tool_updated "call_1" "grep" status_pending;
    ev_reasoning_delta "hm"; ev_text_delta "lo";
    ev_tool_updated "call_1" "read" status_error; ev_done ].

Lemma example_events_no_collision : Forall (λ e, ¬ collides e) example_events.
Proof.
  unfold example_events. repeat constructor; simpl; try tauto;
    intros [H|H]; discriminate H.
Defined.

Lemma text_entry_concat ds :
  text_entry ds =
  match ds with
  | [] => None
  | nonempty => Some (TextChunk textChunkId (String.concat "" nonempty))
  end.
Proof.
  destruct ds as [|d rest]; [done|]. simpl.
  rewrite foldl_app_concat. destruct rest; [by rewrite app_empty_r|done].
Qed.

Lemma reasoning_entry_concat ds :
  reasoning_entry ds =
  match ds with
  | [] => None
  | nonempty => Some (ReasoningChunk reasoningChunkId (String.concat "" nonempty))
  end.
Proof.
  destruct ds as [|d rest]; [done|]. simpl.
  rewrite foldl_app_concat. destruct rest; [by rewrite app_empty_r|done].
Qed.

(** Text and reasoning deltas accumulate whatever arrives in between.  When
    no tool event reuses a sentinel id, the text chunk holds the concatenation
    of all the [text.delta] payloads of the run, in arrival order, and the
    reasoning chunk that of all the [reasoning.delta] payloads; a kind of
    delta that never arrived has no chunk. *)
Theorem text_accumulates_across_interleaving (events : list BtcaStreamEvent) :
  Forall (λ e, ¬ collides e) events →
  chunksById (final_state events) !! textChunkId =
    match omap text_delta_of events with
    | [] => None
    | ds => Some (TextChunk textChunkId (String.concat "" ds))
    end
  ∧ chunksById (final_state events) !! reasoningChunkId =
    match omap reasoning_delta_of events with
    | [] => None
    | ds => Some (ReasoningChunk reasoningChunkId (String.concat "" ds))
    end.
Proof.
  intros Hall. destruct (summarises_run events Hall) as [Ht Hr _ _ _].
  rewrite Ht, Hr, text_entry_concat, reasoning_entry_concat.
  split; [by destruct (omap text_delta_of events)
         |by destruct (omap reasoning_delta_of events)].
Qed.

Lemma text_accumulates_across_interleaving_witness :
  chunksById (final_state example_events) !! textChunkId =
    Some (TextChunk textChunkId "Hello")
  ∧ chunksById (final_state example_events) !! reasoningChunkId =
    Some (ReasoningChunk reasoningChunkId "hm").
Proof.
  exact (text_accumulates_across_interleaving example_events
           example_events_no_collision).
Defined.

(** A tool call keeps its first name and takes its last status, whatever
    arrives in between.  When no tool event reuses a sentinel id, the chunk
    stored for a call id has the tool name of the first [tool.updated] event
    with that id and the mapped status of the last one; a call id that never
    arrived has no chunk. *)
Theorem tool_chunk_first_name_last_status
    (events : list BtcaStreamEvent) (callID : string) :
  Forall (λ e, ¬ collides e) events →
  callID ≠ textChunkId → callID ≠ reasoningChunkId →
  chunksById (final_state events) !! callID =
    match omap (tool_update_of callID) events with
    | [] => None
    | (tool, status) :: rest =>
        Some (ToolChunk callID tool (map_status (default status (last (rest.*2)))))
    end.
Proof.
  intros Hall H1 H2. destruct (summarises_run events Hall) as [_ _ Htool _ _].
  by rewrite Htool.
Qed.

Lemma tool_chunk_first_name_last_status_witness :
  chunksById (final_state example_events) !! "call_1" =
    Some (ToolChunk "call_1" "grep" completed).
Proof.
  apply (tool_chunk_first_name_last_status example_events "call_1"
           example_events_no_collision); discriminate.
Defined.

(** The chunk order is the order of first appearance.  When no tool event
    reuses a sentinel id, [chunkOrder] lists the keys the events address
    (the text sentinel, the reasoning sentinel, the call ids), each once, in
    the order in which they first arrived. *)
Theorem chunk_order_is_first_appearance (events : list BtcaStreamEvent) :
  Forall (λ e, ¬ collides e) events →
  chunkOrder (final_state events) =
    Collections.array_from_set (omap event_id events).
Proof. intros Hall. by destruct (summarises_run events Hall). Qed.

Lemma chunk_order_is_first_appearance_witness :
  chunkOrder (final_state example_events) =
    [textChunkId; "call_1"; reasoningChunkId].
Proof.
  apply (chunk_order_is_first_appearance example_events
           example_events_no_collision).
Defined.

(** Whatever the events are, sentinel collisions included: an id is in
    [chunkOrder] exactly when [chunksById] has a chunk under it, so the
    non-null assertion of [chunkOrder.map((id) => chunksById.get(id)!)] never
    meets [undefined]; the chunk stored under a key carries that key as its
    id; and the list the client builds from the deltas has the same ids in
    the same order as [chunkOrder]. *)
Theorem chunk_ids_always_resolve (events : list BtcaStreamEvent) :
  (∀ id, id ∈ chunkOrder (final_state events)
         ↔ is_Some (chunksById (final_state events) !! id))
  ∧ (∀ id c, chunksById (final_state events) !! id = Some c → chunk_id c = id)
  ∧ o_id <$> replay (deltas events) = Some <$> chunkOrder (final_state events).
Proof. by destruct (resolves_run events). Qed.

(** The run [example_events] replayed by the client
    ([Aggregator.replay_matches_aggregator] at a concrete input). *)
Lemma replay_matches_aggregator_witness :
  Some <$> replay (deltas example_events) =
    (fmap to_obj) <$> chunk_list (final_state example_events)
  ∧ NoDup (chunkOrder (final_state example_events)).
Proof.
  exact (replay_matches_aggregator example_events example_events_no_collision).
Defined.

End AggregatorFacts.

(** ** Event-stream framing

    The read loops of the [POST] handler
    ([apps/chat-web/src/routes/api/sessions/[sessionId]/chat/+server.ts]) and
    of [sendMessage] ([apps/chat-web/src/routes/+page.svelte]) cut the byte
    stream into lines and the lines into events with the same code.  Text
    is a list of UTF-16 code units, as in [Jsonc]; the decoder is run in
    streaming mode, so a read is modelled by the text it decodes to. *)
Module Stream.

Import Aggregator.

Definition text : Type := list N.

Definition line_feed : N := 10.

(** The literal ['data: ']. *)
Definition data_prefix : text := Jsonc.codes "data: ".

(** [buffer.split('\n')]: the pieces between line feeds; never empty. *)
Fixpoint split_lines (s : text) : list text :=
  match s with
  | [] => [[]]
  | c :: rest =>
      if (c =? line_feed)%N then [] :: split_lines rest
      else match split_lines rest with
           | line :: lines => (c :: line) :: lines
           | [] => [[c]]
           end
  end.

(** [line.startsWith(p)]. *)
Fixpoint starts_with (p s : text) : bool :=
  match p, s with
  | [], _ => true
  | a :: p', b :: s' => (a =? b)%N && starts_with p' s'
  | _ :: _, [] => false
  end.

(** A string is truthy when it is not empty. *)
Definition truthy (s : text) : bool :=
  match s with [] => false | _ => true end.

(** The [for (const line of lines)] loop, with the payloads that reach the
    [try] block in order.  [eventData] is the loop's variable. *)
Fixpoint scan_lines (eventData : text) (lines : list text) : list text :=
  match lines with
  | [] => []
  | line :: rest =>
      if starts_with data_prefix line then scan_lines (drop 6 line) rest
      else if bool_decide (line = []) && truthy eventData then
        eventData :: scan_lines [] rest
      else scan_lines eventData rest
  end.

(** One turn of the [while (true)] loop after a read that was not [done]:
    the payloads dispatched and the new [buffer].  [lines.pop()] takes the
    last piece; [let eventData = ''] starts every turn afresh. *)
Definition read_step (buffer value : text) : list text * text :=
  let lines := split_lines (buffer ++ value) in
  (scan_lines [] (removelast lines), List.last lines []).

(** The whole loop over the reads that arrive before [done]: the payloads
    dispatched, in order.  What is left in [buffer] at [done] is dropped. *)
Fixpoint read_loop (buffer : text) (reads : list text) : list text :=
  match reads with
  | [] => []
  | value :: rest =>
      let '(payloads, buffer') := read_step buffer value in
      payloads ++ read_loop buffer' rest
  end.

(** An event as the sender writes it: [`data: ${payload}\n\n`]. *)
Definition frame (payload : text) : text :=
  data_prefix ++ payload ++ [line_feed; line_feed].

(** A payload the sender can frame: [JSON.stringify] output is not empty and
    has no raw line feed. *)
Definition framable (payload : text) : Prop :=
  payload ≠ [] ∧ line_feed ∉ payload.

Section Server.

(** [JSON.parse(eventData) as BtcaStreamEvent]; [None] when the [try] block
    throws before [processStreamEvent] has changed anything. *)
Variable JSON_parse : text → option BtcaStreamEvent.

(** The [try] block of the handler for one payload. *)
Definition dispatch (eventData : text) (st : AggState)
  : list ChunkUpdate * AggState :=
  match JSON_parse eventData with
  | Some event =>
      let '(u, st') := processStreamEvent event st in
      (match u with Some d => [d] | None => [] end, st')
  | None => ([], st)
  end.

(** The handler's loops with the aggregator's containers threaded through:
    the updates enqueued and the containers at the end. *)
Fixpoint for_lines (eventData : text) (lines : list text) (st : AggState)
  : list ChunkUpdate * AggState :=
  match lines with
  | [] => ([], st)
  | line :: rest =>
      if starts_with data_prefix line then for_lines (drop 6 line) rest st
      else if bool_decide (line = []) && truthy eventData then
        let '(us, st1) := dispatch eventData st in
        let '(us', st2) := for_lines [] rest st1 in
        (us ++ us', st2)
      else for_lines eventData rest st
  end.

Fixpoint while_reads (buffer : text) (reads : list text) (st : AggState)
  : list ChunkUpdate * AggState :=
  match reads with
  | [] => ([], st)
  | value :: rest =>
      let lines := split_lines (buffer ++ value) in
      let '(us, st1) := for_lines [] (removelast lines) st in
      let '(us', st2) := while_reads (List.last lines []) rest st1 in
      (us ++ us', st2)
  end.

End Server.

(** *** Facts about the framing *)

Lemma split_lines_nonempty s : split_lines s ≠ [].
Proof. destruct s as [|c s]; simpl; [done|]. case_match; [done|]. by case_match. Qed.

Lemma split_lines_plain s : line_feed ∉ s → split_lines s = [s].
Proof.
  induction s as [|c s IH]; [done|]. intros [Hc Hs]%not_elem_of_cons. simpl.
  rewrite IH by done. case_match eqn:E; [|done]. by apply N.eqb_eq in E.
Qed.

Lemma split_lines_line l s :
  line_feed ∉ l → split_lines (l ++ line_feed :: s) = l :: split_lines s.
Proof.
  induction l as [|c l IH]; [done|]. intros [Hc Hl]%not_elem_of_cons. simpl.
  rewrite IH by done. case_match eqn:E; [|done]. by apply N.eqb_eq in E.
Qed.

Lemma data_prefix_plain : line_feed ∉ data_prefix.
Proof. vm_compute. intros H. repeat (apply elem_of_cons in H as [H|H]; [done|]).
  by apply elem_of_nil in H. Qed.

Lemma split_lines_frame p s :
  line_feed ∉ p →
  split_lines (frame p ++ s) = (data_prefix ++ p) :: [] :: split_lines s.
Proof.
  intros Hp. unfold frame. rewrite <-!app_assoc.
  change ([line_feed; line_feed] ++ s) with (line_feed :: line_feed :: s).
  rewrite (app_assoc data_prefix p). rewrite split_lines_line.
  - reflexivity.
  - rewrite elem_of_app. intros [H|H]; [by apply data_prefix_plain|done].
Qed.

Lemma split_lines_frames ps s :
  Forall framable ps →
  split_lines (concat (frame <$> ps) ++ s) =
  (ps ≫= λ p, [data_prefix ++ p; []]) ++ split_lines s.
Proof.
  induction 1 as [|p ps [_ Hp] _ IH]; [done|].
  rewrite fmap_cons. cbn [concat]. rewrite <-app_assoc, split_lines_frame by done.
  by rewrite IH.
Qed.

Lemma starts_with_app p s : starts_with p (p ++ s) = true.
Proof. induction p as [|a p IH]; [done|]. simpl. by rewrite N.eqb_refl. Qed.

Lemma scan_lines_frames eventData ps :
  Forall framable ps →
  scan_lines eventData (ps ≫= λ p, [data_prefix ++ p; []]) = ps.
Proof.
  intros Hall. revert eventData.
  induction Hall as [|p ps [Hne _] _ IH]; intros eventData; [done|].
  cbn [mbind list_bind app scan_lines]. rewrite starts_with_app.
  change 6 with (length data_prefix). rewrite drop_app_length.
  cbn [starts_with data_prefix Jsonc.codes]. cbn [bool_decide]. simpl.
  destruct p as [|c p]; [done|]. simpl. by rewrite IH.
Qed.


Lemma read_step_aligned (buffer value rest : text) (ps : list text) :
  Forall framable ps → line_feed ∉ rest →
  buffer ++ value = concat (frame <$> ps) ++ rest →
  read_step buffer value = (ps, rest).
Proof.
  intros Hps Hrest Heq. unfold read_step. rewrite Heq.
  rewrite split_lines_frames, split_lines_plain by done.
  by rewrite removelast_snoc, last_snoc_list, scan_lines_frames.
Qed.

(** The reads [value :: ...] that arrive while [buffer] holds an unfinished
    line carry the payloads [ps ++ ...] without a cut between the line feed
    that ends a [data:] line and the one that ends the event: every read
    completes the frames of [ps] and leaves an unfinished line [rest]. *)
Inductive aligned : text → list text → list text → Prop :=
| aligned_done buffer : aligned buffer [] []
| aligned_read buffer value reads ps rest qs :
    Forall framable ps → line_feed ∉ rest →
    buffer ++ value = concat (frame <$> ps) ++ rest →
    aligned rest reads qs →
    aligned buffer (value :: reads) (ps ++ qs).

Lemma run_app (es1 es2 : list BtcaStreamEvent) (st : AggState) :
  run (es1 ++ es2) st =
  let '(us1, st1) := run es1 st in
  let '(us2, st2) := run es2 st1 in
  (us1 ++ us2, st2).
Proof.
  revert st. induction es1 as [|e es1 IH]; intros st.
  - rewrite app_nil_l. cbn [run]. by destruct (run es2 st).
  - rewrite <-app_comm_cons, !run_cons.
    destruct (processStreamEvent e st) as [u st1]. rewrite IH.
    destruct (run es1 st1) as [us1 st2]. destruct (run es2 st2) as [us2 st3].
    by destruct u.
Qed.

Lemma for_lines_run JSON_parse eventData lines st :
  for_lines JSON_parse eventData lines st =
  run (omap JSON_parse (scan_lines eventData lines)) st.
Proof.
  revert eventData st. induction lines as [|line lines IH]; intros eventData st;
    [done|].
  cbn [for_lines scan_lines]. destruct (starts_with data_prefix line); [apply IH|].
  destruct (bool_decide (line = []) && truthy eventData); [|apply IH].
  rewrite omap_cons_match. unfold dispatch.
  destruct (JSON_parse eventData) as [event|].
  - rewrite run_cons. destruct (processStreamEvent event st) as [u st1].
    rewrite IH. destruct (run _ st1) as [us st2]. by destruct u.
  - rewrite IH. by destruct (run _ st).
Qed.

Definition example_reads : list text :=
  [ frame (Jsonc.codes "{}") ++ take 3 (frame (Jsonc.codes "[1]"));
    drop 3 (frame (Jsonc.codes "[1]")) ].

(** The read loop finds every event of a stream that is cut anywhere except
    between the two line feeds that end an event.  When every read, appended
    to the unfinished line the previous one left, is a sequence of whole
    frames [data: payload], each followed by its blank line, and then an
    unfinished line, the payloads that reach the [try] block are exactly the
    payloads framed, in order. *)
Theorem aligned_reads_dispatch_every_frame
    (buffer : text) (reads payloads : list text) :
  aligned buffer reads payloads → read_loop buffer reads = payloads.
Proof.
  induction 1 as [|buffer value reads ps rest qs Hps Hrest Heq _ IH]; [done|].
  cbn [read_loop]. rewrite (read_step_aligned _ _ rest ps) by done.
  by rewrite IH.
Qed.

Lemma aligned_reads_dispatch_every_frame_witness :
  read_loop [] example_reads = [Jsonc.codes "{}"; Jsonc.codes "[1]"].
Proof.
  apply (aligned_reads_dispatch_every_frame [] example_reads).
  apply (aligned_read [] _ _ [Jsonc.codes "{}"] (take 3 (frame (Jsonc.codes "[1]")))
           [Jsonc.codes "[1]"]).
  - apply Forall_cons; split; [split; [done|compute_done]|constructor].
  - compute_done.
  - reflexivity.
  - apply (aligned_read _ _ _ [Jsonc.codes "[1]"] [] []).
    + apply Forall_cons; split; [split; [done|compute_done]|constructor].
    + compute_done.
    + reflexivity.
    + constructor.
Defined.

(** An event whose two final line feeds arrive in different reads is lost.
    The read loop starts every read with an empty [eventData], so when one
    read ends right after the line feed of a [data:] line, the blank line
    that the next read brings dispatches nothing; the same frame in one read
    is dispatched, and a frame whose last line feed never arrives is dropped
    with the buffer. *)
Theorem frame_cut_before_blank_line_is_lost (payload : text) :
  framable payload →
  read_loop [] [frame payload] = [payload]
  ∧ read_loop [] [data_prefix ++ payload ++ [line_feed]; [line_feed]] = []
  ∧ read_loop [] [data_prefix ++ payload ++ [line_feed]] = [].
Proof.
  intros [Hne Hlf].
  assert (line_feed ∉ data_prefix ++ payload) as Hline.
  { rewrite elem_of_app. intros [H|H]; [by apply data_prefix_plain|done]. }
  assert (read_step [] (data_prefix ++ payload ++ [line_feed]) = ([], [])) as Hcut.
  { unfold read_step. rewrite app_nil_l, app_assoc, split_lines_line by done.
    cbn [split_lines removelast List.last scan_lines].
    by rewrite starts_with_app. }
  split_and!.
  - cbn [read_loop].
    rewrite (read_step_aligned [] (frame payload) [] [payload]); [done| | |].
    + by repeat constructor.
    + apply not_elem_of_nil.
    + simpl. by rewrite !app_nil_r.
  - cbn [read_loop]. by rewrite Hcut.
  - cbn [read_loop]. by rewrite Hcut.
Qed.

Lemma frame_cut_before_blank_line_is_lost_witness :
  read_loop [] [frame (Jsonc.codes "{}")] = [Jsonc.codes "{}"]
  ∧ read_loop []
      [data_prefix ++ Jsonc.codes "{}" ++ [line_feed]; [line_feed]] = []
  ∧ read_loop [] [data_prefix ++ Jsonc.codes "{}" ++ [line_feed]] = [].
Proof.
  apply (frame_cut_before_blank_line_is_lost (Jsonc.codes "{}")).
  split; [done|compute_done].
Defined.

(** The handler's read loop is the aggregator run over the payloads that
    parse.  Whatever the reads are, the updates the handler enqueues and the
    containers it ends with are those of [processStreamEvent] applied, in
    order, to the events parsed from the payloads the framing dispatches; a
    payload on which the [try] block throws is skipped. *)
Theorem read_loop_runs_the_aggregator
    (JSON_parse : text → option BtcaStreamEvent)
    (buffer : text) (reads : list text) (st : AggState) :
  while_reads JSON_parse buffer reads st =
  run (omap JSON_parse (read_loop buffer reads)) st.
Proof.
  revert buffer st. induction reads as [|value reads IH]; intros buffer st; [done|].
  cbn [while_reads read_loop]. unfold read_step.
  rewrite for_lines_run, omap_app, run_app.
  destruct (run _ st) as [us st1]. by rewrite IH.
Qed.

End Stream.

(** ** Mentions

    [parseMentions] of the chat page
    ([apps/chat-web/src/routes/+page.svelte]) and the expression
    [msg.content.replace(/@\w+/g, '').trim()] of [buildConversationHistory]
    ([apps/chat-web/src/routes/api/sessions/[sessionId]/chat/+server.ts]).
    Text is a list of UTF-16 code units, as in [Jsonc]. *)
Module Mentions.

Definition text : Type := list N.

Definition at_sign : N := 64.

(** [\w] without the [i] and [u] flags: [A-Za-z0-9_]. *)
Definition is_word (c : N) : bool :=
  ((48 <=? c) && (c <=? 57) || (65 <=? c) && (c <=? 90) || (c =? 95)
   || (97 <=? c) && (c <=? 122))%N.

(** Whether the character after the current one is a word character: what
    [\w+] needs to match at all. *)
Definition next_is_word (rest : text) : bool :=
  match rest with
  | c :: _ => is_word c
  | [] => false
  end.

(** A match of [/@\w+/] starts here. *)
Definition starts_mention (c : N) (rest : text) : bool :=
  (c =? at_sign)%N && next_is_word rest.

(** [s.replace(/@\w+/g, '')].  The matches are found from left to right and
    do not overlap; a match is an [@] followed by the longest run of word
    characters.  [in_match] says that the previous character belonged to a
    match, which the current one extends when it is a word character. *)
Fixpoint strip_from (in_match : bool) (s : text) : text :=
  match s with
  | [] => []
  | c :: rest =>
      if in_match && is_word c then strip_from true rest
      else if starts_mention c rest then strip_from true rest
      else c :: strip_from false rest
  end.

Definition strip_mentions : text → text := strip_from false.

(** The [while ((match = mentionRegex.exec(input)) !== null)] loop: the
    captures [match[1]] in order.  [name] is the capture of the match in
    progress. *)
Fixpoint captures_from (name : option text) (s : text) : list text :=
  match s with
  | [] => match name with Some n => [n] | None => [] end
  | c :: rest =>
      match name with
      | Some n =>
          if is_word c then captures_from (Some (n ++ [c])) rest
          else n :: (if starts_mention c rest then captures_from (Some []) rest
                     else captures_from None rest)
      | None =>
          if starts_mention c rest then captures_from (Some []) rest
          else captures_from None rest
      end
  end.

Definition captures : text → list text := captures_from None.

(** [[...new Set(xs)]]: the first occurrence of every element, in order. *)
Fixpoint set_from (seen : list text) (xs : list text) : list text :=
  match xs with
  | [] => []
  | x :: rest =>
      if decide (x ∈ seen) then set_from seen rest
      else x :: set_from (x :: seen) rest
  end.

Definition array_from_set : list text → list text := set_from [].

Record Parsed := {
  resources : list text;
  question : text
}.

(** [parseMentions(input)]. *)
Definition parseMentions (input : text) : Parsed :=
  {| resources := array_from_set (captures input);
     question := Jsonc.trim (strip_mentions input) |}.

(** *** Facts *)

(** An [@] directly followed by a word character occurs in [s]. *)
Fixpoint has_mention (s : text) : bool :=
  match s with
  | [] => false
  | c :: rest => starts_mention c rest || has_mention rest
  end.

Lemma strip_from_clean in_match s :
  has_mention s = false → next_is_word s = false ∨ in_match = false →
  strip_from in_match s = s.
Proof.
  revert in_match. induction s as [|c rest IH]; intros in_match Hs Hw; [done|].
  simpl in *. apply orb_false_iff in Hs as [Hc Hrest]. rewrite Hc.
  assert (in_match && is_word c = false) as ->.
  { destruct Hw as [->| ->]; [apply andb_false_r|done]. }
  f_equal. apply IH; [done|by right].
Qed.

Lemma next_is_word_strip_from s :
  next_is_word (strip_from true s) = false.
Proof.
  induction s as [|c rest IH]; [done|]. simpl.
  destruct (is_word c) eqn:Hc; [done|].
  destruct (starts_mention c rest); [done|]. simpl. done.
Qed.

Lemma next_is_word_strip s :
  next_is_word s = false → next_is_word (strip_from false s) = false.
Proof.
  destruct s as [|d rest]; [done|]. simpl. intros Hd.
  destruct (starts_mention d rest); [apply next_is_word_strip_from|done].
Qed.

Lemma strip_from_no_mention in_match s :
  has_mention (strip_from in_match s) = false.
Proof.
  revert in_match. induction s as [|c rest IH]; intros in_match; [done|]. simpl.
  destruct (in_match && is_word c); [apply IH|].
  destruct (starts_mention c rest) eqn:Hc; [apply IH|].
  simpl. rewrite IH, orb_false_r.
  unfold starts_mention in *. apply andb_false_iff in Hc as [->|Hc]; [done|].
  by rewrite next_is_word_strip, andb_false_r.
Qed.

(** Stripping leaves no mention behind, so it is idempotent. *)
Lemma strip_mentions_idempotent s :
  strip_mentions (strip_mentions s) = strip_mentions s.
Proof.
  unfold strip_mentions. apply strip_from_clean; [|by right].
  apply strip_from_no_mention.
Qed.

Lemma captures_from_clean s :
  has_mention s = false → captures_from None s = [].
Proof.
  induction s as [|c rest IH]; [done|]. simpl.
  intros [-> Hrest]%orb_false_iff. by apply IH.
Qed.

Lemma has_mention_app_l s1 s2 :
  has_mention (s1 ++ s2) = false → has_mention s1 = false.
Proof.
  induction s1 as [|c s1 IH]; [done|]. simpl.
  intros [Hc Hrest]%orb_false_iff. rewrite IH by done. rewrite orb_false_r.
  unfold starts_mention in *. apply andb_false_iff in Hc as [->|Hc]; [done|].
  destruct s1; [apply andb_false_r|]. simpl in *. by rewrite Hc, andb_false_r.
Qed.

Lemma has_mention_app_r s1 s2 :
  has_mention (s1 ++ s2) = false → has_mention s2 = false.
Proof.
  induction s1 as [|c s1 IH]; [done|]. simpl.
  intros [_ Hrest]%orb_false_iff. by apply IH.
Qed.

Lemma skip_whitespace_suffix s :
  ∃ ws, s = ws ++ Jsonc.skip_whitespace s.
Proof.
  induction s as [|c s [ws IH]]; [by exists []|]. simpl.
  destruct (Jsonc.is_whitespace c).
  - exists (c :: ws). simpl. by rewrite <-IH.
  - by exists [].
Qed.

Lemma trim_is_infix s : ∃ before after, s = before ++ Jsonc.trim s ++ after.
Proof.
  unfold Jsonc.trim, Jsonc.trim_end, Jsonc.trim_start.
  destruct (skip_whitespace_suffix s) as [ws1 H1].
  destruct (skip_whitespace_suffix (reverse (Jsonc.skip_whitespace s))) as [ws2 H2].
  exists ws1, (reverse ws2). rewrite H1 at 1. f_equal.
  apply (inj reverse). rewrite reverse_app, !reverse_involutive. exact H2.
Qed.

Lemma has_mention_trim s :
  has_mention s = false → has_mention (Jsonc.trim s) = false.
Proof.
  intros H. destruct (trim_is_infix s) as (before & after & Heq).
  rewrite Heq in H. apply has_mention_app_r, has_mention_app_l in H. done.
Qed.

Lemma skip_whitespace_idempotent s :
  Jsonc.skip_whitespace (Jsonc.skip_whitespace s) = Jsonc.skip_whitespace s.
Proof.
  induction s as [|c s IH]; [done|]. simpl.
  destruct (Jsonc.is_whitespace c) eqn:Hc; [done|]. simpl. by rewrite Hc.
Qed.

Lemma skip_whitespace_head s c rest :
  Jsonc.skip_whitespace s = c :: rest → Jsonc.is_whitespace c = false.
Proof.
  induction s as [|d s IH]; [done|]. simpl.
  destruct (Jsonc.is_whitespace d) eqn:Hd; [done|]. by intros [= <- _].
Qed.

Lemma skip_whitespace_solid c s :
  Jsonc.is_whitespace c = false → Jsonc.skip_whitespace (c :: s) = c :: s.
Proof. intros H. simpl. by rewrite H. Qed.

(** [trim] is idempotent. *)
Lemma trim_idempotent s : Jsonc.trim (Jsonc.trim s) = Jsonc.trim s.
Proof.
  unfold Jsonc.trim, Jsonc.trim_end, Jsonc.trim_start.
  set (a := Jsonc.skip_whitespace s).
  set (b := Jsonc.skip_whitespace (reverse a)).
  assert (Jsonc.skip_whitespace (reverse b) = reverse b) as Hfront.
  { destruct (reverse b) as [|c r] eqn:Hr; [done|].
    apply skip_whitespace_solid.
    (* the first character of [reverse b] is the first of [a] *)
    destruct (skip_whitespace_suffix (reverse a)) as [ws Hws]. fold b in Hws.
    apply (f_equal reverse) in Hws. rewrite reverse_involutive, reverse_app in Hws.
    rewrite Hr in Hws. simpl in Hws.
    unfold a in Hws. by apply skip_whitespace_head in Hws. }
  rewrite Hfront, reverse_involutive. unfold b.
  by rewrite skip_whitespace_idempotent.
Qed.


(** The capture [n] of a match in [s]: a non-empty run of word characters
    that follows an [@] and is not followed by a word character. *)
Definition occurs (s n : text) : Prop :=
  n ≠ [] ∧ forallb is_word n = true
  ∧ ∃ before after, s = before ++ at_sign :: n ++ after ∧ next_is_word after = false.

(** The capture [n] extends the capture in progress [n0] by the word
    characters [s] starts with. *)
Definition continues (n0 s n : text) : Prop :=
  ∃ w after, n = n0 ++ w ∧ s = w ++ after ∧ forallb is_word w = true
             ∧ next_is_word after = false.

Lemma occurs_cons c s n : occurs s n → occurs (c :: s) n.
Proof.
  intros (Hne & Hw & before & after & -> & Hafter).
  split_and!; [done..|]. by exists (c :: before), after.
Qed.

Lemma continues_start c d rest n :
  (c =? at_sign)%N = true → is_word d = true →
  continues [] (d :: rest) n → occurs (c :: d :: rest) n.
Proof.
  intros ->%N.eqb_eq Hd (w & after & -> & Heq & Hw & Hafter). simpl.
  split_and!; [|done|by exists [], after; rewrite Heq].
  intros ->. simpl in Heq. subst after. simpl in Hafter. congruence.
Qed.

Lemma captures_from_spec name s n :
  n ∈ captures_from name s →
  match name with
  | None => occurs s n
  | Some n0 => continues n0 s n ∨ occurs s n
  end.
Proof.
  revert name. induction s as [|c rest IH]; intros name; simpl.
  - destruct name as [n0|]; [|by intros ?%elem_of_nil].
    intros ->%list_elem_of_singleton. left. exists [], []. by rewrite app_nil_r.
  - assert (n ∈ (if starts_mention c rest then captures_from (Some []) rest
                 else captures_from None rest) → occurs (c :: rest) n) as Hfresh.
    { destruct (starts_mention c rest) eqn:Hc; intros Hin.
      - apply IH in Hin. unfold starts_mention in Hc.
        apply andb_true_iff in Hc as [Hat Hw].
        destruct rest as [|d rest]; [done|]. simpl in Hw.
        destruct Hin as [Hin|Hin]; [by apply continues_start|by apply occurs_cons].
      - apply IH in Hin. by apply occurs_cons. }
    destruct name as [n0|]; [|done].
    destruct (is_word c) eqn:Hc.
    + intros Hin. apply IH in Hin as [(w & after & -> & -> & Hw & Hafter)|Hin].
      * left. exists (c :: w), after. rewrite <-app_assoc. simpl. by rewrite Hc.
      * right. by apply occurs_cons.
    + intros [->|Hin]%elem_of_cons; [|by right; apply Hfresh].
      left. exists [], (c :: rest). by rewrite app_nil_r.
Qed.

Lemma captures_continue n0 w after :
  forallb is_word w = true → next_is_word after = false →
  n0 ++ w ∈ captures_from (Some n0) (w ++ after).
Proof.
  revert n0. induction w as [|c w IH]; intros n0 Hw Hafter.
  - rewrite app_nil_r. simpl. destruct after as [|c rest]; [by left|].
    simpl in *. rewrite Hafter. by left.
  - simpl in *. apply andb_true_iff in Hw as [Hc Hw]. rewrite Hc.
    rewrite (cons_middle c n0 w), app_assoc. by apply IH.
Qed.

(** Every mention of the input is captured, whatever precedes it. *)
Lemma captures_from_complete name s n : occurs s n → n ∈ captures_from name s.
Proof.
  intros (Hne & Hw & before & after & -> & Hafter).
  revert name. induction before as [|c before IH]; intros name.
  - destruct n as [|d n]; [done|]. simpl in Hw.
    apply andb_true_iff in Hw as [Hd Hw].
    pose proof (captures_continue [] (d :: n) after) as Hin. simpl in Hin.
    rewrite Hd in Hin. specialize (Hin Hw Hafter).
    change ([] ++ at_sign :: (d :: n) ++ after) with (at_sign :: d :: n ++ after).
    change (captures_from name (at_sign :: d :: n ++ after)) with
      (match name with
       | Some n0 =>
           n0 :: (if is_word d then captures_from (Some []) (d :: n ++ after)
                  else captures_from None (d :: n ++ after))
       | None =>
           if is_word d then captures_from (Some []) (d :: n ++ after)
           else captures_from None (d :: n ++ after)
       end).
    rewrite Hd. destruct name; [right|]; simpl; by rewrite Hd.
  - simpl. destruct name as [n0|].
    + destruct (is_word c); [apply IH|]. right.
      destruct (starts_mention c _); apply IH.
    + destruct (starts_mention c _); apply IH.
Qed.

Lemma captures_from_some name s : captures_from (Some name) s ≠ [].
Proof.
  revert name. induction s as [|c rest IH]; intros name; simpl; [done|].
  destruct (is_word c); [apply IH|done].
Qed.

Lemma captures_none_iff s : captures s = [] ↔ has_mention s = false.
Proof.
  split; [|apply captures_from_clean]. unfold captures.
  induction s as [|c rest IH]; [done|]. simpl.
  destruct (starts_mention c rest); [|done].
  intros H. by apply captures_from_some in H.
Qed.

Lemma strip_mentions_fixed_iff s : strip_mentions s = s ↔ has_mention s = false.
Proof.
  split.
  - intros <-. apply strip_from_no_mention.
  - intros H. apply strip_from_clean; [done|by right].
Qed.

Lemma elem_of_set_from_list seen xs x :
  x ∈ set_from seen xs ↔ x ∈ xs ∧ x ∉ seen.
Proof.
  revert seen. induction xs as [|a xs IH]; intros seen; simpl.
  - rewrite elem_of_nil. tauto.
  - case_decide as Ha.
    + rewrite IH, elem_of_cons. split; [tauto|]. intros [[->|?] ?]; tauto.
    + rewrite !elem_of_cons, IH, elem_of_cons. split.
      * intros [->|[? ?]]; tauto.
      * intros [[->|?] ?]; [tauto|]. destruct (decide (x = a)); tauto.
Qed.

Lemma NoDup_set_from_list seen xs : NoDup (set_from seen xs).
Proof.
  revert seen. induction xs as [|a xs IH]; intros seen; simpl; [constructor|].
  case_decide; [apply IH|]. constructor; [|apply IH].
  rewrite elem_of_set_from_list, elem_of_cons. tauto.
Qed.

Lemma elem_of_array_from_set_list xs x : x ∈ array_from_set xs ↔ x ∈ xs.
Proof.
  unfold array_from_set. rewrite elem_of_set_from_list.
  pose proof (not_elem_of_nil x). tauto.
Qed.

Lemma array_from_set_list_nil xs : array_from_set xs = [] ↔ xs = [].
Proof.
  split; [|by intros ->]. destruct xs as [|a xs]; [done|]. intros H.
  assert (a ∈ array_from_set (a :: xs)) as Hin
    by (apply elem_of_array_from_set_list; by left).
  rewrite H in Hin. by apply elem_of_nil in Hin.
Qed.

Lemma set_from_app_keeps seen a b :
  NoDup a → (∀ x, x ∈ a → x ∉ seen) → a `prefix_of` set_from seen (a ++ b).
Proof.
  revert seen. induction a as [|x a IH]; intros seen Hnd Hseen.
  - apply prefix_nil.
  - apply NoDup_cons in Hnd as [Hx Hnd]. simpl.
    rewrite decide_False by (apply Hseen; by left).
    apply prefix_cons, IH; [done|].
    intros y Hy [->|Hin]%elem_of_cons; [done|].
    by apply (Hseen y); [right|].
Qed.

(** The question [parseMentions] returns holds no mention any more: parsing
    it again finds no resource and returns the same question. *)
Theorem parsed_question_has_no_mention (input : text) :
  parseMentions (question (parseMentions input)) =
  {| resources := []; question := question (parseMentions input) |}.
Proof.
  unfold parseMentions; simpl.
  assert (has_mention (Jsonc.trim (strip_mentions input)) = false) as Hclean
    by apply has_mention_trim, strip_from_no_mention.
  f_equal.
  - by rewrite (proj2 (captures_none_iff _) Hclean).
  - rewrite (proj2 (strip_mentions_fixed_iff _) Hclean). apply trim_idempotent.
Qed.

(** The resources [parseMentions] returns are the mentions of the input:
    there is no repeated name; the names are exactly the non-empty runs of
    the characters [A-Za-z0-9_] that follow an [@] in the input and end where
    the run of word characters ends; and no resource is returned exactly
    when the input has no [@] directly followed by a word character, in
    which case removing the mentions changes nothing. *)
Theorem mentioned_resources_are_words (input : text) :
  NoDup (resources (parseMentions input))
  ∧ (∀ n, n ∈ resources (parseMentions input) ↔
          n ≠ [] ∧ forallb is_word n = true
          ∧ ∃ before after, input = before ++ at_sign :: n ++ after
                            ∧ next_is_word after = false)
  ∧ (resources (parseMentions input) = [] ↔ has_mention input = false)
  ∧ (resources (parseMentions input) = [] ↔ strip_mentions input = input).
Proof.
  unfold parseMentions; simpl. split_and!.
  - apply NoDup_set_from_list.
  - intros n. rewrite elem_of_array_from_set_list. split.
    + apply (captures_from_spec None).
    + apply captures_from_complete.
  - by rewrite array_from_set_list_nil, captures_none_iff.
  - by rewrite array_from_set_list_nil, captures_none_iff, strip_mentions_fixed_iff.
Qed.

End Mentions.

(** ** Chat sessions

    The session store and [initializeSandbox] of
    [apps/chat-web/src/lib/server/session-manager.ts], and the part of the
    [POST] handler of
    [apps/chat-web/src/routes/api/sessions/[sessionId]/chat/+server.ts] that
    runs before the answer is streamed, with [buildConversationHistory]. *)
Module Chat.

Import Aggregator.

Definition text : Type := list N.

(** A string literal of the source as text. *)
Definition str (s : string) : text := Jsonc.codes s.
Arguments str : simpl never.

Definition truthy (s : text) : bool :=
  match s with [] => false | _ => true end.

(** [parts.join(sep)]. *)
Definition join (sep : text) (parts : list text) : text :=
  match parts with
  | [] => []
  | p :: rest => p ++ concat ((λ q, sep ++ q) <$> rest)
  end.

(** The separator ['\n\n']. *)
Definition blank_line : text := [10; 10]%N.

(** *** Messages *)

Inductive AssistantContent :=
| content_text (content : text)
| content_chunks (chunks : list BtcaChunk).

(** [Message] of [lib/types]; an absent [canceled] is [false]. *)
Inductive Message :=
| user_message (id content : text) (resources : list text)
| assistant_message (id : text) (content : AssistantContent) (canceled : bool)
| system_message (id content : text).

(** The text of a chunk that passes [c.type === 'text']. *)
Definition text_of (c : BtcaChunk) : option text :=
  match c with
  | TextChunk _ t => Some (str t)
  | _ => None
  end.

(** The body of the [for] loop of [buildConversationHistory]: what the
    message pushes onto [historyParts], if anything. *)
Definition history_part (msg : Message) : option text :=
  match msg with
  | user_message _ content _ =>
      let userText := Jsonc.trim (Mentions.strip_mentions content) in
      if truthy userText then Some (str "User: " ++ userText) else None
  | assistant_message _ content canceled =>
      if canceled then None
      else match content with
           | content_text c => Some (str "Assistant: " ++ c)
           | content_chunks chunks =>
               let t := join blank_line (omap text_of chunks) in
               if truthy t then Some (str "Assistant: " ++ t) else None
           end
  | system_message _ _ => None
  end.

(** [buildConversationHistory(messages)]. *)
Definition buildConversationHistory (messages : list Message) : text :=
  join blank_line (omap history_part messages).

(** The template literal of [questionWithHistory]. *)
Definition with_history (history message : text) : text :=
  str "=== CONVERSATION HISTORY ===" ++ [10%N] ++ history ++ [10%N]
    ++ str "=== END HISTORY ===" ++ blank_line ++ str "Current question: "
    ++ message.

(** *** The session store *)

Inductive Status :=
| Pending | Creating | Cloning | Starting | Active | Error | Destroyed.

#[global] Instance Status_eq_dec : EqDecision Status.
Proof. solve_decision. Defined.

(** [String(status)] in a template literal. *)
Definition status_name (s : Status) : text :=
  match s with
  | Pending => str "pending"
  | Creating => str "creating"
  | Cloning => str "cloning"
  | Starting => str "starting"
  | Active => str "active"
  | Error => str "error"
  | Destroyed => str "destroyed"
  end.

(** [ChatSession]; dates are numbers of milliseconds. *)
Record ChatSession := {
  id : text;
  sandboxId : text;
  serverUrl : text;
  messages : list Message;
  threadResources : list text;
  createdAt : N;
  lastActivityAt : N;
  status : Status;
  error : option text
}.

(** What a [throw] carries: an [Error] with its message, or something that
    is not an [Error]. *)
Inductive Thrown :=
| an_error (message : text)
| not_an_error.

(** What an awaited call of the Daytona SDK does. *)
Inductive Outcome (A : Type) :=
| resolves (a : A)
| rejects (e : Thrown).
Arguments resolves {A} a.
Arguments rejects {A} e.

(** The module's state and what it has done to the outside.  The objects in
    [sessions] are shared: a session obtained with [getSession] is the
    object the map holds, so it is referred to by its key and read from the
    map.  [sandboxes] holds the keys of the map of that name;
    [daytonaInstance] tells whether the singleton exists; [statuses] are the
    calls of [onStatusChange], [healthChecks] the number of health checks
    issued and [deleted] the sandboxes [sandbox.delete()] was called on, all
    oldest first. *)
Record World := {
  sessions : gmap text ChatSession;
  sandboxes : gset text;
  daytonaInstance : bool;
  statuses : list Status;
  healthChecks : nat;
  deleted : list text
}.

Definition with_sessions (m : gmap text ChatSession) (w : World) : World :=
  {| sessions := m; sandboxes := sandboxes w; daytonaInstance := daytonaInstance w;
     statuses := statuses w; healthChecks := healthChecks w; deleted := deleted w |}.

Definition with_sandboxes (s : gset text) (w : World) : World :=
  {| sessions := sessions w; sandboxes := s; daytonaInstance := daytonaInstance w;
     statuses := statuses w; healthChecks := healthChecks w; deleted := deleted w |}.

Definition with_healthChecks (n : nat) (w : World) : World :=
  {| sessions := sessions w; sandboxes := sandboxes w;
     daytonaInstance := daytonaInstance w; statuses := statuses w;
     healthChecks := n; deleted := deleted w |}.

(** Assignments to the fields of a session object. *)
Definition set_messages (msgs : list Message) (now : N) (s : ChatSession)
  : ChatSession :=
  {| id := id s; sandboxId := sandboxId s; serverUrl := serverUrl s;
     messages := msgs; threadResources := threadResources s;
     createdAt := createdAt s; lastActivityAt := now;
     status := status s; error := error s |}.

Definition set_threadResources (resources : list text) (now : N) (s : ChatSession)
  : ChatSession :=
  {| id := id s; sandboxId := sandboxId s; serverUrl := serverUrl s;
     messages := messages s; threadResources := resources;
     createdAt := createdAt s; lastActivityAt := now;
     status := status s; error := error s |}.

Definition set_status (st : Status) (s : ChatSession) : ChatSession :=
  {| id := id s; sandboxId := sandboxId s; serverUrl := serverUrl s;
     messages := messages s; threadResources := threadResources s;
     createdAt := createdAt s; lastActivityAt := lastActivityAt s;
     status := st; error := error s |}.

Definition set_sandboxId (sandbox : text) (s : ChatSession) : ChatSession :=
  {| id := id s; sandboxId := sandbox; serverUrl := serverUrl s;
     messages := messages s; threadResources := threadResources s;
     createdAt := createdAt s; lastActivityAt := lastActivityAt s;
     status := status s; error := error s |}.

Definition set_serverUrl (url : text) (s : ChatSession) : ChatSession :=
  {| id := id s; sandboxId := sandboxId s; serverUrl := url;
     messages := messages s; threadResources := threadResources s;
     createdAt := createdAt s; lastActivityAt := lastActivityAt s;
     status := status s; error := error s |}.

Definition set_error (message : text) (s : ChatSession) : ChatSession :=
  {| id := id s; sandboxId := sandboxId s; serverUrl := serverUrl s;
     messages := messages s; threadResources := threadResources s;
     createdAt := createdAt s; lastActivityAt := lastActivityAt s;
     status := status s; error := Some message |}.

(** [const session = sessions.get(sessionId); if (session) { ...;
    sessions.set(sessionId, session) }]: the object stored under
    [sessionId] is changed in place when there is one. *)
Definition modify_session (sessionId : text) (f : ChatSession → ChatSession)
    (w : World) : World :=
  match sessions w !! sessionId with
  | Some session => with_sessions (<[sessionId := f session]> (sessions w)) w
  | None => w
  end.

(** [getSession(sessionId)]. *)
Definition getSession (sessionId : text) (w : World) : option ChatSession :=
  sessions w !! sessionId.

(** [updateSessionMessages(sessionId, messages)], called at time [now]. *)
Definition updateSessionMessages (now : N) (sessionId : text)
    (msgs : list Message) : World → World :=
  modify_session sessionId (set_messages msgs now).

(** [updateSessionResources(sessionId, resources)]. *)
Definition updateSessionResources (now : N) (sessionId : text)
    (resources : list text) : World → World :=
  modify_session sessionId (set_threadResources resources now).

(** [clearSession(sessionId)]; [messageId] is the [nanoid()] drawn. *)
Definition clearSession (now : N) (messageId sessionId : text) : World → World :=
  modify_session sessionId (λ s,
    set_threadResources []  now
      (set_messages
         [system_message messageId (str "Chat cleared. Start a new conversation!")]
         now s)).

(** [createSession()]; [sessionId] and [messageId] are the ids drawn. *)
Definition createSession (now : N) (sessionId messageId : text) (w : World)
  : ChatSession * World :=
  let session :=
    {| id := sessionId; sandboxId := []; serverUrl := [];
       messages :=
         [system_message messageId
            (str "Welcome to btca Chat! Ask anything about the library/framework you're interested in (make sure you @mention it first, e.g. @svelte)")];
       threadResources := []; createdAt := now; lastActivityAt := now;
       status := Pending; error := None |} in
  (session, with_sessions (<[sessionId := session]> (sessions w)) w).

(** *** [initializeSandbox] *)

(** The answers of the outside world to one call of [initializeSandbox]:
    the environment variables, and what each awaited call of the SDK does.
    [healthCheck i] is the output of the [i]-th [curl]. *)
Record Script := {
  env : gmap string text;
  create : Outcome text;
  uploadFile : Outcome unit;
  createProcessSession : Outcome unit;
  executeSessionCommand : Outcome unit;
  healthCheck : nat → Outcome text;
  getPreviewLink : Outcome text
}.

Abbreviation Eff := (Effect World Thrown).

(** [await] of an SDK call. *)
Definition await {A} (o : Outcome A) : Eff A :=
  match o with
  | resolves a => succeed a
  | rejects e => fail e
  end.

(** [try { body } catch (error) { handler }]. *)
Definition try_catch {A} (body : Eff A) (handler : Thrown → Eff A) : Eff A :=
  λ w, match body w with
       | (inl e, w') => handler e w'
       | (inr a, w') => (inr a, w')
       end.

Definition REQUIRED_ENV_VARS : list string := ["DAYTONA_API_KEY"; "OPENCODE_API_KEY"].

(** [!process.env[v]]: the variable is unset or empty. *)
Definition unset (environment : gmap string text) (v : string) : bool :=
  negb (truthy (default [] (environment !! v))).

(** [validateEnvVars()]. *)
Definition validateEnvVars (script : Script) : Eff unit :=
  let missing := filter (λ v, unset (env script) v = true) REQUIRED_ENV_VARS in
  if decide (0 < length missing) then
    fail (an_error (str "Missing required environment variables: "
                      ++ join (str ", ") (str <$> missing)))
  else succeed ().

(** [getDaytona()]: the singleton is made on first use, after the
    environment has been validated. *)
Definition getDaytona (script : Script) : Eff unit :=
  λ w, if daytonaInstance w then (inr (), w)
       else match validateEnvVars script w with
            | (inl e, w') => (inl e, w')
            | (inr _, w') =>
                (inr (), {| sessions := sessions w'; sandboxes := sandboxes w';
                            daytonaInstance := true; statuses := statuses w';
                            healthChecks := healthChecks w'; deleted := deleted w' |})
            end.

(** [onStatusChange?.(s)]. *)
Definition onStatusChange (s : Status) (w : World) : World :=
  {| sessions := sessions w; sandboxes := sandboxes w;
     daytonaInstance := daytonaInstance w; statuses := statuses w ++ [s];
     healthChecks := healthChecks w; deleted := deleted w |}.

(** [session.status = s; sessions.set(sessionId, session);
    onStatusChange?.(s)]. *)
Definition change_status (sessionId : text) (s : Status) : Eff unit :=
  λ w, (inr (), onStatusChange s (modify_session sessionId (set_status s) w)).

(** [session.sandboxId = sandbox.id; sandboxes.set(sandbox.id, sandbox)]. *)
Definition register_sandbox (sessionId sandbox : text) : Eff unit :=
  λ w,
    let w1 := modify_session sessionId (set_sandboxId sandbox) w in
    (inr (), with_sandboxes ({[sandbox]} ∪ sandboxes w1) w1).

(** [session.serverUrl = previewInfo.url]. *)
Definition assign_serverUrl (sessionId url : text) : Eff unit :=
  λ w, (inr (), modify_session sessionId (set_serverUrl url) w).

(** [session.error = ...]. *)
Definition assign_error (sessionId message : text) : Eff unit :=
  λ w, (inr (), modify_session sessionId (set_error message) w).

(** [return session]: the object, as it is now. *)
Definition current_session (sessionId : text) (session : ChatSession)
  : Eff ChatSession :=
  λ w, (inr (default session (sessions w !! sessionId)), w).

(** One health check: the [curl] is issued and its output awaited. *)
Definition issue_health_check (script : Script) : Eff text :=
  λ w, await (healthCheck script (healthChecks w))
             (with_healthChecks (S (healthChecks w)) w).

(** The [for (let i = 0; i < maxRetries; i++)] loop with [retries] turns
    left: whether the server answered 200. *)
Fixpoint wait_for_server (script : Script) (retries : nat) : Eff bool :=
  match retries with
  | O => succeed false
  | S retries =>
      result ← issue_health_check script;
      if decide (Jsonc.trim result = str "200") then succeed true
      else wait_for_server script retries
  end.

Definition maxRetries : nat := 15.

(** The [catch] block's clean-up of the sandbox: [sandbox.delete()] is
    tried, its failure is logged and ignored, and the key is removed. *)
Definition clean_up (sessionId : text) : Eff unit :=
  λ w,
    match sessions w !! sessionId with
    | Some session =>
        if truthy (sandboxId session) &&
           bool_decide (sandboxId session ∈ sandboxes w) then
          (inr (), {| sessions := sessions w;
                      sandboxes := sandboxes w ∖ {[sandboxId session]};
                      daytonaInstance := daytonaInstance w; statuses := statuses w;
                      healthChecks := healthChecks w;
                      deleted := deleted w ++ [sandboxId session] |})
        else (inr (), w)
    | None => (inr (), w)
    end.

(** [error instanceof Error ? error.message : 'Unknown error creating
    sandbox']. *)
Definition creation_error_message (e : Thrown) : text :=
  match e with
  | an_error m => m
  | not_an_error => str "Unknown error creating sandbox"
  end.

(** The [try] block of [initializeSandbox]. *)
Definition start_sandbox (script : Script) (sessionId : text)
    (session : ChatSession) : Eff ChatSession :=
  change_status sessionId Creating;;
  sandbox ← await (create script);
  register_sandbox sessionId sandbox;;
  change_status sessionId Cloning;;
  await (uploadFile script);;
  change_status sessionId Starting;;
  await (createProcessSession script);;
  await (executeSessionCommand script);;
  serverReady ← wait_for_server script maxRetries;
  (if serverReady : bool then mret ()
   else fail (an_error (str "Server failed to start in time")));;
  url ← await (getPreviewLink script);
  assign_serverUrl sessionId url;;
  change_status sessionId Active;;
  current_session sessionId session.

(** The [catch] block of [initializeSandbox].  The source assigns the
    status and the error message and then reports the status. *)
Definition on_creation_error (sessionId : text) (e : Thrown) : Eff ChatSession :=
  clean_up sessionId;;
  (λ w, (inr (), modify_session sessionId
                   (λ s, set_error (creation_error_message e) (set_status Error s)) w));;
  (λ w, (inr (), onStatusChange Error w));;
  fail e.

(** [initializeSandbox(sessionId, onStatusChange)]: the session it resolves
    to, or what it rejects with. *)
Definition initializeSandbox (script : Script) (sessionId : text)
  : Eff ChatSession :=
  λ w,
    match sessions w !! sessionId with
    | None => (inl (an_error (str "Session not found")), w)
    | Some session =>
        if decide (status session = Active) then (inr session, w)
        else if decide (status session ≠ Pending) then
          (inl (an_error (str "Cannot initialize sandbox: session status is "
                            ++ status_name (status session))), w)
        else
          (getDaytona script;;
           try_catch (start_sandbox script sessionId session)
                     (on_creation_error sessionId)) w
    end.

(** *** The [POST] handler before it streams *)

(** [session.messages], [session.threadResources], [session.status] and
    [session.serverUrl], read from the object the handler holds.  An object
    that is no longer in the map has been through [destroySession]. *)
Definition messages_of (sessionId : text) (w : World) : list Message :=
  default [] (messages <$> sessions w !! sessionId).

Definition threadResources_of (sessionId : text) (w : World) : list text :=
  default [] (threadResources <$> sessions w !! sessionId).

Definition status_of (sessionId : text) (w : World) : Status :=
  default Destroyed (status <$> sessions w !! sessionId).

Definition serverUrl_of (sessionId : text) (w : World) : text :=
  default [] (serverUrl <$> sessions w !! sessionId).

Record Prepared := {
  updatedResources : list text;
  questionWithHistory : text
}.

(** The handler from its first line to [questionWithHistory]: [None] for
    the 404.  [messageId] is the [nanoid()] drawn, [now1] and [now2] the
    times of the two updates. *)
Definition prepare (now1 now2 : N) (messageId sessionId message : text)
    (resources : list text) (w : World) : option (Prepared * World) :=
  match getSession sessionId w with
  | None => None
  | Some _ =>
      let userMessage := user_message messageId message resources in
      let updated := Mentions.array_from_set
                       (threadResources_of sessionId w ++ resources) in
      let w1 := updateSessionResources now1 sessionId updated w in
      let updatedMessages := messages_of sessionId w1 ++ [userMessage] in
      let w2 := updateSessionMessages now2 sessionId updatedMessages w1 in
      let history := buildConversationHistory (messages_of sessionId w2) in
      Some ({| updatedResources := updated;
               questionWithHistory :=
                 if truthy history then with_history history message
                 else message |}, w2)
  end.

(** [err instanceof Error ? err.message : 'Unknown error']. *)
Definition stream_error_message (e : Thrown) : text :=
  match e with
  | an_error m => m
  | not_an_error => str "Unknown error"
  end.

(** What the handler does with a request: the 404, the [error] event its
    [catch] block sends, or the request it makes to the btca server. *)
Inductive Reply :=
| reply_not_found
| reply_error (message : text)
| reply_ask (serverUrl question : text) (resources : list text).

(** What an awaited promise threw, if it threw. *)
Definition rejection {A} (r : (Thrown + A) * World) : option Thrown * World :=
  (match r.1 with inl e => Some e | inr _ => None end, r.2).

(** The handler up to the request to the btca server. *)
Definition post (script : Script) (now1 now2 : N)
    (messageId sessionId message : text) (resources : list text) (w : World)
  : Reply * World :=
  match prepare now1 now2 messageId sessionId message resources w with
  | None => (reply_not_found, w)
  | Some (prepared, w2) =>
      let '(thrown, w3) :=
        if decide (status_of sessionId w2 = Pending)
        then rejection (initializeSandbox script sessionId w2)
        else (None, w2) in
      match thrown with
      | Some e => (reply_error (stream_error_message e), w3)
      | None =>
          if decide (status_of sessionId w3 ≠ Active) then
            (reply_error (str "Session is not active: "
                            ++ status_name (status_of sessionId w3)), w3)
          else
            (reply_ask (serverUrl_of sessionId w3)
                       (questionWithHistory prepared) (updatedResources prepared), w3)
      end
  end.

(** *** Facts about the history *)

Lemma join_cons sep p parts :
  join sep (p :: parts) = p ++ concat ((λ q, sep ++ q) <$> parts).
Proof. reflexivity. Qed.

Lemma join_singleton sep p : join sep [p] = p.
Proof. unfold join; simpl. apply app_nil_r. Qed.

Lemma truthy_true s : truthy s = true ↔ s ≠ [].
Proof. by destruct s. Qed.

Lemma truthy_app_l a b : truthy a = true → truthy (a ++ b) = true.
Proof. by destruct a. Qed.

Lemma truthy_join sep parts :
  parts ≠ [] → Forall (λ p, truthy p = true) parts → truthy (join sep parts) = true.
Proof.
  destruct parts as [|p parts]; [done|]. intros _ [Hp _]%Forall_cons.
  rewrite join_cons. by apply truthy_app_l.
Qed.

Lemma history_part_truthy msg part :
  history_part msg = Some part → truthy part = true.
Proof.
  destruct msg as [? content ?|? [c|chunks] [|]|]; simpl; try done.
  - case_match; [|done]. by intros [= <-].
  - by intros [= <-].
  - case_match; [|done]. by intros [= <-].
Qed.

Lemma history_parts_truthy msgs :
  Forall (λ p, truthy p = true) (omap history_part msgs).
Proof.
  apply Forall_forall. intros p (msg & _ & Hp)%list_elem_of_omap.
  by apply history_part_truthy in Hp.
Qed.

(** A message the history shows nothing of whatever it holds. *)
Definition hidden (msg : Message) : bool :=
  match msg with
  | system_message _ _ => true
  | assistant_message _ _ canceled => canceled
  | user_message _ _ _ => false
  end.

Lemma history_part_hidden msg : hidden msg = true → history_part msg = None.
Proof. by destruct msg as [| ? ? []|]. Qed.

(** *** Facts about the store *)

Lemma modify_session_some sessionId f w session :
  sessions w !! sessionId = Some session →
  modify_session sessionId f w =
  with_sessions (<[sessionId := f session]> (sessions w)) w.
Proof. intros H. unfold modify_session. by rewrite H. Qed.

Lemma modify_session_none sessionId f w :
  sessions w !! sessionId = None → modify_session sessionId f w = w.
Proof. intros H. unfold modify_session. by rewrite H. Qed.

Lemma lookup_modify_session sessionId f w :
  sessions (modify_session sessionId f w) !! sessionId = f <$> sessions w !! sessionId.
Proof.
  unfold modify_session. destruct (sessions w !! sessionId) as [s|] eqn:H; simpl.
  - by rewrite lookup_insert_eq.
  - by rewrite H.
Qed.

Lemma lookup_modify_session_ne sessionId other f w :
  sessionId ≠ other →
  sessions (modify_session sessionId f w) !! other = sessions w !! other.
Proof.
  intros Hne. unfold modify_session.
  destruct (sessions w !! sessionId); simpl; [|done]. by rewrite lookup_insert_ne.
Qed.


(** *** The history *)

(** Canceled answers and system messages never reach the history: the
    history of a conversation is the history of the conversation without
    them. *)
Theorem canceled_answers_leave_the_history (msgs : list Message) :
  buildConversationHistory (filter (λ m, hidden m = false) msgs) =
  buildConversationHistory msgs.
Proof.
  unfold buildConversationHistory. f_equal.
  induction msgs as [|m msgs IH]; [done|].
  rewrite filter_cons. destruct (hidden m) eqn:Hm.
  - rewrite decide_False by done. cbn [omap list_omap].
    change (list_omap _ _ history_part msgs) with (omap history_part msgs).
    by rewrite (history_part_hidden m Hm).
  - rewrite decide_True by done. cbn [omap list_omap].
    change (list_omap _ _ history_part (filter _ msgs))
      with (omap history_part (filter (λ m, hidden m = false) msgs)).
    change (list_omap _ _ history_part msgs) with (omap history_part msgs).
    by rewrite IH.
Qed.

(** The chunks of the assistant message the handler stores when the stream
    ends: [chunkOrder.map((id) => chunksById.get(id)!)]. *)
Definition assistant_chunks (st : AggState) : list BtcaChunk :=
  omap (λ id, chunksById st !! id) (chunkOrder st).

Lemma str_app (a b : string) : str (a +:+ b) = str a ++ str b.
Proof. induction a as [|c a IH]; [done|]. simpl. by rewrite <-IH. Qed.

Lemma str_nil (a : string) : str a = [] ↔ a = "".
Proof. by destruct a. Qed.

(** The history entry of an aggregated answer is its text.  When no tool
    event reuses a sentinel id, the assistant message built from the
    aggregator's chunks enters the history as "Assistant: " followed by the
    concatenation of all the text deltas of the stream; reasoning and tool
    chunks add nothing, and an answer without text has no entry. *)
Theorem aggregated_answer_in_history
    (events : list BtcaStreamEvent) (messageId : text) :
  Forall (λ e, ¬ collides e) events →
  let answer := String.concat "" (omap AggregatorFacts.text_delta_of events) in
  history_part
    (assistant_message messageId
       (content_chunks (assistant_chunks (final_state events))) false) =
  if decide (answer = "") then None else Some (str "Assistant: " ++ str answer).
Proof.
  intros Hall answer.
  destruct (AggregatorFacts.summarises_run events Hall) as [Ht Hr Htool Ho Hd].
  pose proof Ht as Htext. rewrite AggregatorFacts.text_entry_concat in Htext.
  assert (NoDup (chunkOrder (final_state events))) as Hnd.
  { rewrite Ho. apply Collections.NoDup_set_from. }
  cbn [history_part]. unfold assistant_chunks. rewrite omap_compose.
  set (g := λ id, chunksById (final_state events) !! id ≫= text_of).
  assert (∀ x, x ≠ textChunkId → g x = None) as Hother.
  { intros x Hx. unfold g. destruct (decide (x = reasoningChunkId)) as [->|Hxr].
    - rewrite Hr. by destruct (omap AggregatorFacts.reasoning_delta_of events).
    - rewrite Htool by done.
      by destruct (omap (AggregatorFacts.tool_update_of x) events) as [|[? ?] ?]. }
  destruct (omap AggregatorFacts.text_delta_of events) as [|d ds] eqn:Hds.
  - assert (∀ x, g x = None) as Hnone.
    { intros x. destruct (decide (x = textChunkId)) as [->|Hx]; [|by apply Hother].
      unfold g. by rewrite Htext. }
    rewrite (omap_nowhere g _ Hnone). by subst answer.
  - assert (g textChunkId = Some (str answer)) as Hg.
    { unfold g. by rewrite Htext. }
    rewrite (omap_single g _ textChunkId (str answer) Hnd Hg Hother).
    rewrite decide_True.
    2:{ rewrite Ho. apply Collections.elem_of_array_from_set, Hd.
        by rewrite Ht. }
    rewrite join_singleton. destruct (decide (answer = "")) as [->|Hne]; [done|].
    destruct (str answer) eqn:Hs; [by apply str_nil in Hs|done].
Qed.

Lemma aggregated_answer_in_history_witness :
  history_part
    (assistant_message (str "m1")
       (content_chunks (assistant_chunks (final_state AggregatorFacts.example_events)))
       false) =
  Some (str "Assistant: Hello").
Proof.
  exact (aggregated_answer_in_history AggregatorFacts.example_events (str "m1")
           AggregatorFacts.example_events_no_collision).
Defined.

(** The history the handler sends already holds the question it is asking.
    [updateSessionMessages] assigns the new message list to the session
    object the handler holds, and [buildConversationHistory] reads
    [session.messages] after that: the history is built from the old
    messages and the new user message.  So a question with text besides its
    mentions always goes out in the history envelope, with itself as the
    last "User:" entry and once more after "Current question:". *)
Theorem history_includes_the_current_message
    (now1 now2 : N) (messageId sessionId message : text) (resources : list text)
    (w : World) (session : ChatSession) :
  sessions w !! sessionId = Some session →
  let userMessage := user_message messageId message resources in
  let updated := Mentions.array_from_set (threadResources session ++ resources) in
  let history := buildConversationHistory (messages session ++ [userMessage]) in
  let userText := Jsonc.trim (Mentions.strip_mentions message) in
  prepare now1 now2 messageId sessionId message resources w =
    Some ({| updatedResources := updated;
             questionWithHistory :=
               if truthy history then with_history history message else message |},
          with_sessions
            (<[sessionId := set_messages (messages session ++ [userMessage]) now2
                              (set_threadResources updated now1 session)]>
               (sessions w)) w)
  ∧ (truthy userText = true →
     history = join blank_line (omap history_part (messages session)
                                  ++ [str "User: " ++ userText])
     ∧ truthy history = true).
Proof.
  intros Hs. cbv zeta. split.
  - unfold prepare, getSession, updateSessionMessages, updateSessionResources,
      messages_of, threadResources_of.
    rewrite Hs. simpl. rewrite !lookup_modify_session, Hs. simpl.
    rewrite (modify_session_some _ _ w session Hs).
    rewrite (modify_session_some _ _ _ (set_threadResources
      (Mentions.array_from_set (threadResources session ++ resources)) now1 session))
      by apply lookup_insert_eq.
    unfold with_sessions; simpl. by rewrite insert_insert_eq.
  - intros Htext. unfold buildConversationHistory. rewrite omap_app. simpl.
    rewrite Htext. split; [done|].
    apply truthy_join.
    + by destruct (omap history_part (messages session)).
    + apply Forall_app. split; [apply history_parts_truthy|]. by repeat constructor.
Qed.

Definition example_world : World :=
  (createSession 1000 (str "s1") (str "m0")
     {| sessions := ∅; sandboxes := ∅; daytonaInstance := false;
        statuses := []; healthChecks := 0; deleted := [] |}).2.

Lemma history_includes_the_current_message_witness :
  (questionWithHistory <$>
     (fst <$> prepare 2000 2001 (str "m1") (str "s1") (str "@svelte what is a rune?")
                [str "svelte"] example_world)) =
  Some (with_history (str "User: what is a rune?") (str "@svelte what is a rune?")).
Proof.
  pose proof (history_includes_the_current_message 2000 2001 (str "m1") (str "s1")
                (str "@svelte what is a rune?") [str "svelte"] example_world
                {| id := str "s1"; sandboxId := []; serverUrl := [];
                   messages :=
                     [system_message (str "m0")
                        (str "Welcome to btca Chat! Ask anything about the library/framework you're interested in (make sure you @mention it first, e.g. @svelte)")];
                   threadResources := []; createdAt := 1000; lastActivityAt := 1000;
                   status := Pending; error := None |} eq_refl) as [H _].
  cbv zeta in H. rewrite H. reflexivity.
Defined.


(** *** Starting the sandbox *)

(** The effect leaves the session stored under [sessionId] in the map. *)
Definition keeps (sessionId : text) {A} (m : Eff A) : Prop :=
  ∀ w r w', m w = (r, w') →
    is_Some (sessions w !! sessionId) → is_Some (sessions w' !! sessionId).

Lemma keeps_bind sessionId {A B} (m : Eff A) (k : A → Eff B) :
  keeps sessionId m → (∀ a, keeps sessionId (k a)) → keeps sessionId (m ≫= k).
Proof.
  intros Hm Hk w r w'. run_effect.
  destruct (m w) as [[e|a] w1] eqn:Hmw.
  - intros [= <- <-]. by apply (Hm w _ _ Hmw).
  - intros Hka Hw. apply (Hk a w1 _ _ Hka). by apply (Hm w _ _ Hmw).
Qed.

Lemma keeps_pure sessionId {A} (m : Eff A) :
  (∀ w, (m w).2 = w) → keeps sessionId m.
Proof. intros Hm w r w' Hr. specialize (Hm w). rewrite Hr in Hm. by subst. Qed.

Lemma keeps_await sessionId {A} (o : Outcome A) : keeps sessionId (await o).
Proof. apply keeps_pure. by destruct o. Qed.

Lemma keeps_modify sessionId other f w :
  is_Some (sessions w !! sessionId) →
  is_Some (sessions (modify_session other f w) !! sessionId).
Proof.
  intros Hw. destruct (decide (other = sessionId)) as [->|Hne].
  - rewrite lookup_modify_session. by apply fmap_is_Some.
  - by rewrite lookup_modify_session_ne.
Qed.

Lemma keeps_change_status sessionId other s :
  keeps sessionId (change_status other s).
Proof. intros w r w' [= <- <-]. simpl. apply keeps_modify. Qed.

Lemma keeps_register_sandbox sessionId other sandbox :
  keeps sessionId (register_sandbox other sandbox).
Proof. intros w r w' [= <- <-]. simpl. apply keeps_modify. Qed.

Lemma keeps_assign_serverUrl sessionId other url :
  keeps sessionId (assign_serverUrl other url).
Proof. intros w r w' [= <- <-]. apply keeps_modify. Qed.

Lemma keeps_issue sessionId script : keeps sessionId (issue_health_check script).
Proof.
  intros w r w'. unfold issue_health_check.
  destruct (healthCheck script (healthChecks w)); by intros [= <- <-].
Qed.

Lemma keeps_wait_for_server sessionId script retries :
  keeps sessionId (wait_for_server script retries).
Proof.
  induction retries as [|retries IH]; [by apply keeps_pure|].
  cbn [wait_for_server]. apply keeps_bind; [apply keeps_issue|].
  intros result. case_decide; [by apply keeps_pure|done].
Qed.

Lemma keeps_start_sandbox script sessionId session :
  keeps sessionId (start_sandbox script sessionId session).
Proof.
  unfold start_sandbox.
  repeat first
    [ apply keeps_wait_for_server
    | apply keeps_change_status | apply keeps_register_sandbox
    | apply keeps_assign_serverUrl | apply keeps_await
    | by apply keeps_pure
    | match goal with |- keeps _ (if ?b then _ else _) => destruct b end
    | apply keeps_bind; [|intros ?] ].
Qed.

(** The [catch] block, run where the session is stored. *)
Lemma on_creation_error_run sessionId e w session :
  sessions w !! sessionId = Some session →
  ∃ w1, on_creation_error sessionId e w = (inl e, w1)
    ∧ sessions w1 =
      <[sessionId := set_error (creation_error_message e) (set_status Error session)]>
        (sessions w)
    ∧ statuses w1 = statuses w ++ [Error]
    ∧ healthChecks w1 = healthChecks w
    ∧ sandboxes w1 =
      (if truthy (sandboxId session) && bool_decide (sandboxId session ∈ sandboxes w)
       then sandboxes w ∖ {[sandboxId session]} else sandboxes w)
    ∧ deleted w1 =
      (if truthy (sandboxId session) && bool_decide (sandboxId session ∈ sandboxes w)
       then deleted w ++ [sandboxId session] else deleted w).
Proof.
  intros Hs. unfold on_creation_error, clean_up. run_effect. rewrite Hs.
  destruct (truthy (sandboxId session) && bool_decide (sandboxId session ∈ sandboxes w));
    unfold modify_session; simpl; rewrite Hs; eexists; split_and!; reflexivity.
Qed.

Lemma getDaytona_ok script w :
  (getDaytona script w).1 = inr () →
  ∃ w0, getDaytona script w = (inr (), w0)
        ∧ sessions w0 = sessions w ∧ sandboxes w0 = sandboxes w
        ∧ statuses w0 = statuses w ∧ healthChecks w0 = healthChecks w
        ∧ deleted w0 = deleted w.
Proof.
  unfold getDaytona, validateEnvVars.
  destruct (daytonaInstance w); [intros _; by eexists|].
  case_decide; [done|]. intros _. by eexists.
Qed.

Lemma status_of_pending sessionId w :
  status_of sessionId w = Pending →
  ∃ session, sessions w !! sessionId = Some session ∧ status session = Pending.
Proof.
  unfold status_of. destruct (sessions w !! sessionId) as [s|]; [|done]. eauto.
Qed.

Lemma prepare_status now1 now2 messageId sessionId message resources w p w2 :
  prepare now1 now2 messageId sessionId message resources w = Some (p, w2) →
  status_of sessionId w2 = status_of sessionId w.
Proof.
  unfold prepare, getSession. destruct (sessions w !! sessionId) as [s|] eqn:Hs; [|done].
  intros [= _ <-]. unfold status_of, updateSessionMessages, updateSessionResources.
  rewrite !lookup_modify_session, Hs. done.
Qed.

(** A start that fails leaves the session in the state [error] for good.
    When [initializeSandbox] rejects a pending session after the Daytona
    client was obtained, the session is in state [error] with the message of
    what was thrown, the last status reported is [error], and a sandbox the
    session had registered is no longer in [sandboxes]; from then on every
    call of [initializeSandbox] rejects with "Cannot initialize sandbox:
    session status is error" without changing anything, and every [POST]
    answers with the error event "Session is not active: error". *)
Theorem failed_start_is_permanent
    (script : Script) (sessionId : text) (w w1 : World) (e : Thrown) :
  status_of sessionId w = Pending →
  (getDaytona script w).1 = inr () →
  initializeSandbox script sessionId w = (inl e, w1) →
  status_of sessionId w1 = Error
  ∧ error <$> sessions w1 !! sessionId = Some (Some (creation_error_message e))
  ∧ last (statuses w1) = Some Error
  ∧ (∀ s1, sessions w1 !! sessionId = Some s1 →
           truthy (sandboxId s1) = true → sandboxId s1 ∉ sandboxes w1)
  ∧ (∀ script',
       initializeSandbox script' sessionId w1 =
       (inl (an_error (str "Cannot initialize sandbox: session status is error")), w1))
  ∧ (∀ script' now1 now2 messageId message resources,
       (post script' now1 now2 messageId sessionId message resources w1).1 =
       reply_error (str "Session is not active: error")).
Proof.
  intros (session & Hs & Hpending)%status_of_pending Hd Hinit.
  destruct (getDaytona_ok script w Hd) as (w0 & Hw0 & Hs0 & _).
  unfold initializeSandbox in Hinit. rewrite Hs in Hinit.
  rewrite decide_False, decide_False in Hinit by (rewrite Hpending; auto).
  run_effect. rewrite Hw0 in Hinit. unfold try_catch in Hinit.
  destruct (start_sandbox script sessionId session w0) as [[e'|s'] w'] eqn:Hstart;
    [|done].
  destruct (keeps_start_sandbox script sessionId session w0 _ _ Hstart) as [s1 Hs1].
  { rewrite Hs0, Hs. eauto. }
  destruct (on_creation_error_run sessionId e' w' s1 Hs1)
    as (w1' & Hgive & Hsessions & Hstatuses & _ & Hboxes & _).
  rewrite Hgive in Hinit. injection Hinit as <- <-.
  assert (sessions w1' !! sessionId =
          Some (set_error (creation_error_message e') (set_status Error s1))) as Hnow.
  { rewrite Hsessions. apply lookup_insert_eq. }
  assert (status_of sessionId w1' = Error) as Hstatus.
  { unfold status_of. by rewrite Hnow. }
  split_and!.
  - done.
  - by rewrite Hnow.
  - rewrite Hstatuses. apply last_snoc.
  - intros s2. rewrite Hnow. intros [= <-]. simpl. intros Htruthy.
    rewrite Hboxes, Htruthy. simpl. case_bool_decide as Hin; [|done].
    apply not_elem_of_difference. right. by apply elem_of_singleton.
  - intros script'. unfold initializeSandbox. rewrite Hnow.
    cbn [status set_error set_status status_name].
    rewrite decide_False by done. by rewrite decide_True.
  - intros script' now1 now2 messageId message resources. unfold post.
    destruct (prepare now1 now2 messageId sessionId message resources w1')
      as [[p w2]|] eqn:Hprep.
    + apply prepare_status in Hprep. rewrite Hstatus in Hprep.
      rewrite Hprep, decide_False by done. rewrite Hprep, decide_True by done.
      reflexivity.
    + unfold prepare, getSession in Hprep. by rewrite Hnow in Hprep.
Qed.


Lemma wait_for_server_ready script retries k w :
  k < retries →
  (∀ i, i < k → ∃ r, healthCheck script (healthChecks w + i) = resolves r
                     ∧ Jsonc.trim r ≠ str "200") →
  (∃ r, healthCheck script (healthChecks w + k) = resolves r
        ∧ Jsonc.trim r = str "200") →
  wait_for_server script retries w =
  (inr true, with_healthChecks (healthChecks w + k + 1) w).
Proof.
  revert retries w. induction k as [|k IH]; intros retries w Hk Hbefore Hat.
  - destruct retries as [|retries]; [lia|]. destruct Hat as (r & Hr & H200).
    cbn [wait_for_server]. run_effect. unfold issue_health_check.
    rewrite Nat.add_0_r in Hr. rewrite Hr. simpl. rewrite decide_True by done.
    unfold with_healthChecks; simpl. do 2 f_equal. lia.
  - destruct retries as [|retries]; [lia|].
    destruct (Hbefore 0) as (r & Hr & Hnot); [lia|].
    cbn [wait_for_server]. run_effect. unfold issue_health_check.
    rewrite Nat.add_0_r in Hr. rewrite Hr. simpl. rewrite decide_False by done.
    rewrite (IH retries); simpl.
    + unfold with_healthChecks; simpl. do 2 f_equal. lia.
    + lia.
    + intros i Hi. destruct (Hbefore (S i)) as (r' & Hr' & Hnot'); [lia|].
      exists r'. split; [|done]. rewrite <-Hr'. f_equal. lia.
    + destruct Hat as (r' & Hr' & H200). exists r'. split; [|done].
      rewrite <-Hr'. f_equal. lia.
Qed.

Lemma wait_for_server_timeout script retries w :
  (∀ i, i < retries → ∃ r, healthCheck script (healthChecks w + i) = resolves r
                           ∧ Jsonc.trim r ≠ str "200") →
  wait_for_server script retries w =
  (inr false, with_healthChecks (healthChecks w + retries) w).
Proof.
  revert w. induction retries as [|retries IH]; intros w Hall.
  - cbn [wait_for_server]. unfold succeed, with_healthChecks.
    rewrite Nat.add_0_r. by destruct w.
  - destruct (Hall 0) as (r & Hr & Hnot); [lia|].
    cbn [wait_for_server]. run_effect. unfold issue_health_check.
    rewrite Nat.add_0_r in Hr. rewrite Hr. simpl. rewrite decide_False by done.
    rewrite IH; simpl.
    + unfold with_healthChecks; simpl. do 2 f_equal. lia.
    + intros i Hi. destruct (Hall (S i)) as (r' & Hr' & Hnot'); [lia|].
      exists r'. split; [|done]. rewrite <-Hr'. f_equal. lia.
Qed.

Lemma bind_run {A B} (m : Eff A) (k : A → Eff B) w a w1 :
  m w = (inr a, w1) → (m ≫= k) w = k a w1.
Proof. intros H. run_effect. by rewrite H. Qed.

Lemma bind_fail {A B} (m : Eff A) (k : A → Eff B) w e w1 :
  m w = (inl e, w1) → (m ≫= k) w = (inl e, w1).
Proof. intros H. run_effect. by rewrite H. Qed.

Lemma change_status_run sessionId st w session :
  sessions w !! sessionId = Some session →
  change_status sessionId st w =
  (inr (), {| sessions := <[sessionId := set_status st session]> (sessions w);
              sandboxes := sandboxes w; daytonaInstance := daytonaInstance w;
              statuses := statuses w ++ [st];
              healthChecks := healthChecks w; deleted := deleted w |}).
Proof. intros Hs. unfold change_status, modify_session. by rewrite Hs. Qed.

Lemma register_sandbox_run sessionId sandbox w session :
  sessions w !! sessionId = Some session →
  register_sandbox sessionId sandbox w =
  (inr (), {| sessions := <[sessionId := set_sandboxId sandbox session]> (sessions w);
              sandboxes := {[sandbox]} ∪ sandboxes w;
              daytonaInstance := daytonaInstance w; statuses := statuses w;
              healthChecks := healthChecks w; deleted := deleted w |}).
Proof. intros Hs. unfold register_sandbox, modify_session. by rewrite Hs. Qed.

Lemma assign_serverUrl_run sessionId url w session :
  sessions w !! sessionId = Some session →
  assign_serverUrl sessionId url w =
  (inr (), {| sessions := <[sessionId := set_serverUrl url session]> (sessions w);
              sandboxes := sandboxes w;
              daytonaInstance := daytonaInstance w; statuses := statuses w;
              healthChecks := healthChecks w; deleted := deleted w |}).
Proof. intros Hs. unfold assign_serverUrl, modify_session. by rewrite Hs. Qed.

Lemma await_run {A} (o : Outcome A) (a : A) w : o = resolves a → await o w = (inr a, w).
Proof. by intros ->. Qed.

Lemma await_fail {A} (o : Outcome A) e w : o = rejects e → await o w = (inl e, w).
Proof. by intros ->. Qed.

Ltac step_with lemma :=
  erewrite bind_run;
    [|first [apply lemma; cbn [sessions]; first [eassumption|apply lookup_insert_eq]
            |by apply lemma]].

(** The world when the health checks begin, every call before them having
    resolved. *)
Definition at_health_checks (sessionId sandbox : text) (session : ChatSession)
    (w : World) : World :=
  {| sessions := <[sessionId := set_status Starting
                                  (set_status Cloning
                                     (set_sandboxId sandbox
                                        (set_status Creating session)))]> (sessions w);
     sandboxes := {[sandbox]} ∪ sandboxes w;
     daytonaInstance := daytonaInstance w;
     statuses := statuses w ++ [Creating; Cloning; Starting];
     healthChecks := healthChecks w; deleted := deleted w |}.

(** The [try] block up to the health checks, when every call resolves. *)
Lemma start_sandbox_run script sessionId session sandbox w :
  sessions w !! sessionId = Some session →
  create script = resolves sandbox →
  uploadFile script = resolves () →
  createProcessSession script = resolves () →
  executeSessionCommand script = resolves () →
  start_sandbox script sessionId session w =
  (serverReady ← wait_for_server script maxRetries;
   (if serverReady : bool then mret ()
    else fail (an_error (str "Server failed to start in time")));;
   url ← await (getPreviewLink script);
   assign_serverUrl sessionId url;;
   change_status sessionId Active;;
   current_session sessionId session)
    (at_health_checks sessionId sandbox session w).
Proof.
  intros Hs Hcreate Hupload Hsession Hcommand. unfold start_sandbox.
  step_with change_status_run.
  step_with (await_run (create script) sandbox).
  step_with register_sandbox_run.
  step_with change_status_run.
  step_with (await_run (uploadFile script) ()).
  step_with change_status_run.
  step_with (await_run (createProcessSession script) ()).
  step_with (await_run (executeSessionCommand script) ()).
  unfold at_health_checks. cbn [sessions sandboxes daytonaInstance statuses
    healthChecks deleted].
  by rewrite !insert_insert_eq, <-!app_assoc.
Qed.


Lemma with_healthChecks_sessions n w : sessions (with_healthChecks n w) = sessions w.
Proof. reflexivity. Qed.

(** A start that succeeds reports four statuses and stops checking at the
    first 200.  For a pending session, when the Daytona client is obtained,
    every call of the SDK resolves, and health check number [k] (counted
    from 0, [k < 15]) is the first whose trimmed output is "200":
    [initializeSandbox] resolves to the session in state [active] with the
    sandbox id and the preview URL, the statuses reported are creating,
    cloning, starting and active in this order, exactly [k + 1] health
    checks were issued, the sandbox is registered and nothing is deleted. *)
Theorem sandbox_start_succeeds_at_first_200
    (script : Script) (sessionId sandbox url : text) (k : nat)
    (w : World) (session : ChatSession) :
  sessions w !! sessionId = Some session →
  status session = Pending →
  (getDaytona script w).1 = inr () →
  create script = resolves sandbox →
  uploadFile script = resolves () →
  createProcessSession script = resolves () →
  executeSessionCommand script = resolves () →
  getPreviewLink script = resolves url →
  k < maxRetries →
  (∀ i, i < k → ∃ r, healthCheck script (healthChecks w + i) = resolves r
                     ∧ Jsonc.trim r ≠ str "200") →
  (∃ r, healthCheck script (healthChecks w + k) = resolves r
        ∧ Jsonc.trim r = str "200") →
  let started :=
    {| id := id session; sandboxId := sandbox; serverUrl := url;
       messages := messages session; threadResources := threadResources session;
       createdAt := createdAt session; lastActivityAt := lastActivityAt session;
       status := Active; error := error session |} in
  ∃ w', initializeSandbox script sessionId w = (inr started, w')
        ∧ sessions w' = <[sessionId := started]> (sessions w)
        ∧ statuses w' = statuses w ++ [Creating; Cloning; Starting; Active]
        ∧ healthChecks w' = healthChecks w + k + 1
        ∧ sandboxes w' = {[sandbox]} ∪ sandboxes w
        ∧ deleted w' = deleted w.
Proof.
  intros Hs Hpending Hd Hcreate Hupload Hsession Hcommand Hlink Hk Hbefore Hat.
  destruct (getDaytona_ok script w Hd) as (w0 & Hw0 & Hs0 & Hb0 & Hst0 & Hh0 & Hdel0).
  cbv zeta. unfold initializeSandbox. rewrite Hs.
  rewrite decide_False, decide_False by (rewrite Hpending; auto).
  erewrite bind_run by exact Hw0. unfold try_catch.
  rewrite (start_sandbox_run script sessionId session sandbox w0)
    by (rewrite ?Hs0; done).
  erewrite bind_run.
  2:{ apply (wait_for_server_ready script maxRetries k); [done|..];
        unfold at_health_checks; cbn [healthChecks]; rewrite Hh0; done. }
  erewrite bind_run by reflexivity.
  step_with (await_run (getPreviewLink script) url).
  step_with assign_serverUrl_run.
  step_with change_status_run.
  unfold current_session, at_health_checks.
  cbn [sessions sandboxes daytonaInstance statuses healthChecks deleted
       with_healthChecks].
  rewrite !insert_insert_eq, lookup_insert_eq. cbn [default].
  rewrite Hs0, Hst0, Hh0, Hb0, Hdel0, <-!app_assoc.
  eexists. split_and!; reflexivity.
Qed.

(** A start gives up after fifteen health checks.  Under the same
    conditions, when none of the fifteen health checks answers "200" and the
    sandbox id is not empty: [initializeSandbox] rejects with "Server failed
    to start in time" after exactly fifteen health checks, the sandbox is
    deleted and taken out of [sandboxes], the session is left in state
    [error] with that message, and the statuses reported are creating,
    cloning, starting and error. *)
Theorem sandbox_start_gives_up_after_fifteen_checks
    (script : Script) (sessionId sandbox : text)
    (w : World) (session : ChatSession) :
  sessions w !! sessionId = Some session →
  status session = Pending →
  (getDaytona script w).1 = inr () →
  create script = resolves sandbox →
  sandbox ≠ [] →
  uploadFile script = resolves () →
  createProcessSession script = resolves () →
  executeSessionCommand script = resolves () →
  (∀ i, i < 15 → ∃ r, healthCheck script (healthChecks w + i) = resolves r
                      ∧ Jsonc.trim r ≠ str "200") →
  ∃ w', initializeSandbox script sessionId w =
          (inl (an_error (str "Server failed to start in time")), w')
        ∧ sessions w' =
          <[sessionId :=
              {| id := id session; sandboxId := sandbox;
                 serverUrl := serverUrl session;
                 messages := messages session;
                 threadResources := threadResources session;
                 createdAt := createdAt session;
                 lastActivityAt := lastActivityAt session;
                 status := Error;
                 error := Some (str "Server failed to start in time") |}]>
            (sessions w)
        ∧ statuses w' = statuses w ++ [Creating; Cloning; Starting; Error]
        ∧ healthChecks w' = healthChecks w + 15
        ∧ sandboxes w' = ({[sandbox]} ∪ sandboxes w) ∖ {[sandbox]}
        ∧ deleted w' = deleted w ++ [sandbox].
Proof.
  intros Hs Hpending Hd Hcreate Hne Hupload Hsession Hcommand Hall.
  destruct (getDaytona_ok script w Hd) as (w0 & Hw0 & Hs0 & Hb0 & Hst0 & Hh0 & Hdel0).
  unfold initializeSandbox. rewrite Hs.
  rewrite decide_False, decide_False by (rewrite Hpending; auto).
  erewrite bind_run by exact Hw0. unfold try_catch.
  rewrite (start_sandbox_run script sessionId session sandbox w0)
    by (rewrite ?Hs0; done).
  erewrite bind_run.
  2:{ apply (wait_for_server_timeout script maxRetries).
      unfold at_health_checks; cbn [healthChecks]; rewrite Hh0. exact Hall. }
  erewrite bind_fail by reflexivity.
  edestruct (on_creation_error_run sessionId (an_error (str "Server failed to start in time")))
    as (w' & -> & Hsessions & Hstatuses & Hchecks & Hboxes & Hdeleted).
  { unfold at_health_checks. cbn [sessions with_healthChecks]. apply lookup_insert_eq. }
  exists w'. revert Hsessions Hstatuses Hchecks Hboxes Hdeleted.
  unfold at_health_checks.
  cbn [sessions sandboxes daytonaInstance statuses healthChecks deleted
       with_healthChecks sandboxId set_status set_sandboxId].
  assert (truthy sandbox = true) as -> by by destruct sandbox.
  rewrite bool_decide_true by (apply elem_of_union_l; by apply elem_of_singleton).
  cbn [andb]. rewrite insert_insert_eq, Hs0, Hst0, Hh0, Hb0, Hdel0, <-!app_assoc.
  intros -> -> -> -> ->. split_and!; reflexivity.
Qed.

(** Without the environment variables nothing is started.  When the Daytona
    client does not exist yet and a required environment variable is unset
    or empty, [initializeSandbox] rejects a pending session with the list of
    the missing variables and changes nothing: the session stays pending, no
    status is reported, no sandbox is created. *)
Theorem missing_environment_changes_nothing
    (script : Script) (sessionId : text) (w : World) (session : ChatSession) :
  sessions w !! sessionId = Some session →
  status session = Pending →
  daytonaInstance w = false →
  (∃ v, v ∈ REQUIRED_ENV_VARS ∧ unset (env script) v = true) →
  initializeSandbox script sessionId w =
  (inl (an_error
          (str "Missing required environment variables: "
             ++ join (str ", ")
                  (str <$> filter (λ v, unset (env script) v = true)
                             REQUIRED_ENV_VARS))), w).
Proof.
  intros Hs Hpending Hinstance (v & Hv & Hunset).
  unfold initializeSandbox. rewrite Hs.
  rewrite decide_False, decide_False by (rewrite Hpending; auto).
  erewrite bind_fail; [done|].
  unfold getDaytona, validateEnvVars. rewrite Hinstance.
  rewrite decide_True; [done|].
  assert (v ∈ filter (λ v, unset (env script) v = true) REQUIRED_ENV_VARS) as Hin
    by by apply list_elem_of_filter.
  destruct (filter _ REQUIRED_ENV_VARS); [by apply elem_of_nil in Hin|simpl; lia].
Qed.

(** *** Examples *)

Definition example_env : gmap string text :=
  {["DAYTONA_API_KEY" := str "key-1"; "OPENCODE_API_KEY" := str "key-2"]}.

(** Every call resolves; the third health check answers 200. *)
Definition example_script : Script :=
  {| env := example_env;
     create := resolves (str "sandbox-1");
     uploadFile := resolves ();
     createProcessSession := resolves ();
     executeSessionCommand := resolves ();
     healthCheck := λ i, resolves (if decide (i < 2) then str "000" else str "200 ");
     getPreviewLink := resolves (str "https://sandbox-1.example") |}.

(** The server never answers 200. *)
Definition example_slow_script : Script :=
  {| env := example_env;
     create := resolves (str "sandbox-1");
     uploadFile := resolves ();
     createProcessSession := resolves ();
     executeSessionCommand := resolves ();
     healthCheck := λ _, resolves (str "000");
     getPreviewLink := resolves (str "https://sandbox-1.example") |}.

Definition example_session : ChatSession :=
  {| id := str "s1"; sandboxId := []; serverUrl := [];
     messages :=
       [system_message (str "m0")
          (str "Welcome to btca Chat! Ask anything about the library/framework you're interested in (make sure you @mention it first, e.g. @svelte)")];
     threadResources := []; createdAt := 1000; lastActivityAt := 1000;
     status := Pending; error := None |}.

Lemma sandbox_start_succeeds_at_first_200_witness :
  ∃ w', (initializeSandbox example_script (str "s1") example_world).1 =
          inr {| id := str "s1"; sandboxId := str "sandbox-1";
                 serverUrl := str "https://sandbox-1.example";
                 messages := messages example_session; threadResources := [];
                 createdAt := 1000; lastActivityAt := 1000;
                 status := Active; error := None |}
        ∧ (initializeSandbox example_script (str "s1") example_world).2 = w'
        ∧ statuses w' = [Creating; Cloning; Starting; Active]
        ∧ healthChecks w' = 3.
Proof.
  destruct (sandbox_start_succeeds_at_first_200 example_script (str "s1")
              (str "sandbox-1") (str "https://sandbox-1.example") 2
              example_world example_session)
    as (w' & Hinit & _ & Hstatuses & Hchecks & _); try reflexivity.
  - unfold maxRetries. lia.
  - intros i Hi. exists (str "000"). split; [|by vm_compute].
    simpl. by rewrite decide_True by lia.
  - exists (str "200 "). split; [reflexivity|by vm_compute].
  - exists w'. rewrite Hinit. by split_and!.
Defined.

Lemma sandbox_start_gives_up_after_fifteen_checks_witness :
  ∃ w', initializeSandbox example_slow_script (str "s1") example_world =
          (inl (an_error (str "Server failed to start in time")), w')
        ∧ statuses w' = [Creating; Cloning; Starting; Error]
        ∧ healthChecks w' = 15
        ∧ deleted w' = [str "sandbox-1"].
Proof.
  destruct (sandbox_start_gives_up_after_fifteen_checks example_slow_script
              (str "s1") (str "sandbox-1") example_world example_session)
    as (w' & Hinit & _ & Hstatuses & Hchecks & _ & Hdeleted); try reflexivity.
  - done.
  - intros i Hi. exists (str "000"). split; [reflexivity|by vm_compute].
  - exists w'. by split_and!.
Defined.

Lemma failed_start_is_permanent_witness :
  let w1 := (initializeSandbox example_slow_script (str "s1") example_world).2 in
  status_of (str "s1") w1 = Error
  ∧ (post example_script 2000 2001 (str "m1") (str "s1")
       (str "@svelte what is a rune?") [str "svelte"] w1).1 =
    reply_error (str "Session is not active: error").
Proof.
  cbv zeta.
  destruct (initializeSandbox example_slow_script (str "s1") example_world)
    as [r w1] eqn:Hinit.
  assert (r = inl (an_error (str "Server failed to start in time"))) as ->.
  { apply (f_equal fst) in Hinit. cbn [fst] in Hinit. rewrite <-Hinit.
    by vm_compute. }
  destruct (failed_start_is_permanent example_slow_script (str "s1") example_world
              w1 _ eq_refl eq_refl Hinit) as (Hstatus & _ & _ & _ & _ & Hpost).
  split; [exact Hstatus|apply Hpost].
Defined.

Lemma missing_environment_changes_nothing_witness :
  initializeSandbox
    {| env := {["DAYTONA_API_KEY" := str "key-1"]};
       create := resolves (str "sandbox-1"); uploadFile := resolves ();
       createProcessSession := resolves (); executeSessionCommand := resolves ();
       healthCheck := λ _, resolves (str "200");
       getPreviewLink := resolves (str "https://sandbox-1.example") |}
    (str "s1") example_world =
  (inl (an_error (str "Missing required environment variables: OPENCODE_API_KEY")),
   example_world).
Proof.
  etransitivity.
  - apply (missing_environment_changes_nothing _ (str "s1") example_world
             example_session); try reflexivity.
    exists "OPENCODE_API_KEY". split; [|reflexivity]. compute_done.
  - by vm_compute.
Defined.

(** Thread resources accumulate.  The resources a [POST] asks the btca
    server about are those the session holds afterwards: the resources the
    thread had and those of the request, each once.  So a resource mentioned
    once stays for every later question of the thread, and when the thread's
    list has no repetition its resources keep their places at the front. *)
Theorem thread_resources_accumulate
    (now1 now2 : N) (messageId sessionId message : text) (resources : list text)
    (w w' : World) (p : Prepared) :
  prepare now1 now2 messageId sessionId message resources w = Some (p, w') →
  threadResources_of sessionId w' = updatedResources p
  ∧ NoDup (updatedResources p)
  ∧ (∀ r, r ∈ updatedResources p ↔
          r ∈ threadResources_of sessionId w ∨ r ∈ resources)
  ∧ (NoDup (threadResources_of sessionId w) →
     threadResources_of sessionId w `prefix_of` updatedResources p).
Proof.
  unfold prepare, getSession.
  destruct (sessions w !! sessionId) as [session|] eqn:Hs; [|done].
  intros [= <- <-]. simpl.
  unfold threadResources_of, updateSessionMessages, updateSessionResources.
  rewrite !lookup_modify_session, Hs. simpl. split_and!.
  - done.
  - apply Mentions.NoDup_set_from_list.
  - intros r. by rewrite Mentions.elem_of_array_from_set_list, elem_of_app.
  - intros Hnd. apply Mentions.set_from_app_keeps; [done|].
    intros x _ Hx. by apply elem_of_nil in Hx.
Qed.

Lemma thread_resources_accumulate_witness :
  threadResources_of (str "s1")
    (snd (default ({| updatedResources := []; questionWithHistory := [] |}, example_world)
            (prepare 2000 2001 (str "m1") (str "s1") (str "@svelte what is a rune?")
               [str "svelte"; str "svelte"] example_world))) =
  [str "svelte"].
Proof.
  destruct (prepare 2000 2001 (str "m1") (str "s1") (str "@svelte what is a rune?")
              [str "svelte"; str "svelte"] example_world) as [[p w']|] eqn:Hp;
    [|by vm_compute in Hp].
  change (threadResources_of (str "s1") w' = [str "svelte"]).
  destruct (thread_resources_accumulate _ _ _ _ _ _ _ _ _ Hp) as (-> & _ & _ & _).
  vm_compute in Hp. by injection Hp as <- _.
Defined.

End Chat.

(** ** More about collections

    What [Collections.load] leaves on disk, which requests share a
    collection directory, and the handler of [POST /question]
    ([apps/server/src/index.ts]). *)
Module CollectionFacts.

Import Collections.

(** *** The key *)

Definition plus : ascii := "+"%char.

(** The name holds no [+]. *)
Fixpoint plus_free (s : string) : bool :=
  match s with
  | EmptyString => true
  | String c rest => negb (Ascii.eqb c plus) && plus_free rest
  end.

(** What follows a name in a key: nothing, or a [+] and more. *)
Definition separated (rest : string) : Prop :=
  rest = "" ∨ ∃ more, rest = String plus more.

Lemma name_then_rest (x y r1 r2 : string) :
  plus_free x = true → plus_free y = true → separated r1 → separated r2 →
  x +:+ r1 = y +:+ r2 → x = y ∧ r1 = r2.
Proof.
  revert y. induction x as [|a x IH]; intros y Hx Hy H1 H2 Heq.
  - destruct y as [|b y]; [done|]. simpl in *.
    apply andb_true_iff in Hy as [Hb _]. apply negb_true_iff in Hb.
    destruct H1 as [->|[more ->]]; [done|]. injection Heq as <- _.
    by rewrite Ascii.eqb_refl in Hb.
  - simpl in Hx. apply andb_true_iff in Hx as [Ha Hx]. apply negb_true_iff in Ha.
    destruct y as [|b y].
    + simpl in Heq. destruct H2 as [->|[more ->]]; [done|]. injection Heq as -> _.
      by rewrite Ascii.eqb_refl in Ha.
    + simpl in Hy. apply andb_true_iff in Hy as [_ Hy].
      injection Heq as -> Heq. destruct (IH y Hx Hy H1 H2 Heq) as [-> ->]. done.
Qed.

Lemma concat_cons_separated (x : string) (xs : list string) :
  ∃ rest, String.concat "+" (x :: xs) = x +:+ rest ∧ separated rest
          ∧ (xs = [] → rest = "")
          ∧ (∀ y ys, xs = y :: ys → rest = String plus (String.concat "+" (y :: ys))).
Proof.
  destruct xs as [|y ys].
  - exists "". split_and!; [by rewrite app_empty_r|by left|done|done].
  - exists (String plus (String.concat "+" (y :: ys))).
    split_and!; [done|right; eauto|done|]. by intros ? ? [= <- <-].
Qed.

(** Joining names that hold no [+] loses nothing. *)
Lemma concat_plus_inj (xs ys : list string) :
  Forall (λ x, plus_free x = true) xs → Forall (λ y, plus_free y = true) ys →
  xs ≠ [] → ys ≠ [] →
  String.concat "+" xs = String.concat "+" ys → xs = ys.
Proof.
  intros Hxs. revert ys. induction Hxs as [|x xs Hx Hxs IH]; [done|].
  intros ys Hys _ Hne Heq. destruct Hys as [|y ys Hy Hys]; [done|].
  destruct (concat_cons_separated x xs) as (r1 & E1 & S1 & N1 & C1).
  destruct (concat_cons_separated y ys) as (r2 & E2 & S2 & N2 & C2).
  rewrite E1, E2 in Heq.
  destruct (name_then_rest x y r1 r2 Hx Hy S1 S2 Heq) as [-> Hr]. f_equal.
  destruct xs as [|x' xs], ys as [|y' ys]; [done| | |].
  - rewrite N1, (C2 y' ys) in Hr by done. done.
  - rewrite N2, (C1 x' xs) in Hr by done. done.
  - rewrite (C1 x' xs), (C2 y' ys) in Hr by done. injection Hr as Hr.
    by apply IH.
Qed.


Lemma sorted_key_inj (xs ys : list string) :
  Forall (λ x, plus_free x = true) xs → Forall (λ y, plus_free y = true) ys →
  xs ≠ [] → ys ≠ [] →
  getCollectionKey xs = getCollectionKey ys → xs ≡ₚ ys.
Proof.
  intros Hxs Hys Hx Hy Heq. unfold getCollectionKey in Heq.
  apply concat_plus_inj in Heq.
  - by rewrite <-(merge_sort_Permutation String.le xs), Heq, merge_sort_Permutation.
  - by rewrite merge_sort_Permutation.
  - by rewrite merge_sort_Permutation.
  - intros H. apply Hx, Permutation_nil_r. by rewrite <-H, merge_sort_Permutation.
  - intros H. apply Hy, Permutation_nil_r. by rewrite <-H, merge_sort_Permutation.
Qed.

Lemma Forall_array_from_set (P : string → Prop) (names : list string) :
  Forall P names → Forall P (array_from_set names).
Proof.
  rewrite !Forall_forall. intros H x Hx. apply H.
  by apply elem_of_array_from_set.
Qed.

(** Requests share a collection directory exactly when they name the same
    resources.  For non-empty lists of names that hold no [+], the key
    [Collections.load] names the directory with is the same for two requests
    if and only if every name of one is a name of the other, whatever the
    order, the repetitions and the collation; a name with a [+] in it breaks
    this: the directory of the one resource [a+b] is the directory of the two
    resources [a] and [b]. *)
Theorem same_directory_iff_same_resources
    (localeCompare : string → string → Z) (xs ys : list string) :
  xs ≠ [] → ys ≠ [] →
  Forall (λ x, plus_free x = true) xs → Forall (λ y, plus_free y = true) ys →
  (load_key localeCompare xs = load_key localeCompare ys ↔ ∀ x, x ∈ xs ↔ x ∈ ys)
  ∧ load_key localeCompare ["a+b"] = load_key localeCompare ["a"; "b"].
Proof.
  intros Hx Hy Hxs Hys. split; [|rewrite !load_key_dedup; by vm_compute].
  rewrite !load_key_dedup. split.
  - intros Heq%sorted_key_inj; try (by apply Forall_array_from_set);
      try (by rewrite array_from_set_nil).
    intros x.
    by rewrite <-(elem_of_array_from_set xs), <-(elem_of_array_from_set ys), Heq.
  - intros Hset. apply getCollectionKey_permutation.
    apply NoDup_Permutation; [apply NoDup_set_from..|].
    intros x. by rewrite !elem_of_array_from_set.
Qed.

Lemma same_directory_iff_same_resources_witness :
  (load_key example_localeCompare ["svelte"; "effect"; "svelte"] =
   load_key example_localeCompare ["effect"; "svelte"]
   ↔ ∀ x, x ∈ ["svelte"; "effect"; "svelte"] ↔ x ∈ ["effect"; "svelte"])
  ∧ load_key example_localeCompare ["a+b"] = load_key example_localeCompare ["a"; "b"].
Proof.
  apply (same_directory_iff_same_resources example_localeCompare
           ["svelte"; "effect"; "svelte"] ["effect"; "svelte"]);
    [done|done|by repeat constructor|by repeat constructor].
Defined.

(** *** What a load leaves on disk *)

Lemma elem_of_sorted_names localeCompare names n :
  n ∈ sorted_names localeCompare names ↔ n ∈ names.
Proof.
  unfold sorted_names. by rewrite merge_sort_Permutation, elem_of_array_from_set.
Qed.

(** After a successful [Collections.load] the collection is on disk.  The
    path returned is the collections directory joined with the key of the
    set of names; it is a directory; for every requested name the directory
    has an entry of that name which is a symbolic link to the resource's
    checkout; every requested name is a configured resource and has a
    checkout. *)
Theorem loaded_collection_links_every_resource
    (localeCompare : string → string → Z) (note : string)
    (config : ConfigService) (quiet : bool) (resourceNames : list string)
    (w w1 : World) (r : CollectionResult) :
  load localeCompare note config quiet resourceNames w = (inr r, w1) →
  path r = path_join (collectionsDirectory config) (load_key localeCompare resourceNames)
  ∧ entries w1 !! path r = Some Dir
  ∧ ∀ n, n ∈ resourceNames →
      entries w1 !! path_join (path r) n = Some (Link (checkout_path config n))
      ∧ n ∈ checkouts w1
      ∧ is_Some (getResource config n).
Proof.
  unfold load, load_key, sorted_names.
  set (names := merge_sort (locale_le localeCompare) (array_from_set resourceNames)).
  set (cp := path_join (collectionsDirectory config) (getCollectionKey names)).
  case_decide as Hlen; [done|]. run_effect. intros H.
  unfold fs_makeDirectory in H at 1.
  assert (∀ n, cp ≠ path_join cp n) as Hcp.
  { intros n Heq. symmetry in Heq. by apply app_nonempty_ne in Heq. }
  set (wa := log (op_makeDirectory cp) (with_entries (<[cp:=Dir]> (entries w)) w)) in H.
  assert (match load_resources config quiet names wa with
          | (inl e, w') =>
              (inl e, w') : (CollectionError + CollectionResult) * World
          | (inr a, w') =>
              let (s0, w'0) := link_resources cp a w' in
              match s0 with
              | inl e => (inl e, w'0)
              | inr _ =>
                  (inr {| path := cp;
                          agentInstructions :=
                            String.concat (newline +:+ newline)
                              (headerBlock
                               :: (createCollectionInstructionBlock note <$> a)) |}, w'0)
              end
          end = (inr r, w1)) as H'.
  { destruct (entries w !! cp) as [[|t]|]; by simpl in H. }
  clear H. destruct (load_resources config quiet names wa) as [[e|rs] wb] eqn:Hload; [done|].
  apply load_resources_inr in Hload as (Hall & Hnames & He & Hun & Hmono).
  destruct (link_resources_first config quiet cp names rs wb Hall) as [ops Hlink].
  rewrite Hlink in H'. injection H' as <- <-. simpl. split_and!.
  - done.
  - rewrite lookup_relinked_other, He by done. apply lookup_insert_eq.
  - intros n Hn.
    assert (n ∈ names) as Hin.
    { unfold names. by rewrite merge_sort_Permutation, elem_of_array_from_set. }
    split_and!.
    + apply lookup_relinked. by left.
    + by apply Hnames.
    + clear -Hall Hin. induction Hall as [|n' r' ns rs Hr _ IH]; [by apply elem_of_nil in Hin|].
      apply elem_of_cons in Hin as [->|Hin]; [|by apply IH].
      unfold resource_of in Hr. by destruct (getResource config n').
Qed.

Lemma loaded_collection_links_every_resource_witness :
  entries (example_load example_world).2 !! "/data/collections/svelte" = Some Dir
  ∧ entries (example_load example_world).2 !! "/data/collections/svelte/svelte" =
    Some (Link "/data/resources/svelte").
Proof.
  destruct (loaded_collection_links_every_resource example_localeCompare "note"
              example_config false ["svelte"] example_world
              (example_load example_world).2
              {| path := "/data/collections/svelte";
                 agentInstructions :=
                   String.concat (newline +:+ newline)
                     [ headerBlock;
                       String.concat newline
                         [ "## Resource: svelte"; "note"; "Path: ./svelte";
                           "Focus: ./svelte/apps/svelte.dev" ] ] |})
    as (_ & Hdir & Hlinks).
  - by vm_compute.
  - split; [exact Hdir|]. apply (Hlinks "svelte"). by left.
Defined.

End CollectionFacts.

(** ** The question handler

    [questionHandler], [errorToResponse] and [decodeQuestionRequest] of the
    btca server ([apps/server/src/index.ts]). *)
Module Question.

Import Collections.

(** [QuestionRequestSchema]. *)
Record QuestionRequest := {
  question : string;
  request_resources : option (list string);
  request_quiet : option bool
}.

(** What [req.json] and [decodeQuestionRequest] make of the request body. *)
Inductive Request :=
| unparsable
| undecodable
| decoded (r : QuestionRequest).

(** A failure of the handler's effect: a tagged error with its message, or
    a value with no [_tag], of which [String(error)] is kept. *)
Inductive Failure :=
| tagged (tag message : string)
| untagged (shown : string).

Record AgentResult := {
  answer : string;
  result_model : string * string
}.

Inductive Body :=
| body_error (error tag : string)
| body_answer (answer : string) (model : string * string)
    (resources : list string) (key path : string).

Record Response := {
  status : Z;
  body : Body
}.

#[global] Instance Body_eq_dec : EqDecision Body.
Proof. solve_decision. Defined.
#[global] Instance Response_eq_dec : EqDecision Response.
Proof. solve_decision. Defined.

(** [errorToResponse(error)]. *)
Definition errorToResponse (e : Failure) : Response :=
  let tag := match e with tagged t _ => t | untagged _ => "UnknownError" end in
  let message := match e with tagged _ m => m | untagged shown => shown end in
  {| status :=
       if decide (tag = "CollectionError" ∨ tag = "ResourceError") then 400%Z
       else 500%Z;
     body := body_error message tag |}.

(** A [CollectionError] in the handler's failure channel. *)
Definition collection_failure (e : CollectionError) : Failure :=
  tagged "CollectionError" (message e).

Section Handler.

Variable localeCompare : string → string → Z.
Variable FS_RESOURCE_SYSTEM_NOTE : string.
Variable config : ConfigService.

(** [agent.ask] of [agent/service.ts], which is not among the sources: a
    parameter. *)
Variable agent_ask : CollectionResult → string → Eff Failure AgentResult.

(** [decoded.resources && decoded.resources.length > 0 ? decoded.resources
    : config.resources.map((r) => r.name)]. *)
Definition requested_names (r : QuestionRequest) : list string :=
  match request_resources r with
  | Some (n :: names) => n :: names
  | _ => def_name <$> resources config
  end.

(** The effect before [Effect.catchAll]. *)
Definition answer_question (request : Request) : Eff Failure Response :=
  r ← match request with
       | unparsable => fail (tagged "CollectionError" "Failed to parse request JSON")
       | undecodable => fail (tagged "CollectionError" "Invalid request body")
       | decoded r => mret r
       end;
  let resourceNames := requested_names r in
  collection ← mapError collection_failure
    (load localeCompare FS_RESOURCE_SYSTEM_NOTE config
       (default false (request_quiet r)) resourceNames);
  result ← agent_ask collection (question r);
  mret {| status := 200;
          body := body_answer (answer result) (result_model result) resourceNames
                    (getCollectionKey resourceNames) (path collection) |}.

(** [questionHandler]: every failure becomes a response. *)
Definition questionHandler (request : Request) : World → Response * World :=
  λ w, match answer_question request w with
       | (inl e, w') => (errorToResponse e, w')
       | (inr response, w') => (response, w')
       end.

End Handler.

(** *** Facts *)

Lemma load_resources_unknown config quiet names n w :
  n ∈ names → getResource config n = None →
  ∃ m c w', m ∈ names
    ∧ load_resources config quiet names w =
      (inl {| message := "Failed to load resource " +:+ m; cause := c |}, w').
Proof.
  intros Hin Hnone. revert w.
  induction names as [|a names IH]; intros w; [by apply elem_of_nil in Hin|].
  cbn [load_resources]. run_effect.
  destruct (Resources_load config a quiet w) as [[e|r] w1] eqn:Hload.
  - exists a, (Some (resource_message e)), w1. split; [by left|done].
  - apply elem_of_cons in Hin as [->|Hin].
    { unfold Resources_load in Hload. by rewrite Hnone in Hload. }
    destruct (IH Hin w1) as (m & c & w' & Hm & ->).
    exists m, c, w'. split; [by right|done].
Qed.

Lemma load_unknown localeCompare note config quiet resourceNames n w :
  n ∈ resourceNames → getResource config n = None →
  ∃ msg c w',
    load localeCompare note config quiet resourceNames w =
      (inl {| message := msg; cause := c |}, w')
    ∧ (msg = "Failed to create collection directory"
       ∨ ∃ m, m ∈ resourceNames ∧ msg = "Failed to load resource " +:+ m).
Proof.
  intros Hin Hnone. unfold load.
  case_decide as Hlen.
  { apply length_zero_iff_nil in Hlen. apply (proj1 (array_from_set_nil _)) in Hlen.
    rewrite Hlen in Hin. by apply elem_of_nil in Hin. }
  run_effect.
  destruct (fs_makeDirectory _ w) as [[e|[]] w1] eqn:Hmk.
  - eexists _, _, _. split; [done|by left].
  - set (names := merge_sort _ _).
    assert (n ∈ names) as Hn.
    { unfold names. by rewrite merge_sort_Permutation, elem_of_array_from_set. }
    destruct (load_resources_unknown config quiet names n w1 Hn Hnone)
      as (m & c & w' & Hm & ->).
    eexists _, _, _. split; [done|]. right. exists m. split; [|done].
    unfold names in Hm.
    by rewrite merge_sort_Permutation, elem_of_array_from_set in Hm.
Qed.

(** A request that names a resource the configuration does not have is
    answered with status 400 and the tag [CollectionError], and the agent is
    not consulted: the response and the state of the disk are the same
    whatever the agent would do.  The message is that of the directory
    creation, when that fails, and otherwise "Failed to load resource"
    followed by a requested name. *)
Theorem unknown_resource_is_a_bad_request
    (localeCompare : string → string → Z) (note : string) (config : ConfigService)
    (agent_ask : CollectionResult → string → Eff Failure AgentResult)
    (r : QuestionRequest) (n : string) (w : World) :
  n ∈ requested_names config r →
  getResource config n = None →
  (∃ msg,
     (questionHandler localeCompare note config agent_ask (decoded r) w).1 =
       {| status := 400; body := body_error msg "CollectionError" |}
     ∧ (msg = "Failed to create collection directory"
        ∨ ∃ m, m ∈ requested_names config r ∧ msg = "Failed to load resource " +:+ m))
  ∧ ∀ other_agent,
      questionHandler localeCompare note config other_agent (decoded r) w =
      questionHandler localeCompare note config agent_ask (decoded r) w.
Proof.
  intros Hin Hnone.
  destruct (load_unknown localeCompare note config (default false (request_quiet r))
              (requested_names config r) n w Hin Hnone)
    as (msg & c & w' & Hload & Hmsg).
  assert (∀ agent, questionHandler localeCompare note config agent (decoded r) w =
                   ({| status := 400; body := body_error msg "CollectionError" |}, w'))
    as Hany.
  { intros agent. unfold questionHandler, answer_question. run_effect.
    by rewrite Hload. }
  split.
  - exists msg. by rewrite Hany.
  - intros other. by rewrite !Hany.
Qed.

Lemma unknown_resource_is_a_bad_request_witness :
  (questionHandler example_localeCompare "note" example_config
     (λ _ _, fail (untagged "no agent"))
     (decoded {| question := "What is a rune?";
                 request_resources := Some ["svelte"; "react"];
                 request_quiet := None |}) example_world).1 =
  {| status := 400;
     body := body_error "Failed to load resource react" "CollectionError" |}.
Proof.
  destruct (unknown_resource_is_a_bad_request example_localeCompare "note"
              example_config (λ _ _, fail (untagged "no agent"))
              {| question := "What is a rune?";
                 request_resources := Some ["svelte"; "react"];
                 request_quiet := None |} "react" example_world)
    as [(msg & Hresponse & _) _].
  - compute_done.
  - reflexivity.
  - rewrite Hresponse. vm_compute in Hresponse. by injection Hresponse as <-.
Defined.

(** A request without resources asks about every configured resource.
    When [resources] is omitted or empty the handler works on the names of
    all configured resources, in configuration order, exactly as if the
    request had listed them; and when nothing is configured either, the
    answer is status 400 with "Cannot create collection with no resources"
    and nothing is touched. *)
Theorem no_resources_means_all_resources
    (localeCompare : string → string → Z) (note : string) (config : ConfigService)
    (agent_ask : CollectionResult → string → Eff Failure AgentResult)
    (q : string) (quiet : option bool) (w : World) :
  let omitted := {| question := q; request_resources := None; request_quiet := quiet |} in
  let empty := {| question := q; request_resources := Some []; request_quiet := quiet |} in
  let all := {| question := q;
                request_resources := Some (def_name <$> resources config);
                request_quiet := quiet |} in
  questionHandler localeCompare note config agent_ask (decoded omitted) w =
    questionHandler localeCompare note config agent_ask (decoded all) w
  ∧ questionHandler localeCompare note config agent_ask (decoded empty) w =
    questionHandler localeCompare note config agent_ask (decoded all) w
  ∧ (resources config = [] →
     questionHandler localeCompare note config agent_ask (decoded omitted) w =
     ({| status := 400;
         body := body_error "Cannot create collection with no resources"
                   "CollectionError" |}, w)).
Proof.
  cbv zeta.
  assert (∀ r, requested_names config
                 {| question := q; request_resources := r; request_quiet := quiet |} =
               match r with
               | Some (n :: names) => n :: names
               | _ => def_name <$> resources config
               end) as Hnames by done.
  assert (requested_names config
            {| question := q; request_resources := Some (def_name <$> resources config);
               request_quiet := quiet |} = def_name <$> resources config) as Hall.
  { rewrite Hnames. by destruct (resources config). }
  split_and!.
  - unfold questionHandler, answer_question. run_effect. by rewrite Hall, !Hnames.
  - unfold questionHandler, answer_question. run_effect. by rewrite Hall, !Hnames.
  - intros Hnone. unfold questionHandler, answer_question. run_effect.
    rewrite Hnames, Hnone. reflexivity.
Qed.

End Question.

(** ** More about the batch sync *)
Module SyncFacts.

Import Sync.

(** Every process from number [p0] on is the pull of a repository of the
    batch. *)
Definition only_pulls (reposDirectory : string) (repos : list Repo) (p0 : nat)
    (w : World) : Prop :=
  ∀ pid op c, p0 ≤ pid → processes w !! pid = Some (op, c) →
    ∃ repo, repo ∈ repos ∧ op = pull_of reposDirectory repo.

(** Every repository of the batch has its directory. *)
Definition on_disk (reposDirectory : string) (repos : list Repo) (w : World) : Prop :=
  ∀ repo, repo ∈ repos → path_join reposDirectory (name repo) ∈ directories w.

Lemma process_exits_command git pid w pid' op c :
  processes (process_exits git pid w) !! pid' = Some (op, c) →
  ∃ c0, processes w !! pid' = Some (op, c0).
Proof.
  unfold process_exits.
  destruct (processes w !! pid) as [[op0 [c0|]]|] eqn:Hpid; simpl; eauto.
  destruct (decide (pid' = pid)) as [->|Hne].
  - rewrite list_lookup_insert_eq by (by eapply lookup_lt_Some).
    intros [= <- _]. eauto.
  - rewrite list_lookup_insert_ne by done. eauto.
Qed.

Lemma only_pulls_step git repos reposDirectory p0 b w a :
  inv git repos reposDirectory p0 b w →
  on_disk reposDirectory repos w →
  only_pulls reposDirectory repos p0 w →
  on_disk reposDirectory repos (step git reposDirectory (b, w) a).2
  ∧ only_pulls reposDirectory repos p0 (step git reposDirectory (b, w) a).2.
Proof.
  intros [Hfibers _ _ _] Hdisk Hpulls. destruct a as [i|pid]; simpl.
  - unfold resume. destruct (result b); [done|].
    destruct (fibers b !! i) as [[repo'|op pid|r]|] eqn:Hi; [| |done..].
    + destruct (Forall2_lookup_r _ _ _ _ _ Hfibers Hi) as (repo & Hrepo & Hok).
      simpl in Hok. subst repo'. rewrite cloneOrUpdate_run. simpl.
      apply list_elem_of_lookup_2 in Hrepo. split; [done|].
      intros pid op c Hpid Hsome.
      apply lookup_app_Some in Hsome as [Hsome|[_ Hsome]]; [by eapply Hpulls|].
      apply list_lookup_singleton_Some in Hsome as [_ [= <- _]].
      exists repo. split; [done|]. unfold command, directoryExists.
      by rewrite bool_decide_true by by apply Hdisk.
    + by destruct (processes w !! pid) as [[? [?|]]|].
  - destruct (process_exits_extends git pid w) as (Hdirs & _ & _). split.
    + intros repo Hrepo. by apply Hdirs, Hdisk.
    + intros pid' op c Hpid' Hsome.
      apply process_exits_command in Hsome as [c0 Hsome]. by eapply Hpulls.
Qed.

Lemma only_pulls_run git repos reposDirectory p0 schedule b w :
  inv git repos reposDirectory p0 b w →
  on_disk reposDirectory repos w →
  only_pulls reposDirectory repos p0 w →
  only_pulls reposDirectory repos p0
    (foldl (step git reposDirectory) (b, w) schedule).2.
Proof.
  revert b w. induction schedule as [|a schedule IH]; intros b w Hinv Hdisk Hpulls;
    [done|].
  simpl. pose proof (inv_step _ _ _ _ _ _ a Hinv) as Hinv'.
  destruct (only_pulls_step _ _ _ _ _ _ a Hinv Hdisk Hpulls) as [Hdisk' Hpulls'].
  destruct (step git reposDirectory (b, w) a) as [b1 w1]. by apply IH.
Qed.

Lemma second_batch_pulls git repos reposDirectory schedule w :
  on_disk reposDirectory repos w →
  only_pulls reposDirectory repos (length (processes w))
    (cloneOrUpdateAllReposLocally git repos reposDirectory schedule w).2.
Proof.
  intros Hdisk. apply only_pulls_run; [apply inv_fork|done|].
  intros pid op c Hpid Hsome. apply lookup_lt_Some in Hsome. lia.
Qed.

(** A batch after a successful batch only pulls.  When a batch has
    succeeded, a batch of the same repositories run in the world it left
    spawns, whatever the schedule, no other process than
    [git pull origin branch] in the directory of one of the repositories, on
    the repository's branch or on [main] when it has none: nothing is cloned
    a second time.  So if the second batch fails, it fails with "Failed to
    pull repo"; and when every pull exits with 0, the eager schedule makes
    it succeed. *)
Theorem second_batch_only_pulls
    (git : Git) (repos : list Repo) (reposDirectory : string)
    (schedule1 schedule2 : list Action) (w : World) (results : list unit) :
  let first := cloneOrUpdateAllReposLocally git repos reposDirectory schedule1 w in
  result first.1 = Some (inr results) →
  let second :=
    cloneOrUpdateAllReposLocally git repos reposDirectory schedule2 first.2 in
  (∀ pid op c,
     length (processes first.2) ≤ pid → processes second.2 !! pid = Some (op, c) →
     ∃ repo, repo ∈ repos ∧ op = pull_of reposDirectory repo)
  ∧ (∀ e, result second.1 = Some (inl e) → message e = "Failed to pull repo")
  ∧ ((∀ pid repo, repo ∈ repos → git pid (pull_of reposDirectory repo) = 0%Z) →
     result (cloneOrUpdateAllReposLocally git repos reposDirectory
               (eager_schedule (length (processes first.2)) (length repos))
               first.2).1 = Some (inr results)).
Proof.
  cbv zeta. intros Hfirst.
  destruct (batch_success _ _ _ _ _ _ Hfirst) as [-> Hall].
  set (w1 := (cloneOrUpdateAllReposLocally git repos reposDirectory schedule1 w).2) in *.
  assert (on_disk reposDirectory repos w1) as Hdisk
    by (intros repo Hrepo; by destruct (Hall repo Hrepo)).
  split_and!.
  - apply second_batch_pulls, Hdisk.
  - intros e Hres.
    destruct (batch_failure _ _ _ _ _ _ Hres)
      as (repo & pid & op & _ & _ & Hpid & Hproc & _ & ->).
    destruct (second_batch_pulls git repos reposDirectory schedule2 w1 Hdisk
                _ _ _ Hpid Hproc) as (repo' & _ & ->).
    done.
  - intros Hgit.
    destruct (eager_schedule_ends git repos reposDirectory w1) as [[e|results] Hres].
    + destruct (batch_failure _ _ _ _ _ _ Hres)
        as (repo & pid & op & _ & _ & Hpid & Hproc & Hne & _).
      destruct (second_batch_pulls git repos reposDirectory _ w1 Hdisk
                  _ _ _ Hpid Hproc) as (repo' & Hrepo' & ->).
      by destruct Hne; apply Hgit.
    + rewrite Hres. by destruct (batch_success _ _ _ _ _ _ Hres) as [-> _].
Qed.

Definition example_repos : list Repo :=
  [example_good;
   {| name := "svelte"; url := "https://github.com/sveltejs/svelte";
      branch := None |}].

Lemma second_batch_only_pulls_witness :
  let first := cloneOrUpdateAllReposLocally (λ _ _, 0%Z) example_repos "/repos"
                 (eager_schedule 0 2) example_world in
  processes first.2 =
    [(clone_of "/repos" example_good, Some 0%Z);
     (op_clone "/repos/svelte" "https://github.com/sveltejs/svelte" "main", Some 0%Z)]
  ∧ processes
      (cloneOrUpdateAllReposLocally (λ _ _, 0%Z) example_repos "/repos"
         (eager_schedule 2 2) first.2).2 =
    processes first.2
    ++ [(pull_of "/repos" example_good, Some 0%Z);
        (op_pull "/repos/svelte" "main", Some 0%Z)]
  ∧ result (cloneOrUpdateAllReposLocally (λ _ _, 0%Z) example_repos "/repos"
              (eager_schedule 2 2) first.2).1 =
    Some (inr [(); ()]).
Proof.
  cbv zeta. split_and!; [by vm_compute..|].
  destruct (second_batch_only_pulls (λ _ _, 0%Z) example_repos "/repos"
              (eager_schedule 0 2) (eager_schedule 2 2) example_world [(); ()])
    as (_ & _ & Hsucceeds); [by vm_compute|].
  specialize (Hsucceeds (λ _ _ _, eq_refl)).
  vm_compute in Hsucceeds. vm_compute. exact Hsucceeds.
Defined.

End SyncFacts.

(** ** Server configuration

    [expandHome], [createDefaultConfig], [loadConfigFromPath],
    [makeConfigService] and [ConfigLive] of
    [apps/server/src/config/index.ts]. *)
Module Config.

Import Collections.

Definition GLOBAL_CONFIG_DIR : string := "~/.config/btca".
Definition GLOBAL_CONFIG_FILENAME : string := "btca.config.jsonc".
Definition GLOBAL_DATA_DIR : string := "~/.local/share/btca".
Definition PROJECT_CONFIG_FILENAME : string := "btca.config.jsonc".
Definition PROJECT_DATA_DIR : string := ".btca".
Definition CONFIG_SCHEMA_URL : string := "https://btca.dev/btca.schema.json".
Definition DEFAULT_MODEL : string := "claude-haiku-4-5".
Definition DEFAULT_PROVIDER : string := "opencode".

Definition DEFAULT_RESOURCES : list ResourceDefinition :=
  [ {| def_name := "svelte"; def_type := git;
       def_url := "https://github.com/sveltejs/svelte.dev";
       def_branch := "main"; def_searchPath := Some "apps/svelte.dev";
       def_specialNotes :=
         Some "This is the svelte docs website repo, not the actual svelte repo. Focus on the content directory, it has all the markdown files for the docs." |};
    {| def_name := "tailwindcss"; def_type := git;
       def_url := "https://github.com/tailwindlabs/tailwindcss.com";
       def_branch := "main"; def_searchPath := Some "src/docs";
       def_specialNotes :=
         Some "This is the tailwindcss docs website repo, not the actual tailwindcss repo. Use the docs to answer questions about tailwindcss." |};
    {| def_name := "nextjs"; def_type := git;
       def_url := "https://github.com/vercel/next.js";
       def_branch := "canary"; def_searchPath := Some "docs";
       def_specialNotes :=
         Some "These are the docs for the next.js framework, not the actual next.js repo. Use the docs to answer questions about next.js." |} ].

(** [StoredConfig]. *)
Record StoredConfig := {
  schema : option string;
  stored_resources : list ResourceDefinition;
  stored_model : string;
  stored_provider : string
}.

Record ConfigError := {
  message : string;
  cause : option string
}.

(** [ConfigService]: the three fields [Collections] reads, and the model
    and the provider. *)
Record Service := {
  directories : Collections.ConfigService;
  model : string;
  provider : string
}.

(** The process environment the module reads. *)
Record Process := {
  HOME : option string;
  USERPROFILE : option string;
  cwd : string
}.

(** *** Strings *)

Definition slash : ascii := "/"%char.

(** [path.startsWith(p)]. *)
Definition startsWith (p path : string) : bool := String.prefix p path.

(** [path.slice(1)]. *)
Definition slice_from_1 (path : string) : string :=
  match path with
  | EmptyString => EmptyString
  | String _ rest => rest
  end.

(** [s.lastIndexOf(c)] for a one-character string [c]: the index of its
    last occurrence, or [-1].  [i] is the index of the first character of
    [s], [found] the last index seen so far. *)
Fixpoint lastIndexOf_from (c : ascii) (s : string) (i found : Z) : Z :=
  match s with
  | EmptyString => found
  | String a rest =>
      lastIndexOf_from c rest (i + 1) (if Ascii.eqb a c then i else found)
  end.

Definition lastIndexOf (c : ascii) (s : string) : Z :=
  lastIndexOf_from c s 0 (-1).

(** [s.slice(0, end)]: a negative [end] counts from the end of the string,
    and the result is cut to what the string holds. *)
Definition slice_to (s : string) (end_ : Z) : string :=
  let len := Z.of_nat (String.length s) in
  let to := if (end_ <? 0)%Z then Z.max (len + end_) 0 else Z.min end_ len in
  String.substring 0 (Z.to_nat to) s.

(** [expandHome(path)]. *)
Definition expandHome (process : Process) (path : string) : string :=
  let home := default (default "" (USERPROFILE process)) (HOME process) in
  if startsWith "~/" path then home +:+ slice_from_1 path else path.

(** [configPath.slice(0, configPath.lastIndexOf("/"))]. *)
Definition configDir (configPath : string) : string :=
  slice_to configPath (lastIndexOf slash configPath).

(** *** The file system *)

(** A file holds a JavaScript string, a list of code units as in [Jsonc]. *)
Inductive Node := File (content : list N) | Directory.

(** The file system is a flat map from paths to nodes, as in [Collections];
    making a directory records the directory itself. *)
Record World := { files : gmap string Node }.

Abbreviation Eff := (Effect World).

(** The platform's [FileSystem], four calls of it.  A directory cannot be
    read or written as a file, and no directory can be made where a file
    is. *)
Definition fs_exists (path : string) : Eff string bool :=
  λ w, (inr (bool_decide (is_Some (files w !! path))), w).

Definition fs_readFileString (path : string) : Eff string (list N) :=
  λ w, match files w !! path with
       | Some (File content) => (inr content, w)
       | Some Directory => (inl "EISDIR", w)
       | None => (inl "ENOENT", w)
       end.

Definition fs_makeDirectory (path : string) : Eff string unit :=
  λ w, match files w !! path with
       | Some (File _) => (inl "EEXIST", w)
       | _ => (inr (), {| files := <[path := Directory]> (files w) |})
       end.

Definition fs_writeFileString (path : string) (content : list N) : Eff string unit :=
  λ w, match files w !! path with
       | Some Directory => (inl "EISDIR", w)
       | _ => (inr (), {| files := <[path := File content]> (files w) |})
       end.

Section Live.

(** [JSON.parse] ([None] when it throws), [Schema.decodeUnknown] of
    [StoredConfigSchema] ([None] when it fails) and [JSON.stringify(value,
    null, 2)] are the platform's and the schema library's: parameters. *)
Variable Json : Type.
Variable JSON_parse : list N → option Json.
Variable decodeStored : Json → option StoredConfig.
Variable JSON_stringify : StoredConfig → list N.

Variable process : Process.

Definition fail_with (m : string) (cause : string) : ConfigError :=
  {| message := m; cause := Some cause |}.

Definition defaultStored : StoredConfig :=
  {| schema := Some CONFIG_SCHEMA_URL;
     stored_resources := DEFAULT_RESOURCES;
     stored_model := DEFAULT_MODEL;
     stored_provider := DEFAULT_PROVIDER |}.

(** [createDefaultConfig(configPath)]. *)
Definition createDefaultConfig (configPath : string) : Eff ConfigError StoredConfig :=
  mapError (fail_with "Failed to create config directory")
    (fs_makeDirectory (configDir configPath));;
  mapError (fail_with "Failed to write default config")
    (fs_writeFileString configPath (JSON_stringify defaultStored));;
  mret defaultStored.

(** [parseJsonc(content)] inside [Effect.try]. *)
Definition parse (content : list N) : Eff ConfigError Json :=
  match Jsonc.parseJsonc JSON_parse content with
  | Some parsed => succeed parsed
  | None => fail {| message := "Failed to parse config JSONC"; cause := None |}
  end.

(** [loadConfigFromPath(configPath)]. *)
Definition loadConfigFromPath (configPath : string) : Eff ConfigError StoredConfig :=
  content ← mapError (fail_with "Failed to read config") (fs_readFileString configPath);
  parsed ← parse content;
  match decodeStored parsed with
  | Some stored => succeed stored
  | None => fail {| message := "Invalid config"; cause := None |}
  end.

(** [makeConfigService(stored, resourcesDirectory, collectionsDirectory)];
    [getResource] is [Collections.getResource]. *)
Definition makeConfigService (stored : StoredConfig)
    (resourcesDirectory collectionsDirectory : string) : Service :=
  {| directories :=
       {| Collections.resourcesDirectory := resourcesDirectory;
          Collections.collectionsDirectory := collectionsDirectory;
          Collections.resources := stored_resources stored |};
     model := stored_model stored;
     provider := stored_provider stored |}.

Definition projectConfigPath : string :=
  cwd process +:+ "/" +:+ PROJECT_CONFIG_FILENAME.

Definition globalConfigPath : string :=
  expandHome process GLOBAL_CONFIG_DIR +:+ "/" +:+ GLOBAL_CONFIG_FILENAME.

(** The effect of [ConfigLive]. *)
Definition ConfigLive : Eff ConfigError Service :=
  projectConfigExists ← mapError (fail_with "Failed to check project config")
    (fs_exists projectConfigPath);
  if projectConfigExists : bool then
    stored ← loadConfigFromPath projectConfigPath;
    mret (makeConfigService stored
            (cwd process +:+ "/" +:+ PROJECT_DATA_DIR +:+ "/resources")
            (cwd process +:+ "/" +:+ PROJECT_DATA_DIR +:+ "/collections"))
  else
    globalConfigExists ← mapError (fail_with "Failed to check global config")
      (fs_exists globalConfigPath);
    stored ← (if globalConfigExists : bool
              then loadConfigFromPath globalConfigPath
              else createDefaultConfig globalConfigPath);
    mret (makeConfigService stored
            (expandHome process GLOBAL_DATA_DIR +:+ "/resources")
            (expandHome process GLOBAL_DATA_DIR +:+ "/collections")).

End Live.

(** *** Facts about the strings *)

Fixpoint has_slash (s : string) : bool :=
  match s with
  | EmptyString => false
  | String a rest => Ascii.eqb a slash || has_slash rest
  end.

Lemma lastIndexOf_from_none s i found :
  has_slash s = false → lastIndexOf_from slash s i found = found.
Proof.
  revert i found. induction s as [|a s IH]; intros i found; [done|]. simpl.
  intros [Ha Hs]%orb_false_iff. rewrite Ha. by apply IH.
Qed.

Lemma lastIndexOf_from_last dir file i found :
  has_slash file = false →
  lastIndexOf_from slash (dir +:+ String slash file) i found =
  (i + Z.of_nat (String.length dir))%Z.
Proof.
  intros Hfile. revert i found. induction dir as [|a dir IH]; intros i found.
  - simpl. rewrite lastIndexOf_from_none by done. lia.
  - simpl. rewrite IH. lia.
Qed.

Lemma substring_prefix (a b : string) :
  String.substring 0 (String.length a) (a +:+ b) = a.
Proof.
  induction a as [|c a IH]; simpl.
  - by destruct b.
  - by rewrite IH.
Qed.

Lemma length_app_string (a b : string) :
  String.length (a +:+ b) = String.length a + String.length b.
Proof. induction a as [|c a IH]; simpl; [done|]. by rewrite IH. Qed.

Lemma configDir_of_entry (dir file : string) :
  has_slash file = false → configDir (dir +:+ "/" +:+ file) = dir.
Proof.
  intros Hfile. unfold configDir, lastIndexOf.
  change (dir +:+ "/" +:+ file) with (dir +:+ String slash file).
  rewrite lastIndexOf_from_last by done. unfold slice_to.
  rewrite length_app_string. simpl String.length.
  destruct (Z.ltb_spec (0 + Z.of_nat (String.length dir)) 0) as [?|_]; [lia|].
  replace (Z.to_nat _) with (String.length dir) by lia.
  apply substring_prefix.
Qed.

Lemma entry_is_not_its_directory (dir file : string) :
  dir +:+ "/" +:+ file ≠ dir.
Proof.
  intros H. apply (f_equal String.length) in H.
  rewrite length_app_string in H. simpl in H. lia.
Qed.

Section Facts.

Variable Json : Type.
Variable JSON_parse : list N → option Json.
Variable decodeStored : Json → option StoredConfig.
Variable JSON_stringify : StoredConfig → list N.
Variable process : Process.

Lemma loadConfigFromPath_reads configPath w w' :
  files w !! configPath = files w' !! configPath →
  (loadConfigFromPath Json JSON_parse decodeStored configPath w).2 = w
  ∧ (loadConfigFromPath Json JSON_parse decodeStored configPath w').1 =
    (loadConfigFromPath Json JSON_parse decodeStored configPath w).1.
Proof.
  intros Heq. unfold loadConfigFromPath, parse, fs_readFileString.
  run_effect. rewrite <-Heq.
  destruct (files w !! configPath) as [[content|]|]; simpl; [|done..].
  destruct (Jsonc.parseJsonc JSON_parse content) as [parsed|]; simpl; [|done].
  by destruct (decodeStored parsed).
Qed.

(** First run: when neither the project's nor the global config file
    exists (and no file stands where the global config directory goes),
    [ConfigLive] makes the directory [expandHome(GLOBAL_CONFIG_DIR)], writes
    the default config into the file [btca.config.jsonc] of that directory
    and answers with the default resources, model and provider and the data
    directories under [expandHome(GLOBAL_DATA_DIR)]. *)
Theorem first_run_writes_the_default_config (w : World) :
  files w !! projectConfigPath process = None →
  files w !! globalConfigPath process = None →
  (∀ content, files w !! expandHome process GLOBAL_CONFIG_DIR ≠ Some (File content)) →
  ConfigLive Json JSON_parse decodeStored JSON_stringify process w =
  (inr {| directories :=
            {| Collections.resourcesDirectory :=
                 expandHome process GLOBAL_DATA_DIR +:+ "/resources";
               Collections.collectionsDirectory :=
                 expandHome process GLOBAL_DATA_DIR +:+ "/collections";
               Collections.resources := DEFAULT_RESOURCES |};
          model := DEFAULT_MODEL;
          provider := DEFAULT_PROVIDER |},
   {| files :=
        <[globalConfigPath process := File (JSON_stringify defaultStored)]>
          (<[expandHome process GLOBAL_CONFIG_DIR := Directory]> (files w)) |}).
Proof.
  intros Hproject Hglobal Hdir.
  unfold ConfigLive, createDefaultConfig, fs_exists, fs_makeDirectory,
    fs_writeFileString.
  run_effect. cbv beta. rewrite Hproject.
  rewrite bool_decide_eq_false_2 by (intros [? [=]]). cbv beta iota.
  rewrite Hglobal.
  rewrite bool_decide_eq_false_2 by (intros [? [=]]). cbv beta iota.
  assert (configDir (globalConfigPath process) = expandHome process GLOBAL_CONFIG_DIR)
    as -> by by apply configDir_of_entry.
  assert (∀ node, <[expandHome process GLOBAL_CONFIG_DIR := node]> (files w)
                    !! globalConfigPath process = None) as Hnew.
  { intros node. rewrite lookup_insert_ne; [done|].
    intros H. symmetry in H. by apply entry_is_not_its_directory in H. }
  destruct (files w !! expandHome process GLOBAL_CONFIG_DIR) as [[content|]|] eqn:Hd;
    [by destruct (Hdir content)| |]; cbv beta iota; cbn [files]; by rewrite Hnew.
Qed.

(** A project config file hides the global one: when
    [cwd/btca.config.jsonc] exists, [ConfigLive] changes nothing on disk,
    its answer (the service or the error) depends on that file alone, so it
    neither falls back to the global config nor writes the default one when
    the project file cannot be loaded, and the directories of the service
    are the project's [.btca/resources] and [.btca/collections]. *)
Theorem project_config_hides_the_global_one (w w' : World) :
  is_Some (files w !! projectConfigPath process) →
  files w' !! projectConfigPath process = files w !! projectConfigPath process →
  (ConfigLive Json JSON_parse decodeStored JSON_stringify process w).2 = w
  ∧ (ConfigLive Json JSON_parse decodeStored JSON_stringify process w').1 =
    (ConfigLive Json JSON_parse decodeStored JSON_stringify process w).1
  ∧ ∀ service,
      (ConfigLive Json JSON_parse decodeStored JSON_stringify process w).1 =
        inr service →
      Collections.resourcesDirectory (directories service) =
        cwd process +:+ "/.btca/resources"
      ∧ Collections.collectionsDirectory (directories service) =
        cwd process +:+ "/.btca/collections".
Proof.
  intros Hsome Heq.
  destruct (loadConfigFromPath_reads (projectConfigPath process) w w') as [Hw Hres];
    [done|].
  unfold ConfigLive, fs_exists. run_effect. cbv beta. rewrite Heq.
  rewrite !bool_decide_eq_true_2 by done. cbv beta iota.
  rewrite (surjective_pairing (loadConfigFromPath _ _ _ _ w')), Hres.
  destruct (loadConfigFromPath Json JSON_parse decodeStored
              (projectConfigPath process) w') as [r' w1'].
  destruct (loadConfigFromPath Json JSON_parse decodeStored
              (projectConfigPath process) w) as [r w1].
  simpl in *. subst w1. destruct r as [e|stored]; simpl.
  - split_and!; [done..|]. intros service [=].
  - split_and!; [done..|]. by intros service [= <-].
Qed.

End Facts.

Definition example_process : Process :=
  {| HOME := Some "/home/dev"; USERPROFILE := None; cwd := "/work/app" |}.

Definition example_project : World :=
  {| files := {[ "/work/app/btca.config.jsonc" := File (Jsonc.codes "{ }") ]} |}.

Lemma first_run_writes_the_default_config_witness :
  ConfigLive unit (λ _, None) (λ _, None) (λ _, Jsonc.codes "{}") example_process
    {| files := ∅ |} =
  (inr {| directories :=
            {| Collections.resourcesDirectory := "/home/dev/.local/share/btca/resources";
               Collections.collectionsDirectory := "/home/dev/.local/share/btca/collections";
               Collections.resources := DEFAULT_RESOURCES |};
          model := DEFAULT_MODEL;
          provider := DEFAULT_PROVIDER |},
   {| files :=
        <["/home/dev/.config/btca/btca.config.jsonc" := File (Jsonc.codes "{}")]>
          (<["/home/dev/.config/btca" := Directory]> ∅) |}).
Proof.
  exact (first_run_writes_the_default_config unit (λ _, None) (λ _, None)
           (λ _, Jsonc.codes "{}") example_process {| files := ∅ |}
           eq_refl eq_refl (λ content H, eq_ind None (λ o, match o with None => True | Some _ => False end) I _ H)).
Defined.

Lemma project_config_hides_the_global_one_witness :
  (ConfigLive unit (λ _, Some ()) (λ _, Some defaultStored) (λ _, Jsonc.codes "{}")
     example_process example_project).2 = example_project.
Proof.
  apply (project_config_hides_the_global_one unit (λ _, Some ())
           (λ _, Some defaultStored) (λ _, Jsonc.codes "{}") example_process
           example_project example_project).
  - eexists. vm_compute. reflexivity.
  - reflexivity.
Defined.

End Config.

(** ** The mention menu of the chat page

    [getMentionAtCursor] and [applyMention] of
    [apps/chat-web/src/routes/+page.svelte]. *)
Module MentionMenu.

Import Mentions.

Definition space : N := 32.

(** [mentionRange]: [{ start, end, query }]. *)
Record Range := {
  start : nat;
  end_ : nat;
  query : text
}.

(** What [\w*] matches at the head of [s]: the longest run of word
    characters. *)
Fixpoint word_run (s : text) : text :=
  match s with
  | c :: rest => if is_word c then c :: word_run rest else []
  | [] => []
  end.

(** The [while ((match = regex.exec(value)) !== null)] loop for the regular
    expression [/(^|(?<=\s))@\w*/g].  [i] is the index of the head of [s];
    [boundary] says that [i] is the start of the input or follows a white
    space character; [skip] is the number of characters left before
    [regex.lastIndex], the end of the previous match. *)
Fixpoint exec_from (cursor i : nat) (boundary : bool) (skip : nat) (s : text)
  : option Range :=
  match s with
  | [] => None
  | c :: rest =>
      match skip with
      | S k => exec_from cursor (S i) (Jsonc.is_whitespace c) k rest
      | 0 =>
          if boundary && (c =? at_sign)%N then
            let matched := word_run rest in
            let last := i + length (at_sign :: matched) in
            if (i <=? cursor) && (cursor <=? last) then
              Some {| start := i; end_ := last; query := matched |}
            else exec_from cursor (S i) (Jsonc.is_whitespace c) (length matched) rest
          else exec_from cursor (S i) (Jsonc.is_whitespace c) 0 rest
      end
  end.

(** [getMentionAtCursor(value, cursor)]. *)
Definition getMentionAtCursor (value : text) (cursor : nat) : option Range :=
  exec_from cursor 0 true 0 value.

(** The new [inputValue] of [applyMention(resourceName)] when [mentionRange]
    is [range]: [before + insert + after]. *)
Definition applyMention (range : Range) (resourceName : text) (inputValue : text)
  : text :=
  let before := take (start range) inputValue in
  let after := drop (end_ range) inputValue in
  let insert := at_sign :: resourceName ++ [space] in
  before ++ insert ++ after.

(** *** Facts *)

Lemma word_run_spec s :
  ∃ after, s = word_run s ++ after ∧ forallb is_word (word_run s) = true
           ∧ next_is_word after = false.
Proof.
  induction s as [|c rest (after & Heq & Hw & Hafter)]; [by exists []|]. simpl.
  destruct (is_word c) eqn:Hc.
  - exists after. simpl. rewrite Hc, Hw. by rewrite <-Heq.
  - exists (c :: rest). by simpl.
Qed.

Lemma exec_from_spec cursor i boundary skip s r :
  exec_from cursor i boundary skip s = Some r →
  ∃ before after,
    s = before ++ at_sign :: query r ++ after
    ∧ start r = i + length before
    ∧ end_ r = start r + (1 + length (query r))
    ∧ forallb is_word (query r) = true
    ∧ next_is_word after = false
    ∧ start r ≤ cursor ≤ end_ r.
Proof.
  revert i boundary skip. induction s as [|c rest IH]; intros i boundary skip; [done|].
  assert (∀ b k, exec_from cursor (S i) b k rest = Some r →
    ∃ before after,
      c :: rest = before ++ at_sign :: query r ++ after
      ∧ start r = i + length before
      ∧ end_ r = start r + (1 + length (query r))
      ∧ forallb is_word (query r) = true
      ∧ next_is_word after = false
      ∧ start r ≤ cursor ≤ end_ r) as Hnext.
  { intros b k (before & after & -> & Hs & He & Hw & Hafter & Hc)%IH.
    exists (c :: before), after. split_and!; try done; simpl; lia. }
  simpl. destruct skip as [|k]; [|apply Hnext].
  destruct (boundary && (c =? at_sign)%N) eqn:Hat; [|apply Hnext].
  destruct ((i <=? cursor) && (cursor <=? i + S (length (word_run rest)))) eqn:Hin;
    [|apply Hnext].
  intros [= <-]. simpl.
  apply andb_true_iff in Hat as [_ ->%N.eqb_eq].
  apply andb_true_iff in Hin as [Hlo%Nat.leb_le Hhi%Nat.leb_le].
  destruct (word_run_spec rest) as (after & Heq & Hw & Hafter).
  exists [], after. simpl. rewrite <-Heq. split_and!; try done; lia.
Qed.

(** The mention under the cursor is replaced by the picked resource and a
    space, and nothing else of the input changes: when [getMentionAtCursor]
    finds a range, the input is [before], an [@], the query (a run of word
    characters that ends where [after] begins) and [after], with the cursor
    inside the mention, and [applyMention] with that range gives [before],
    the mention of the picked resource, a space and [after].  When the
    resource name is a non-empty run of word characters, [parseMentions]
    finds it in the new input. *)
Theorem picked_resource_replaces_the_mention
    (value : text) (cursor : nat) (range : Range) (resourceName : text) :
  getMentionAtCursor value cursor = Some range →
  ∃ before after,
    value = before ++ at_sign :: query range ++ after
    ∧ forallb is_word (query range) = true
    ∧ next_is_word after = false
    ∧ length before ≤ cursor ≤ length before + 1 + length (query range)
    ∧ applyMention range resourceName value =
        before ++ at_sign :: resourceName ++ space :: after
    ∧ (resourceName ≠ [] → forallb is_word resourceName = true →
       resourceName ∈ resources (parseMentions (applyMention range resourceName value))).
Proof.
  intros (before & after & -> & Hs & He & Hw & Hafter & Hc)%exec_from_spec.
  simpl in Hs. exists before, after.
  assert (applyMention range resourceName (before ++ at_sign :: query range ++ after)
          = before ++ at_sign :: resourceName ++ space :: after) as Happly.
  { unfold applyMention. cbv zeta. rewrite Hs, take_app_length.
    assert (drop (end_ range) (before ++ at_sign :: query range ++ after) = after)
      as ->.
    { change (before ++ at_sign :: query range ++ after)
        with (before ++ (at_sign :: query range) ++ after).
      rewrite app_assoc. apply drop_app_length'. rewrite length_app. simpl. lia. }
    simpl. by rewrite <-app_assoc. }
  split_and!; [done..|lia|lia|done|].
  intros Hne Hname. rewrite Happly. unfold parseMentions; simpl.
  rewrite elem_of_array_from_set_list. apply captures_from_complete.
  split_and!; [done..|]. by exists before, (space :: after).
Qed.

Lemma picked_resource_replaces_the_mention_witness :
  applyMention {| start := 4; end_ := 7; query := Jsonc.codes "sv" |}
    (Jsonc.codes "svelte") (Jsonc.codes "ask @sv about runes") =
  Jsonc.codes "ask @svelte  about runes"
  ∧ Jsonc.codes "svelte" ∈
      resources (parseMentions (Jsonc.codes "ask @svelte  about runes")).
Proof.
  destruct (picked_resource_replaces_the_mention (Jsonc.codes "ask @sv about runes") 6
              {| start := 4; end_ := 7; query := Jsonc.codes "sv" |}
              (Jsonc.codes "svelte") eq_refl)
    as (before & after & _ & _ & _ & _ & Happly & Hin).
  specialize (Hin ltac:(done) eq_refl).
  assert (applyMention {| start := 4; end_ := 7; query := Jsonc.codes "sv" |}
            (Jsonc.codes "svelte") (Jsonc.codes "ask @sv about runes") =
          Jsonc.codes "ask @svelte  about runes") as Heq by reflexivity.
  rewrite Heq in Hin. by split.
Defined.

End MentionMenu.

(** ** What the chat page shows

    [sortChunks] and [normalizeCodeLang] of
    [apps/chat-web/src/routes/+page.svelte]. *)
Module Render.

Import Aggregator.

(** The four arrays of [sortChunks]. *)
Record Buckets := {
  reasoning : list ChunkObj;
  tools : list ChunkObj;
  text : list ChunkObj;
  other : list ChunkObj
}.

(** The body of the [for] loop. *)
Definition push_chunk (b : Buckets) (chunk : ChunkObj) : Buckets :=
  if decide (o_type chunk = Some type_reasoning) then
    {| reasoning := reasoning b ++ [chunk]; tools := tools b;
       text := text b; other := other b |}
  else if decide (o_type chunk = Some type_tool) then
    {| reasoning := reasoning b; tools := tools b ++ [chunk];
       text := text b; other := other b |}
  else if decide (o_type chunk = Some type_text) then
    {| reasoning := reasoning b; tools := tools b;
       text := text b ++ [chunk]; other := other b |}
  else
    {| reasoning := reasoning b; tools := tools b;
       text := text b; other := other b ++ [chunk] |}.

(** [sortChunks(chunks)]. *)
Definition sortChunks (chunks : list ChunkObj) : list ChunkObj :=
  let b := foldl push_chunk
             {| reasoning := []; tools := []; text := []; other := [] |} chunks in
  reasoning b ++ tools b ++ text b ++ other b.

(** The place of a chunk's group on the page. *)
Definition rank (chunk : ChunkObj) : nat :=
  if decide (o_type chunk = Some type_reasoning) then 0
  else if decide (o_type chunk = Some type_tool) then 1
  else if decide (o_type chunk = Some type_text) then 2
  else 3.

Definition of_rank (k : nat) (chunks : list ChunkObj) : list ChunkObj :=
  filter (λ c, rank c = k) chunks.

(** *** The languages of code blocks *)

(** The [langs] the highlighter is created with. *)
Definition loaded_langs : list string :=
  ["elixir"; "typescript"; "svelte"; "json"; "text"; "javascript"; "html";
   "css"; "bash"; "shell"].

(** [langMap]: its own properties. *)
Definition langMap : list (string * string) :=
  [("ts", "typescript"); ("js", "javascript"); ("svelte", "svelte");
   ("json", "json"); ("elixir", "elixir"); ("ex", "elixir"); ("exs", "elixir");
   ("typescript", "typescript"); ("javascript", "javascript"); ("html", "html");
   ("css", "css"); ("bash", "bash"); ("sh", "shell"); ("shell", "shell")].

(** The properties an object literal inherits from [Object.prototype]. *)
Definition Object_prototype : list string :=
  ["constructor"; "__defineGetter__"; "__defineSetter__"; "hasOwnProperty";
   "__lookupGetter__"; "__lookupSetter__"; "isPrototypeOf";
   "propertyIsEnumerable"; "toString"; "valueOf"; "__proto__"; "toLocaleString"].

(** What [langMap[lang]] evaluates to: the string of an own property, a
    member of [Object.prototype] (a function or an object, never [null] or
    [undefined]), or [undefined]. *)
Inductive Looked :=
| own (value : string)
| inherited
| undefined.

Definition get (key : string) : Looked :=
  match list_find (λ p, p.1 = key) langMap with
  | Some (_, (_, value)) => own value
  | None => if decide (key ∈ Object_prototype) then inherited else undefined
  end.

(** What [normalizeCodeLang] returns: declared a string, at run time it can
    be what [langMap] inherits. *)
Inductive Lang :=
| lang_name (name : string)
| not_a_string.

Section Normalize.

(** [String.prototype.trim] and [String.prototype.toLowerCase] are the
    platform's. *)
Variable trim : string → string.
Variable toLowerCase : string → string.

(** [normalizeCodeLang(langRaw)]. *)
Definition normalizeCodeLang (langRaw : option string) : Lang :=
  let lang := toLowerCase (trim (default "" langRaw)) in
  if decide (lang = "") then lang_name "text"
  else match get lang with
       | own value => lang_name value
       | inherited => not_a_string
       | undefined => lang_name "text"
       end.

End Normalize.

(** An upper-case letter of ASCII. *)
Definition is_upper (a : ascii) : bool :=
  let n := Ascii.nat_of_ascii a in (65 <=? n) && (n <=? 90).

Fixpoint has_upper (s : string) : bool :=
  match s with
  | EmptyString => false
  | String a rest => is_upper a || has_upper rest
  end.

(** *** Facts *)

Lemma foldl_push_chunk b chunks :
  foldl push_chunk b chunks =
  {| reasoning := reasoning b ++ of_rank 0 chunks;
     tools := tools b ++ of_rank 1 chunks;
     text := text b ++ of_rank 2 chunks;
     other := other b ++ of_rank 3 chunks |}.
Proof.
  revert b. induction chunks as [|c chunks IH]; intros b.
  - destruct b. simpl. unfold of_rank. simpl. by rewrite !app_nil_r.
  - cbn [foldl]. rewrite IH. unfold of_rank. rewrite !filter_cons.
    unfold push_chunk, rank.
    repeat (case_decide; cbn [reasoning tools text other]; try done);
      by rewrite <-?app_assoc.
Qed.

Lemma sortChunks_groups chunks :
  sortChunks chunks =
  of_rank 0 chunks ++ of_rank 1 chunks ++ of_rank 2 chunks ++ of_rank 3 chunks.
Proof. unfold sortChunks. cbv zeta. by rewrite foldl_push_chunk. Qed.

Lemma rank_bound c : rank c ≤ 3.
Proof. unfold rank. repeat case_decide; lia. Qed.

Lemma of_rank_of_rank k j chunks :
  of_rank k (of_rank j chunks) = if decide (k = j) then of_rank j chunks else [].
Proof.
  unfold of_rank. induction chunks as [|c chunks IH]; [by case_decide|].
  rewrite (filter_cons _ c chunks). destruct (decide (rank c = j)) as [Hj|Hj].
  - rewrite !filter_cons. rewrite IH. destruct (decide (k = j)) as [->|Hne].
    + by rewrite !decide_True.
    + by rewrite decide_False by congruence.
  - rewrite IH. by case_decide.
Qed.

Lemma of_rank_sortChunks k chunks : of_rank k (sortChunks chunks) = of_rank k chunks.
Proof.
  rewrite sortChunks_groups. unfold of_rank at 1. rewrite !filter_app.
  fold (of_rank k (of_rank 0 chunks)) (of_rank k (of_rank 1 chunks))
    (of_rank k (of_rank 2 chunks)) (of_rank k (of_rank 3 chunks)).
  rewrite !of_rank_of_rank.
  destruct (decide (k = 0)) as [->|?]; [by rewrite !app_nil_r|].
  destruct (decide (k = 1)) as [->|?]; [by rewrite !app_nil_r|].
  destruct (decide (k = 2)) as [->|?]; [by rewrite !app_nil_r|].
  destruct (decide (k = 3)) as [->|?]; [done|].
  simpl. unfold of_rank. induction chunks as [|c chunks IH]; [done|].
  rewrite filter_cons, decide_False; [done|]. pose proof (rank_bound c). lia.
Qed.

Lemma of_rank_sorted k chunks :
  StronglySorted (λ a b, rank a ≤ rank b) (of_rank k chunks).
Proof.
  unfold of_rank. induction chunks as [|c chunks IH]; [constructor|].
  rewrite filter_cons. case_decide; [|done]. constructor; [done|].
  apply Forall_forall. intros c' [Hc' _]%list_elem_of_filter. lia.
Qed.

Lemma elem_of_of_rank k chunks c : c ∈ of_rank k chunks → rank c = k.
Proof. unfold of_rank. by intros [? _]%list_elem_of_filter. Qed.

Lemma of_rank_permutation chunks :
  of_rank 0 chunks ++ of_rank 1 chunks ++ of_rank 2 chunks ++ of_rank 3 chunks
  ≡ₚ chunks.
Proof.
  unfold of_rank. induction chunks as [|c chunks IH]; [done|].
  rewrite !filter_cons. pose proof (rank_bound c).
  destruct (decide (rank c = 0)); [|destruct (decide (rank c = 1));
    [|destruct (decide (rank c = 2)); [|destruct (decide (rank c = 3)); [|lia]]]].
  - rewrite !decide_False by lia. rewrite <-!app_comm_cons. by rewrite IH.
  - rewrite !decide_False by lia. rewrite <-!app_comm_cons.
    rewrite <-Permutation_middle. by rewrite IH.
  - rewrite decide_False by lia. rewrite <-!app_comm_cons.
    do 2 rewrite <-Permutation_middle. by rewrite IH.
  - do 3 rewrite <-Permutation_middle. by rewrite IH.
Qed.

(** The page shows every chunk of a message once, grouped: reasoning first,
    then tools, then text, then anything else.  [sortChunks] returns a
    permutation of its argument that is ordered by group, the chunks of one
    group keep the order they arrived in, and sorting again changes
    nothing. *)
Theorem sorted_chunks_are_grouped (chunks : list ChunkObj) :
  sortChunks chunks ≡ₚ chunks
  ∧ StronglySorted (λ a b, rank a ≤ rank b) (sortChunks chunks)
  ∧ (∀ k, filter (λ c, rank c = k) (sortChunks chunks) =
          filter (λ c, rank c = k) chunks)
  ∧ sortChunks (sortChunks chunks) = sortChunks chunks.
Proof.
  split_and!.
  - rewrite sortChunks_groups. apply of_rank_permutation.
  - rewrite sortChunks_groups.
    repeat (apply StronglySorted_app_2; [|apply of_rank_sorted|]);
      try apply of_rank_sorted;
      intros a b Ha Hb; apply elem_of_of_rank in Ha;
      rewrite ?elem_of_app in Hb;
      repeat (destruct Hb as [Hb|Hb]; [apply elem_of_of_rank in Hb; lia|]);
      apply elem_of_of_rank in Hb; lia.
  - intros k. apply of_rank_sortChunks.
  - rewrite (sortChunks_groups (sortChunks chunks)), !of_rank_sortChunks.
    by rewrite sortChunks_groups.
Qed.

Lemma get_own key value : get key = own value → value ∈ loaded_langs.
Proof.
  unfold get. destruct (list_find _ langMap) as [[i [k v]]|] eqn:Hfind.
  - intros [= <-]. apply list_find_Some in Hfind as (Hi & _ & _).
    apply list_elem_of_lookup_2 in Hi. revert Hi. unfold langMap.
    rewrite !elem_of_cons, elem_of_nil.
    intros H. repeat (destruct H as [[= -> ->]|H]; [compute_done|]). done.
  - by case_decide.
Qed.

Lemma lower_inherited key :
  has_upper key = false → key ∈ Object_prototype →
  key = "constructor" ∨ key = "__proto__".
Proof.
  intros Hup. unfold Object_prototype. rewrite !elem_of_cons, elem_of_nil.
  intros H. repeat (destruct H as [->|H]; [(by left) || (by right) || done|]). done.
Qed.

(** A code block is highlighted in a language the highlighter has loaded,
    with two exceptions.  Whatever the language tag of the block, when
    [normalizeCodeLang] returns a string it is one of the ten [langs]; the
    tags [constructor] and [__proto__] (in any case, [toLowerCase] returning
    no upper-case letter) are the tags for which it returns no string but
    what [langMap] inherits under that name. *)
Theorem normalized_language_is_loaded
    (trim toLowerCase : string → string) (langRaw : option string) :
  (∀ s, has_upper (toLowerCase s) = false) →
  let lang := toLowerCase (trim (default "" langRaw)) in
  (∀ name, normalizeCodeLang trim toLowerCase langRaw = lang_name name →
           name ∈ loaded_langs)
  ∧ (normalizeCodeLang trim toLowerCase langRaw = not_a_string ↔
     lang = "constructor" ∨ lang = "__proto__").
Proof.
  intros Hlower. cbv zeta. unfold normalizeCodeLang. cbv zeta.
  specialize (Hlower (trim (default "" langRaw))).
  set (lang := toLowerCase (trim (default "" langRaw))) in *.
  split.
  - intros name. case_decide; [by intros [= <-]; compute_done|].
    destruct (get lang) as [value| |] eqn:Hget.
    + intros [= <-]. by apply get_own in Hget.
    + done.
    + intros [= <-]. compute_done.
  - case_decide as Hempty.
    + split; [done|]. rewrite Hempty. by intros [|].
    + split.
      * destruct (get lang) as [value| |] eqn:Hget; [done| |done]. intros _.
        apply lower_inherited; [done|]. unfold get in Hget.
        destruct (list_find _ langMap) as [[i [k v]]|]; [done|]. by case_decide.
      * by intros [-> | ->].
Qed.

(** [toLowerCase] on ASCII text. *)
Definition ascii_lower (a : ascii) : ascii :=
  if is_upper a then Ascii.ascii_of_nat (Ascii.nat_of_ascii a + 32) else a.

Fixpoint lower (s : string) : string :=
  match s with
  | EmptyString => EmptyString
  | String a rest => String (ascii_lower a) (lower rest)
  end.

Lemma lower_has_no_upper s : has_upper (lower s) = false.
Proof.
  induction s as [|a s IH]; [done|]. simpl. rewrite IH, orb_false_r.
  unfold ascii_lower. destruct (is_upper a) eqn:Ha; [|done].
  unfold is_upper in *. cbv zeta in *.
  apply andb_true_iff in Ha as [Hlo%Nat.leb_le Hhi%Nat.leb_le].
  rewrite Ascii.nat_ascii_embedding by lia.
  apply andb_false_iff. right. apply Nat.leb_gt. lia.
Qed.

Lemma normalized_language_is_loaded_witness :
  normalizeCodeLang id lower (Some "TS") = lang_name "typescript"
  ∧ "typescript" ∈ loaded_langs
  ∧ normalizeCodeLang id lower (Some "Constructor") = not_a_string.
Proof.
  destruct (normalized_language_is_loaded id lower (Some "TS") lower_has_no_upper)
    as [Hname _].
  destruct (normalized_language_is_loaded id lower (Some "Constructor")
              lower_has_no_upper) as [_ Hnot].
  split_and!; [reflexivity|by apply Hname|apply Hnot; by left].
Defined.

End Render.

(** ** The terminal client's messages

    [handleChunkUpdate] and the question of [send] in
    [apps/cli/src/tui/context/messages-context.tsx]. *)
Module TuiFacts.

Import Aggregator Cancel.Tui.

(** What one update does to the chunks of the message it reaches. *)
Definition apply_update (chunks : list BtcaChunk) (u : ChunkUpdate) : list BtcaChunk :=
  match u with
  | add chunk => chunks ++ [chunk]
  | update id patch => merge_update id patch <$> chunks
  end.

(** The id and the kind of the chunk an update adds. *)
Definition added (u : ChunkUpdate) : option (string * ChunkType) :=
  match u with
  | add chunk => Some (chunk_id chunk, chunk_type chunk)
  | update _ _ => None
  end.

Definition identity (c : BtcaChunk) : string * ChunkType := (chunk_id c, chunk_type c).

(** [handleChunkUpdate] for every update of a stream, in order. *)
Definition handle_all (us : list ChunkUpdate) (s : TuiState) : TuiState :=
  foldl (λ s u, handleChunkUpdate u s) s us.

(** *** The question [send] asks *)

Definition space : N := 32.

(** [s.replace(/\s+/g, ' ')]: every maximal run of white space becomes one
    space.  [in_run] says that the previous character was white space. *)
Fixpoint collapse (in_run : bool) (s : list N) : list N :=
  match s with
  | [] => []
  | c :: rest =>
      if Jsonc.is_whitespace c then
        if in_run then collapse true rest else space :: collapse true rest
      else c :: collapse false rest
  end.

(** [input.map((s) => s.content).join('').trim().replace(/\s+/g, ' ')];
    [input] is given by the contents of its segments. *)
Definition question (input : list (list N)) : list N :=
  collapse false (Jsonc.trim (concat input)).

Definition solid (c : N) : Prop := Jsonc.is_whitespace c = false.

#[local] Instance solid_dec c : Decision (solid c).
Proof. unfold solid. apply _. Defined.

(** No space follows a space; [prev] says that a space precedes the list. *)
Fixpoint no_double (prev : bool) (q : list N) : bool :=
  match q with
  | [] => true
  | c :: rest =>
      if (c =? space)%N then negb prev && no_double true rest
      else no_double false rest
  end.

(** *** Facts *)

Lemma update_first_spec test f front m rest :
  Forall (λ x, test x = false) front → test m = true →
  update_first test f (front ++ m :: rest) = front ++ f m :: rest.
Proof.
  intros Hfront Hm. induction Hfront as [|x front Hx _ IH]; simpl.
  - by rewrite Hm.
  - by rewrite Hx, IH.
Qed.

Lemma update_last_spec test f before m after :
  test m = true → Forall (λ x, test x = false) after →
  update_last test f (before ++ m :: after) = before ++ f m :: after.
Proof.
  intros Hm Hafter. unfold update_last.
  rewrite reverse_app, reverse_cons, <-app_assoc. simpl.
  rewrite update_first_spec; [|by apply Forall_reverse|done].
  rewrite reverse_app, reverse_cons, !reverse_involutive, <-app_assoc. done.
Qed.

Lemma handleChunkUpdate_spec u s before cs b after :
  messages s = before ++ assistant_message (content_chunks cs) b :: after →
  Forall (λ m, has_chunks m = false) after →
  handleChunkUpdate u s =
  {| messages := before ++ assistant_message (content_chunks (apply_update cs u)) false
                   :: after;
     isStreaming := isStreaming s; cancelState := cancelState s;
     requestAborted := requestAborted s |}.
Proof.
  intros Hs Hafter. destruct s as [msgs streaming cs' aborted]. simpl in Hs. subst msgs.
  destruct u as [chunk|id patch]; simpl;
    unfold addChunkToLastAssistant, updateChunkInLastAssistant, set_messages; simpl;
    by rewrite update_last_spec.
Qed.

Lemma identity_merge_update id patch c :
  identity (merge_update id patch c) = identity c.
Proof.
  unfold merge_update. case_decide; [done|].
  destruct c; simpl; try done; by destruct (o_text patch), (o_state patch).
Qed.

Lemma identity_apply_update cs u :
  identity <$> apply_update cs u = (identity <$> cs) ++ option_list (added u).
Proof.
  destruct u as [chunk|id patch]; simpl.
  - by rewrite fmap_app.
  - rewrite app_nil_r, <-list_fmap_compose. apply list_fmap_ext.
    intros i c _. apply identity_merge_update.
Qed.

Lemma identity_foldl cs us :
  identity <$> foldl apply_update cs us = (identity <$> cs) ++ omap added us.
Proof.
  revert cs. induction us as [|u us IH]; intros cs; simpl.
  - by rewrite app_nil_r.
  - rewrite IH, identity_apply_update, <-app_assoc. by destruct (added u).
Qed.

(** The deltas of a stream fill the last assistant message that holds
    chunks, and nothing else.  After any non-empty run of updates that
    message holds the chunks the updates build from those it had, every other
    message and the streaming state are as before, and the message is no
    longer marked as canceled, whatever mark it had.  The chunks it holds are
    those it had followed by the added ones, with the ids and the kinds they
    were added with: an update changes no id and no kind. *)
Theorem streamed_updates_fill_the_last_answer
    (s : TuiState) (before after : list Message) (cs : list BtcaChunk) (b : bool)
    (us : list ChunkUpdate) :
  messages s = before ++ assistant_message (content_chunks cs) b :: after →
  Forall (λ m, has_chunks m = false) after →
  us ≠ [] →
  handle_all us s =
    {| messages := before
                     ++ assistant_message (content_chunks (foldl apply_update cs us)) false
                     :: after;
       isStreaming := isStreaming s; cancelState := cancelState s;
       requestAborted := requestAborted s |}
  ∧ identity <$> foldl apply_update cs us = (identity <$> cs) ++ omap added us.
Proof.
  intros Hs Hafter Hus. split; [|apply identity_foldl].
  destruct us as [|u us]; [done|]. clear Hus. unfold handle_all. simpl.
  rewrite (handleChunkUpdate_spec u s before cs b after Hs Hafter).
  generalize (apply_update cs u) as cs1. clear Hs.
  induction us as [|u' us IH]; intros cs1; [done|]. simpl.
  erewrite (handleChunkUpdate_spec u' _ before cs1 false after);
    [|reflexivity|exact Hafter].
  simpl. apply IH.
Qed.

Lemma streamed_updates_fill_the_last_answer_witness :
  messages
    (handle_all
       [add (TextChunk "c1" "A rune");
        update "c1" {| o_type := Some type_tool; o_id := Some "c2";
                       o_text := Some "A rune is a signal"; o_toolName := None;
                       o_state := None; o_filePath := None |}]
       {| messages := [user_message "what is a rune?";
                       assistant_message (content_chunks []) true;
                       system_message "Request canceled."];
          isStreaming := true; cancelState := Cancel.none;
          requestAborted := false |}) =
  [user_message "what is a rune?";
   assistant_message (content_chunks [TextChunk "c1" "A rune is a signal"]) false;
   system_message "Request canceled."].
Proof.
  pose proof (streamed_updates_fill_the_last_answer
    {| messages := [user_message "what is a rune?";
                    assistant_message (content_chunks []) true;
                    system_message "Request canceled."];
       isStreaming := true; cancelState := Cancel.none;
       requestAborted := false |}
    [user_message "what is a rune?"] [system_message "Request canceled."] [] true
    [add (TextChunk "c1" "A rune");
     update "c1" {| o_type := Some type_tool; o_id := Some "c2";
                    o_text := Some "A rune is a signal"; o_toolName := None;
                    o_state := None; o_filePath := None |}]
    eq_refl) as H.
  destruct H as [H _]; [by repeat constructor|done|].
  rewrite H. reflexivity.
Defined.

(** **** The question *)

Lemma is_whitespace_space : Jsonc.is_whitespace space = true.
Proof. reflexivity. Qed.

Lemma solid_not_space c : solid c → (c =? space)%N = false.
Proof.
  intros Hc. apply N.eqb_neq. intros ->. unfold solid in Hc.
  by rewrite is_whitespace_space in Hc.
Qed.

Lemma collapse_only_spaces in_run s c :
  c ∈ collapse in_run s → Jsonc.is_whitespace c = true → c = space.
Proof.
  revert in_run. induction s as [|d s IH]; intros in_run; simpl.
  - by intros ?%elem_of_nil.
  - destruct (Jsonc.is_whitespace d) eqn:Hd.
    + destruct in_run; [apply IH|]. intros [->|Hin]%elem_of_cons; [done|by eapply IH].
    + intros [->|Hin]%elem_of_cons; [congruence|by eapply IH].
Qed.

Lemma collapse_no_double in_run s : no_double in_run (collapse in_run s) = true.
Proof.
  revert in_run. induction s as [|d s IH]; intros in_run; simpl; [done|].
  destruct (Jsonc.is_whitespace d) eqn:Hd.
  - destruct in_run; [apply IH|]. simpl. apply IH.
  - simpl. rewrite solid_not_space by done. apply IH.
Qed.

Lemma no_double_spaces prev a b :
  no_double prev (a ++ space :: space :: b) = false.
Proof.
  revert prev. induction a as [|c a IH]; intros prev; simpl.
  - by rewrite andb_false_r.
  - destruct (c =? space)%N; [|apply IH]. by rewrite IH, andb_false_r.
Qed.

Lemma collapse_solid in_run s :
  filter solid (collapse in_run s) = filter solid s.
Proof.
  revert in_run. induction s as [|d s IH]; intros in_run; [done|]. simpl.
  rewrite (filter_cons _ d s). destruct (Jsonc.is_whitespace d) eqn:Hd.
  - rewrite decide_False by (unfold solid; congruence).
    destruct in_run; [apply IH|].
    rewrite filter_cons, decide_False by (unfold solid; by rewrite is_whitespace_space).
    apply IH.
  - rewrite decide_True by done. rewrite filter_cons, decide_True by done.
    by rewrite IH.
Qed.

Lemma skip_whitespace_solid_filter s :
  filter solid (Jsonc.skip_whitespace s) = filter solid s.
Proof.
  induction s as [|d s IH]; [done|]. simpl.
  destruct (Jsonc.is_whitespace d) eqn:Hd; [|done].
  by rewrite (filter_cons _ d s), decide_False by (unfold solid; congruence).
Qed.

Lemma trim_solid_filter s : filter solid (Jsonc.trim s) = filter solid s.
Proof.
  unfold Jsonc.trim, Jsonc.trim_end, Jsonc.trim_start.
  rewrite filter_reverse, skip_whitespace_solid_filter, <-filter_reverse.
  by rewrite reverse_involutive, skip_whitespace_solid_filter.
Qed.

Lemma trim_head s c : head (Jsonc.trim s) = Some c → solid c.
Proof.
  destruct (Jsonc.trim s) as [|d t] eqn:Ht; [done|]. intros [= ->].
  pose proof (Mentions.trim_idempotent s) as Hi. rewrite Ht in Hi.
  unfold Jsonc.trim, Jsonc.trim_end, Jsonc.trim_start in Hi.
  destruct (Jsonc.skip_whitespace (c :: t)) as [|e r] eqn:Hskip.
  - simpl in Hi. done.
  - pose proof (Mentions.skip_whitespace_head _ _ _ Hskip) as He.
    simpl in Hskip. destruct (Jsonc.is_whitespace c) eqn:Hc; [|done].
    exfalso. apply (f_equal length) in Hi.
    rewrite length_reverse in Hi.
    destruct (Mentions.skip_whitespace_suffix (reverse (e :: r))) as [ws1 H1].
    destruct (Mentions.skip_whitespace_suffix t) as [ws2 H2].
    apply (f_equal length) in H1, H2. rewrite Hskip in H2.
    rewrite length_app in H1, H2. rewrite length_reverse in H1. simpl in *. lia.
Qed.

Lemma trim_last s c : last (Jsonc.trim s) = Some c → solid c.
Proof.
  unfold Jsonc.trim, Jsonc.trim_end. rewrite last_reverse.
  unfold Jsonc.trim_start.
  destruct (Jsonc.skip_whitespace (reverse (Jsonc.skip_whitespace s))) as [|d t] eqn:Hskip;
    [done|].
  intros [= ->]. by apply Mentions.skip_whitespace_head in Hskip.
Qed.

Lemma collapse_head s c :
  head (collapse false s) = Some c → ∃ d, head s = Some d ∧ (solid d → c = d).
Proof.
  destruct s as [|d s]; [done|]. simpl. intros H. exists d. split; [done|].
  intros Hd. unfold solid in Hd. rewrite Hd in H. simpl in H. congruence.
Qed.

Lemma collapse_last in_run s c :
  last s = Some c → solid c → last (collapse in_run s) = Some c.
Proof.
  intros Hlast Hc. revert in_run. induction s as [|d s IH]; intros in_run; [done|].
  rewrite last_cons in Hlast. simpl. destruct (last s) as [e|] eqn:He.
  - injection Hlast as ->. specialize (IH eq_refl).
    destruct (Jsonc.is_whitespace d); [destruct in_run|];
      rewrite ?last_cons, ?IH; done.
  - injection Hlast as ->. apply last_None in He as ->. unfold solid in Hc.
    by rewrite Hc.
Qed.

Lemma collapse_fixed prev q :
  (∀ c, c ∈ q → Jsonc.is_whitespace c = true → c = space) →
  no_double prev q = true → collapse prev q = q.
Proof.
  revert prev. induction q as [|c q IH]; intros prev Hsp Hnd; [done|].
  assert (∀ c', c' ∈ q → Jsonc.is_whitespace c' = true → c' = space) as Hsp'
    by (intros c' Hin; apply Hsp; by right).
  simpl in *. destruct (Jsonc.is_whitespace c) eqn:Hc.
  - assert (c = space) as -> by (apply Hsp; [by left|done]).
    simpl in Hnd. apply andb_true_iff in Hnd as [Hprev Hnd].
    destruct prev; [done|]. f_equal. by apply IH.
  - rewrite solid_not_space in Hnd by done. f_equal. by apply IH.
Qed.

Lemma trim_fixed q :
  (∀ c, head q = Some c → solid c) → (∀ c, last q = Some c → solid c) →
  Jsonc.trim q = q.
Proof.
  intros Hhead Hlast. unfold Jsonc.trim, Jsonc.trim_end, Jsonc.trim_start.
  assert (∀ l, (∀ c, head l = Some c → solid c) → Jsonc.skip_whitespace l = l) as Hskip.
  { intros [|c l] Hl; [done|]. apply Mentions.skip_whitespace_solid. by apply Hl. }
  rewrite (Hskip q Hhead), Hskip, reverse_involutive; [done|].
  intros c. rewrite head_reverse. apply Hlast.
Qed.

(** The question [send] asks is single-spaced.  Its only white space
    characters are spaces, no two of them are adjacent, it neither starts
    nor ends with one, and its other characters are those of the input, in
    order: line breaks and tabs of the input are replaced, nothing else is
    lost.  Normalising it again changes nothing. *)
Theorem question_is_single_spaced (input : list (list N)) :
  let q := question input in
  (∀ c, c ∈ q → Jsonc.is_whitespace c = true → c = space)
  ∧ (∀ a b, q ≠ a ++ space :: space :: b)
  ∧ (∀ c, head q = Some c → solid c)
  ∧ (∀ c, last q = Some c → solid c)
  ∧ filter solid q = filter solid (concat input)
  ∧ question [q] = q.
Proof.
  cbv zeta. unfold question.
  set (t := Jsonc.trim (concat input)).
  assert (∀ c, c ∈ collapse false t → Jsonc.is_whitespace c = true → c = space) as H1
    by (intros c; apply collapse_only_spaces).
  assert (∀ c, head (collapse false t) = Some c → solid c) as H3.
  { intros c (d & Hd & Hcd)%collapse_head.
    pose proof (trim_head _ _ Hd) as Hsolid. by rewrite (Hcd Hsolid). }
  assert (∀ c, last (collapse false t) = Some c → solid c) as H4.
  { intros c Hc. destruct (last t) as [d|] eqn:Hd.
    - pose proof (trim_last _ _ Hd) as Hsolid.
      rewrite (collapse_last false t d Hd Hsolid) in Hc. by injection Hc as <-.
    - apply last_None in Hd. by rewrite Hd in Hc. }
  split_and!; [done| |done|done| |].
  - intros a b Heq. pose proof (collapse_no_double false t) as Hnd.
    by rewrite Heq, no_double_spaces in Hnd.
  - unfold t. by rewrite collapse_solid, trim_solid_filter.
  - simpl. rewrite app_nil_r, trim_fixed by done.
    apply collapse_fixed; [done|apply collapse_no_double].
Qed.

End TuiFacts.
